(** * LightRAG MongoDB storage back-end (lightrag/kg/mongo_impl.py)

    A shallow embedding of the storage classes of [mongo_impl.py] and the
    properties of its connection manager, key-value store, graph store
    and vector store.

    The MongoDB server is outside the repository.  The operators the
    code sends to it ([find_one], [update_one] with [$set],
    [$setOnInsert], [$pull], [$push], [$match], [$group], [$graphLookup],
    [$project]) are written out as list functions on the collection, one
    definition per operator, following their documented meaning; the
    Python methods are then transcribed on top of these operators. *)

From stdpp Require Import base list strings gmap sorting.
From Stdlib Require Import ZArith QArith Lia Ascii.

Close Scope Q_scope.
Local Open Scope string_scope.
Local Open Scope nat_scope.
Local Open Scope list_scope.

(* ================================================================== *)
(** * ClientManager: the shared, reference-counted database handle     *)
(* ================================================================== *)

Module ClientManager.

(** An [AsyncIOMotorDatabase] object is identified by the serial
    number of the [AsyncIOMotorClient(uri)] call that created it;
    Python's [is] on handles is equality of serial numbers. *)
Definition handle := nat.

(** [_instances = {"db": None, "ref_count": 0}] *)
Record instances := Instances { db : option handle; ref_count : Z }.

(** The class state together with the number of clients opened so
    far in the process (the next serial number). *)
Record manager := Manager { _instances : instances; opened : nat }.

Definition initial : manager := Manager (Instances None 0) 0.

(** [get_client]: under the lock, open a client when [db is None]
    (setting [ref_count = 0]), then [ref_count += 1] and return
    [db]. *)
Definition get_client (m : manager) : manager * handle :=
  match db (_instances m) with
  | None =>
      (* client = AsyncIOMotorClient(uri); ref_count = 0; ref_count += 1 *)
      let h := opened m in
      (Manager (Instances (Some h) (0 + 1)) (S (opened m)), h)
  | Some h =>
      (Manager (Instances (Some h) (ref_count (_instances m) + 1)) (opened m), h)
  end.

(** [release_client(db)]: the argument may be [None] or a handle that
    is no longer the shared one; in both cases nothing happens. *)
Definition release_client (h : option handle) (m : manager) : manager :=
  match h with
  | None => m
  | Some h' =>
      if decide (db (_instances m) = Some h') then
        let rc := (ref_count (_instances m) - 1)%Z in
        if decide (rc = 0%Z)
        then Manager (Instances None rc) (opened m)
        else Manager (Instances (db (_instances m)) rc) (opened m)
      else m
  end.

(** A process: the manager and the handles handed out by [get_client]
    that have not been given back yet (one entry per acquisition). *)
Record process := Process { mgr : manager; held : list handle }.

(** Remove one occurrence of [h]. *)
Fixpoint give_back (h : handle) (l : list handle) : list handle :=
  match l with
  | [] => []
  | x :: l' => if decide (x = h) then l' else x :: give_back h l'
  end.

Definition acquire (p : process) : process :=
  let '(m, h) := get_client (mgr p) in Process m (h :: held p).

Definition release (h : handle) (p : process) : process :=
  Process (release_client (Some h) (mgr p)) (give_back h (held p)).

(** Paired executions: every release gives back a handle obtained by
    an earlier acquire and not released since. *)
Inductive paired : process -> Prop :=
| paired_start : paired (Process initial [])
| paired_acquire p : paired p -> paired (acquire p)
| paired_release p h : paired p -> h ∈ held p -> paired (release h p).

(** The connections in use: the shared one and those still held. *)
Definition live (p : process) : gset handle :=
  list_to_set (held p) ∪
  match db (_instances (mgr p)) with Some h => {[ h ]} | None => ∅ end.

(** The pairing invariant of the reference count. *)
Definition consistent (p : process) : Prop :=
  ref_count (_instances (mgr p)) = Z.of_nat (length (held p)) ∧
  match db (_instances (mgr p)) with
  | Some h => held p ≠ [] ∧ Forall (λ x, x = h) (held p)
  | None => held p = []
  end.

(** ** The storages' [initialize] and [finalize]

    Each storage class keeps the handle in its [db] attribute and
    guards both methods with it ([_data] and [collection], which are
    derived from the handle, are not tracked here). *)

(** [initialize]: [if self.db is None: self.db = await get_client()] *)
Definition initialize (self_db : option handle) (m : manager)
  : option handle * manager :=
  match self_db with
  | None => let '(m', h) := get_client m in (Some h, m')
  | Some _ => (self_db, m)
  end.

(** [finalize]:
    [if self.db is not None: await release_client(self.db); self.db = None] *)
Definition finalize (self_db : option handle) (m : manager)
  : option handle * manager :=
  match self_db with
  | Some h => (None, release_client (Some h) m)
  | None => (self_db, m)
  end.

(** Several storages of one process, and calls of their methods in
    any order; a call on a storage that does not exist does nothing. *)
Record system := System { shared : manager; storages : list (option handle) }.

Inductive call := Initialize (i : nat) | Finalize (i : nat).

Definition run_call (sys : system) (c : call) : system :=
  match c with
  | Initialize i =>
      match storages sys !! i with
      | Some self_db =>
          let '(self_db', m') := initialize self_db (shared sys) in
          System m' (<[i := self_db']> (storages sys))
      | None => sys
      end
  | Finalize i =>
      match storages sys !! i with
      | Some self_db =>
          let '(self_db', m') := finalize self_db (shared sys) in
          System m' (<[i := self_db']> (storages sys))
      | None => sys
      end
  end.

Definition run_calls (sys : system) (calls : list call) : system :=
  foldl run_call sys calls.

(** [n] storages before any call. *)
Definition fresh_system (n : nat) : system := System initial (replicate n None).

(** The handles the storages hold. *)
Definition handles_held (sys : system) : list handle :=
  omap (λ s, s) (storages sys).

End ClientManager.

(* ================================================================== *)
(** * Exceptions and stored values                                     *)
(* ================================================================== *)

(** The Python exceptions that can leave the methods modelled below.
    [WriteError] and [OperationFailure] are pymongo's (each a
    [PyMongoError]): the server refused a write, or a command. *)
Inductive exn :=
  KeyError | ValueError | IndexError | WriteError | OperationFailure.

Inductive outcome (A : Type) :=
| Returns (a : A)
| Raises (e : exn).
Arguments Returns {A} a.
Arguments Raises {A} e.

Global Instance outcome_ret : MRet outcome := λ A a, Returns a.
Global Instance outcome_bind : MBind outcome :=
  λ A B f m, match m with Returns a => f a | Raises e => Raises e end.

(** A [for] loop whose body may raise. *)
Fixpoint foldM {A B : Type} (f : B → A → outcome B) (b : B) (l : list A)
  : outcome B :=
  match l with
  | [] => Returns b
  | x :: l' => b' ← f b x; foldM f b' l'
  end.

(** Field values of the documents of the key-value and vector
    collections ([dict[str, Any]] restricted to the scalars and the
    number lists the stores handle).  Numbers are rationals: every
    finite double is one and [$gte] compares numbers by value. *)
Inductive value :=
| VNone
| VStr (s : string)
| VInt (z : Z)
| VNum (q : Q)
| VVec (v : list Q).

Global Instance Q_eq_dec : EqDecision Q.
Proof. solve_decision. Defined.
Global Instance value_eq_dec : EqDecision value.
Proof. solve_decision. Defined.

(** A document with its [_id] among the fields. *)
Abbreviation record := (gmap string value).

(* ================================================================== *)
(** * The collection operations the stores use                         *)
(* ================================================================== *)

Module Mongo.
Section Collection.
(** A collection is the list of its documents in natural (insertion)
    order; [has_id id d] is the filter [{"_id": id}]. *)
Context {K D : Type} (has_id : K → D → Prop).
Context `{!∀ id d, Decision (has_id id d)}.

(** [find_one({"_id": id})] *)
Fixpoint find_one (id : K) (c : list D) : option D :=
  match c with
  | [] => None
  | d :: c' => if decide (has_id id d) then Some d else find_one id c'
  end.

(** [update_one({"_id": id}, u)]: the first matching document is
    updated, nothing happens when there is none. *)
Fixpoint update_one (id : K) (u : D → D) (c : list D) : list D :=
  match c with
  | [] => []
  | d :: c' =>
      if decide (has_id id d) then u d :: c' else d :: update_one id u c'
  end.

(** [update_one({"_id": id}, u, upsert=True)]: [ins] is the document
    the server inserts when none matches. *)
Definition update_one_upsert (id : K) (u : D → D) (ins : D)
    (c : list D) : list D :=
  match find_one id c with
  | Some _ => update_one id u c
  | None => c ++ [ins]
  end.

(** [update_many({}, u)] *)
Definition update_many (u : D → D) (c : list D) : list D := u <$> c.

(** [delete_one({"_id": id})] *)
Fixpoint delete_one (id : K) (c : list D) : list D :=
  match c with
  | [] => []
  | d :: c' => if decide (has_id id d) then c' else d :: delete_one id c'
  end.

(** [delete_many({"_id": {"$in": ids}})] *)
Definition delete_many (ids : list K) (c : list D) : list D :=
  filter (λ d, ¬ Exists (λ id, has_id id d) ids) c.
End Collection.
End Mongo.

(** [{"_id": id}] on a document that carries its [_id] as a field. *)
Definition record_has_id (id : string) (d : record) : Prop :=
  d !! "_id" = Some (VStr id).
Global Instance record_has_id_dec id d : Decision (record_has_id id d).
Proof. unfold record_has_id. apply _. Defined.

(** [{"$set": v}]: the fields of [v] replace those of the document. *)
Definition op_set (v d : record) : record := v ∪ d.

(* ================================================================== *)
(** * MongoKVStorage                                                   *)
(* ================================================================== *)

Module MongoKVStorage.

Abbreviation collection := (list record).

Definition find_one : string → collection → option record :=
  Mongo.find_one record_has_id.

(** [get_by_id] *)
Definition get_by_id (c : collection) (id : string) : option record :=
  find_one id c.

(** The shape of [data] depends on the namespace: in the response
    cache it maps a mode to the records of that mode, elsewhere it
    maps a key to a record. Both are in iteration order. *)
Definition data_of (cache : bool) : Type :=
  if cache then list (string * list (string * record))
  else list (string * record).

(** The write issued for one cache entry:
    [update_one({"_id": key}, {"$setOnInsert": v}, upsert=True)]
    after [data[mode][k]["_id"] = key].  An existing document is left
    as it is; otherwise the query's [_id] and the fields of [v] are
    inserted. *)
Definition cache_task (mode k : string) (v : record) (c : collection)
  : collection :=
  let key := mode +:+ "_" +:+ k in
  let v' := <["_id" := VStr key]> v in
  Mongo.update_one_upsert record_has_id key (λ d, d) v' c.

(** The write issued for one entry of another namespace:
    [update_one({"_id": k}, {"$set": v}, upsert=True)] after
    [data[k]["_id"] = k]. *)
Definition plain_task (k : string) (v : record) (c : collection)
  : collection :=
  let v' := <["_id" := VStr k]> v in
  Mongo.update_one_upsert record_has_id k (op_set v') v' c.

(** The tasks are taken here in the order they were created. *)
Definition run_tasks (tasks : list (collection → collection))
    (c : collection) : collection :=
  foldl (λ c t, t c) c tasks.

Definition cache_tasks (data : list (string * list (string * record)))
  : list (collection → collection) :=
  '(mode, items) ← data; '(k, v) ← items; [cache_task mode k v].

Definition plain_tasks (data : list (string * record))
  : list (collection → collection) :=
  '(k, v) ← data; [plain_task k v].

(** [upsert]; [cache] is the value of
    [is_namespace(self.namespace, NameSpace.KV_STORE_LLM_RESPONSE_CACHE)],
    whose definition is in [lightrag/namespace.py]. *)
Definition upsert (cache : bool) : data_of cache → collection → collection :=
  match cache with
  | true => λ data c,
      match data with
      | [] => c
      | _ => run_tasks (cache_tasks data) c
      end
  | false => λ data c,
      match data with
      | [] => c
      | _ => run_tasks (plain_tasks data) c
      end
  end.

(** [get_by_mode_and_id]: the dictionary [{id: v}] when the cache has
    the entry; [None] otherwise and in every other namespace. *)
Definition get_by_mode_and_id (cache : bool) (c : collection)
    (mode id : string) : option (gmap string record) :=
  if cache then
    match find_one (mode +:+ "_" +:+ id) c with
    | Some v => if decide (v = ∅) then None else Some {[ id := v ]}
    | None => None
    end
  else None.

(** [find({"_id": {"$in": ids}})] *)
Definition find_in (ids : list string) (c : collection) : collection :=
  filter (λ d, Exists (λ id, record_has_id id d) ids) c.

(** [get_by_ids] *)
Definition get_by_ids (c : collection) (ids : list string) : list record :=
  find_in ids c.

(** [str(x["_id"])] for a document found by a string id. *)
Definition str_id (d : record) : option string :=
  match d !! "_id" with
  | Some (VStr s) => Some s
  | _ => None
  end.

(** [filter_keys] *)
Definition filter_keys (c : collection) (keys : gset string) : gset string :=
  let cursor := find_in (elements keys) c in
  let existing_ids : gset string := list_to_set (omap str_id cursor) in
  keys ∖ existing_ids.

(** [delete] (the name is taken by the deletion of a map key):
    nothing is sent for an empty list. *)
Definition delete_ids (c : collection) (ids : list string) : collection :=
  match ids with
  | [] => c
  | _ => Mongo.delete_many record_has_id ids c
  end.

(** The tasks of one [upsert] in the cache namespace. *)
Inductive cache_write : (collection → collection) → Prop :=
| is_cache_write mode k v : cache_write (cache_task mode k v).

End MongoKVStorage.

(* ================================================================== *)
(** * MongoDocStatusStorage                                            *)
(* ================================================================== *)

Module MongoDocStatusStorage.

Abbreviation collection := (list record).

(** [upsert]: one [$set] write with [upsert=True] per entry, as in the
    plain branch of [MongoKVStorage.upsert]. *)
Definition upsert (data : list (string * record)) (c : collection)
  : collection :=
  match data with
  | [] => c
  | _ => MongoKVStorage.run_tasks (MongoKVStorage.plain_tasks data) c
  end.

(** The value of ["$status"] in a pipeline: null for a document
    without the field. *)
Definition status_field (d : record) : value := default VNone (d !! "status").

(** [{"$group": {"_id": "$status", "count": {"$sum": 1}}}]: one group
    per status that occurs, here in the order of first occurrence. *)
Definition group_by_status (c : collection) : list (value * nat) :=
  (λ s, (s, length (filter (λ d, status_field d = s) c))) <$>
  remove_dups (status_field <$> c).

(** A Python dictionary with values as keys, in insertion order:
    [counts[k] = n] and [counts.get(k)]. *)
Fixpoint dict_set (k : value) (n : nat) (counts : list (value * nat))
  : list (value * nat) :=
  match counts with
  | [] => [(k, n)]
  | (k', n') :: rest =>
      if decide (k' = k) then (k, n) :: rest else (k', n') :: dict_set k n rest
  end.

Fixpoint dict_get (k : value) (counts : list (value * nat)) : option nat :=
  match counts with
  | [] => None
  | (k', n') :: rest => if decide (k' = k) then Some n' else dict_get k rest
  end.

(** [get_status_counts] *)
Definition get_status_counts (c : collection) : list (value * nat) :=
  foldl (λ counts '(s, n), dict_set s n counts) [] (group_by_status c).

(** Modelled from the spec: [DocProcessingStatus] is declared in
    [lightrag/base.py], which is not among the sources; its fields are
    those of the DocStatus record of the data model, as the constructor
    call in [get_docs_by_status] names them. *)
Record DocProcessingStatus := DocProcessingStatus_ {
  content : value;
  content_summary : value;
  content_length : value;
  status : value;
  created_at : value;
  updated_at : value;
  chunks_count : value;
  file_path : value
}.

(** [doc[k]] and [doc.get(k, default)] *)
Definition item (doc : record) (k : string) : outcome value :=
  match doc !! k with
  | Some x => Returns x
  | None => Raises KeyError
  end.

Definition get (doc : record) (k : string) (d : value) : value :=
  default d (doc !! k).

(** One entry of the dictionary comprehension of
    [get_docs_by_status]. *)
Definition processing_status_entry (doc : record)
  : outcome (value * DocProcessingStatus) :=
  id ← item doc "_id";
  content ← item doc "content";
  content_length ← item doc "content_length";
  status ← item doc "status";
  Returns (id,
           DocProcessingStatus_ content (get doc "content_summary" VNone)
             content_length status
             (get doc "created_at" VNone) (get doc "updated_at" VNone)
             (get doc "chunks_count" (VInt (-1)))
             (get doc "file_path" id)).

(** [get_docs_by_status]; [status] is [status.value].  The result is
    the dictionary as the list of its entries in insertion order. *)
Definition get_docs_by_status (c : collection) (status : string)
  : outcome (list (value * DocProcessingStatus)) :=
  mapM processing_status_entry
       (filter (λ d, d !! "status" = Some (VStr status)) c).

End MongoDocStatusStorage.

(* ================================================================== *)
(** * MongoGraphStorage                                                *)
(* ================================================================== *)

Module MongoGraphStorage.

(** An edge is the dictionary stored in the [edges] array of its
    source node: the key ["target"] and the keys of [edge_data]. *)
Abbreviation edge := (gmap string string).

(** A node document.  [fields] holds the attributes written by
    [$set] (neither [_id] nor [edges], see [upsert_node]); [edges] is
    [None] when the document has no such field. *)
Record node_doc := NodeDoc {
  _id : string;
  fields : gmap string string;
  edges : option (list edge)
}.

Abbreviation collection := (list node_doc).

Definition node_has_id (id : string) (d : node_doc) : Prop := _id d = id.
Global Instance node_has_id_dec id d : Decision (node_has_id id d).
Proof. unfold node_has_id. apply _. Defined.

(** [doc.get("edges", [])] *)
Definition get_edges (d : node_doc) : list edge := default [] (edges d).

(** [{"target": t}] as a condition on an array element, and
    [e.get("target") == t]. *)
Definition targets (t : string) (e : edge) : Prop := e !! "target" = Some t.
Global Instance targets_dec t e : Decision (targets t e).
Proof. unfold targets. apply _. Defined.

Definition find_one : string → collection → option node_doc :=
  Mongo.find_one node_has_id.

(** ** Update operators *)

(** [{"$set": {**node_data}}] on an existing document. *)
Definition op_set_fields (node_data : gmap string string) (d : node_doc)
  : node_doc :=
  NodeDoc (_id d) (delete "_id" node_data ∪ fields d) (edges d).

(** [{"$pull": {"edges": {"target": t}}}]: every matching element of
    the array goes; a document without the array is left alone. *)
Definition op_pull (t : string) (d : node_doc) : node_doc :=
  NodeDoc (_id d) (fields d)
          (filter (λ e, ¬ targets t e) <$> edges d).

(** [{"$pull": {"edges": {"target": {"$in": ts}}}}] *)
Definition op_pull_in (ts : list string) (d : node_doc) : node_doc :=
  NodeDoc (_id d) (fields d)
          (filter (λ e, ¬ Exists (λ t, targets t e) ts) <$> edges d).

(** [{"$push": {"edges": e}}]: appended; the array is created when
    the field is missing. *)
Definition op_push (e : edge) (d : node_doc) : node_doc :=
  NodeDoc (_id d) (fields d) (Some (get_edges d ++ [e])).

(** ** Basic queries *)

(** [has_node] *)
Definition has_node (c : collection) (node_id : string) : bool :=
  bool_decide (is_Some (find_one node_id c)).

(** [get_node] *)
Definition get_node (c : collection) (node_id : string) : option node_doc :=
  find_one node_id c.

(** ** Degrees *)

(** [{"$match": {"edges.target": node_id}}]: in a query [node_id] is a
    value, whatever its first character. *)
Definition match_edges_target (node_id : string) (c : collection)
  : collection :=
  filter (λ d, Exists (targets node_id) (get_edges d)) c.

(** *** The operand [node_id] of [$eq]

    In [{"$eq": ["$$edge.target", node_id]}] the string [node_id] is an
    operand of an aggregation expression, not a value of a query: the
    server reads a string that starts with [$] as a field path of the
    current document ([$name]) or as a variable ([$$name]), and every
    other string as itself. *)

(** What an operand can stand for, as far as the comparison with the
    target of an edge tells values apart: a string, no value (the field
    is missing), or an array. *)
Inductive operand_value := OString (s : string) | OMissing | OArray.

(** [$name] on a node document, [name] being a top-level field. *)
Definition field_value (d : node_doc) (name : string) : operand_value :=
  if decide (name = "_id") then OString (_id d)
  else if decide (name = "edges") then
    match edges d with Some _ => OArray | None => OMissing end
  else
    match fields d !! name with Some s => OString s | None => OMissing end.

(** [$eq] of [$$edge.target] and a value: two strings are equal when
    they are the same, two missing values are equal, and nothing else
    is (the target of an edge is a string or is missing). *)
Definition target_eq (e : edge) (v : operand_value) : bool :=
  match e !! "target", v with
  | Some t, OString s => bool_decide (t = s)
  | None, OMissing => true
  | _, _ => false
  end.

(** The name after the [$] of a string that starts with [$]. *)
Definition after_dollar (s : string) : option string :=
  match s with
  | String a name => if Ascii.eqb a "$"%char then Some name else None
  | EmptyString => None
  end.

(** A field name that is a field path as it stands: not empty, and
    without [.], [$] and the null character. *)
Fixpoint plain_chars (s : string) : bool :=
  match s with
  | EmptyString => true
  | String a s' =>
      negb (Ascii.eqb a "."%char || Ascii.eqb a "$"%char ||
            Ascii.eqb a Ascii.zero)
      && plain_chars s'
  end.

Definition simple_field_name (name : string) : bool :=
  match name with
  | EmptyString => false
  | _ => plain_chars name
  end.

(** A condition on a document and one of its edges; its evaluation
    can fail. *)
Abbreviation condition := (node_doc → edge → outcome bool).

Section Server.
(** The server's reading of the other strings that start with [$]:
    paths of several components, variables, and the strings it
    rejects.  It answers an error when it parses the pipeline, whatever
    the documents, or gives the condition that the string stands for.
    This is the expression language of the server, which is not part of
    the module. *)
Variable server_operand : string → outcome condition.

(** The condition [{"$eq": ["$$edge.target", node_id]}]. *)
Definition eq_edge_target (node_id : string) : outcome condition :=
  match after_dollar node_id with
  | None => Returns (λ _ e, Returns (bool_decide (targets node_id e)))
  | Some name =>
      if simple_field_name name
      then Returns (λ d e, Returns (target_eq e (field_value d name)))
      else server_operand node_id
  end.

(** [$project] of [matchingEdgesCount]: the [$size] of the [$filter]
    of the edges that satisfy the condition. *)
Definition matchingEdgesCount (cond : condition) (d : node_doc)
  : outcome nat :=
  kept ← mapM (cond d) (get_edges d);
  Returns (length (filter (λ b : bool, b = true) kept)).

(** [{"$group": {"_id": None, "totalInbound": {"$sum": ...}}}]: one
    group when there is at least one input document, none otherwise. *)
Definition group_totalInbound (counts : list nat) : list nat :=
  match counts with
  | [] => []
  | _ => [sum_list counts]
  end.

(** [node_degree]; an error of the server leaves the method as the
    driver's exception. *)
Definition node_degree (c : collection) (node_id : string) : outcome nat :=
  match find_one node_id c with
  | None => Returns 0
  | Some doc =>
      let outbound_count := length (get_edges doc) in
      cond ← eq_edge_target node_id;
      counts ← mapM (matchingEdgesCount cond) (match_edges_target node_id c);
      let inbound_result := group_totalInbound counts in
      let inbound_count :=
        match inbound_result with
        | totalInbound :: _ => totalInbound
        | [] => 0
        end in
      Returns (outbound_count + inbound_count)
  end.
End Server.

(** [edge_degree]: the [$project] keeps the [edges] of the source. *)
Definition edge_degree (c : collection) (src_id tgt_id : string) : nat :=
  match find_one src_id c with
  | None => 0
  | Some doc => length (filter (targets tgt_id) (get_edges doc))
  end.

(** [get_edge]: the first edge of the source with that target. *)
Definition get_edge (c : collection) (source_node_id target_node_id : string)
  : option edge :=
  match find_one source_node_id c with
  | None => None
  | Some doc => head (filter (targets target_node_id) (get_edges doc))
  end.

(** ** Upserts *)

(** [upsert_node]:
    [update_one({"_id": node_id},
                {"$set": {**node_data}, "$setOnInsert": {"edges": []}},
                upsert=True)].
    The server rejects the update when [node_data] names [edges] (the
    path is also under [$setOnInsert]) or gives [_id] another value
    (the field is immutable); the exception leaves the method. *)
Definition upsert_node (c : collection) (node_id : string)
    (node_data : gmap string string) : outcome collection :=
  if decide (is_Some (node_data !! "edges")) then Raises WriteError
  else if decide (node_data !! "_id" = None ∨ node_data !! "_id" = Some node_id)
  then
    Returns (Mongo.update_one_upsert node_has_id node_id
               (op_set_fields node_data)
               (NodeDoc node_id (delete "_id" node_data) (Some []))
               c)
  else Raises WriteError.

(** [new_edge = {"target": target_node_id}; new_edge.update(edge_data)] *)
Definition new_edge (target_node_id : string) (edge_data : gmap string string)
  : edge :=
  edge_data ∪ {[ "target" := target_node_id ]}.

(** [upsert_edge] *)
Definition upsert_edge (c : collection) (source_node_id target_node_id : string)
    (edge_data : gmap string string) : outcome collection :=
  (* Ensure source node exists *)
  c1 ← upsert_node c source_node_id ∅;
  (* Remove existing edge (if any) *)
  let c2 := Mongo.update_one node_has_id source_node_id
              (op_pull target_node_id) c1 in
  (* Insert new edge *)
  let c3 := Mongo.update_one node_has_id source_node_id
              (op_push (new_edge target_node_id edge_data)) c2 in
  Returns c3.

(** ** Deletion *)

(** [delete_node] *)
Definition delete_node (c : collection) (node_id : string) : collection :=
  Mongo.delete_one node_has_id node_id
    (Mongo.update_many (op_pull node_id) c).

(** [remove_nodes] *)
Definition remove_nodes (c : collection) (nodes : list string) : collection :=
  match nodes with
  | [] => c
  | _ => Mongo.delete_many node_has_id nodes
           (Mongo.update_many (op_pull_in nodes) c)
  end.

(** [remove_edges]: one [$pull] per pair, in the order of the list. *)
Definition remove_edges (c : collection) (pairs : list (string * string))
  : collection :=
  foldl (λ c '(source, target),
           Mongo.update_one node_has_id source (op_pull target) c)
        c pairs.

(** [drop]: [delete_many({})] *)
Definition drop (c : collection) : collection := [].

(** ** Subgraph query *)

(** Modelled from the spec: the classes [KnowledgeGraph],
    [KnowledgeGraphNode] and [KnowledgeGraphEdge] of
    [lightrag/types.py] are not among the sources; a subgraph is
    [{nodes, edges}] and the fields are those the constructor calls in
    [get_knowledge_graph] give. *)
Record KnowledgeGraphNode := KGNode {
  n_id : string;
  n_labels : list string;
  n_properties : gmap string string
}.

Record KnowledgeGraphEdge := KGEdge {
  e_id : string;
  e_type : string;
  e_source : string;
  e_target : string;
  e_properties : gmap string string
}.

Record KnowledgeGraph := KG {
  nodes : list KnowledgeGraphNode;
  kg_edges : list KnowledgeGraphEdge
}.

(** The local variables of [get_knowledge_graph]. *)
Record walk := Walk {
  result : KnowledgeGraph;
  seen_nodes : gset string;
  seen_edges : gset string
}.

Definition start_walk : walk := Walk (KG [] []) ∅ ∅.

(** [{k: v for k, v in doc.items() if k not in excluded}] *)
Definition properties_except (excluded : list string) (m : gmap string string)
  : gmap string string :=
  filter (λ kv, kv.1 ∉ excluded) m.

(** The body of the three [for edge in ...] loops; [edge['target']]
    raises when the key is missing. *)
Definition add_edge (node_id : string) (w : walk) (e : edge) : outcome walk :=
  match e !! "target" with
  | None => Raises KeyError
  | Some tgt =>
      let edge_id := node_id +:+ "-" +:+ tgt in
      if decide (edge_id ∈ seen_edges w) then Returns w
      else
        Returns
          (Walk (KG (nodes (result w))
                    (kg_edges (result w) ++
                     [KGEdge edge_id (default "" (e !! "relation"))
                             node_id tgt
                             (properties_except ["target"; "relation"] e)]))
                (seen_nodes w)
                ({[ edge_id ]} ∪ seen_edges w))
  end.

(** [result.nodes.append(...); seen_nodes.add(node_id)] *)
Definition add_node (excluded : list string) (d : node_doc) (w : walk) : walk :=
  Walk (KG (nodes (result w) ++
            [KGNode (_id d) [_id d] (properties_except excluded (fields d))])
           (kg_edges (result w)))
       ({[ _id d ]} ∪ seen_nodes w)
       (seen_edges w).

(** A document other than the start node: it and its edges are taken
    only when its id is new.  This is the body of the loop over
    [find({})] and of the loop over [connected_nodes]. *)
Definition visit (excluded : list string) (w : walk) (d : node_doc)
  : outcome walk :=
  if decide (_id d ∈ seen_nodes w) then Returns w
  else foldM (add_edge (_id d)) (add_node excluded d w) (get_edges d).

(** [$graphLookup] with [startWith] and [connectFromField]
    [edges.target] and [connectToField] [_id]: the documents whose
    [_id] is one of the values reached so far are collected level by
    level, each once, with the level as [depth]; [levels] is
    [maxDepth + 1]. *)
Definition edge_targets (d : node_doc) : list string :=
  omap (λ e : edge, e !! "target") (get_edges d).

Fixpoint graphLookup_levels (c : collection) (levels : nat) (depth : nat)
    (visited : gset string) (frontier : list string)
  : list (node_doc * nat) :=
  match levels with
  | 0 => []
  | S levels' =>
      let found := filter (λ d, _id d ∈ frontier ∧ _id d ∉ visited) c in
      ((λ d, (d, depth)) <$> found) ++
      graphLookup_levels c levels' (S depth)
        (visited ∪ list_to_set (_id <$> found))
        (found ≫= edge_targets)
  end.

Definition graphLookup (c : collection) (start : node_doc) (maxDepth : nat)
  : list (node_doc * nat) :=
  graphLookup_levels c (S maxDepth) 0 ∅ (edge_targets start).

(** The body of the loop over the aggregation result: [doc] with its
    [connected_nodes]. *)
Definition expand (w : walk) (doc : node_doc * list (node_doc * nat))
  : outcome walk :=
  let '(start, connected_nodes) := doc in
  (* Add the start node *)
  let w1 :=
    if decide (_id start ∈ seen_nodes w) then w
    else add_node ["_id"; "edges"; "connected_nodes"; "depth"] start w in
  (* Add edges from start node *)
  w2 ← foldM (add_edge (_id start)) w1 (get_edges start);
  (* Add connected nodes and their edges *)
  foldM (visit ["_id"; "edges"; "depth"]) w2 (fst <$> connected_nodes).

(** [get_knowledge_graph].  A negative [max_depth] is rejected by the
    server when the pipeline is run; that [PyMongoError] is caught and
    the graph built so far, which is empty, is returned. *)
Definition get_knowledge_graph (c : collection) (node_label : string)
    (max_depth : Z) : outcome KnowledgeGraph :=
  let label := node_label in
  if decide (label = "*") then
    w ← foldM (visit ["_id"; "edges"]) start_walk c;
    Returns (result w)
  else
    match find_one label c with
    | None => Returns (result start_walk)
    | Some _ =>
        if decide (max_depth < 0)%Z then Returns (result start_walk)
        else
          let docs :=
            (λ d, (d, graphLookup c d (Z.to_nat max_depth))) <$>
            filter (node_has_id label) c in
          w ← foldM expand start_walk docs;
          Returns (result w)
    end.

(** ** Notions used to state the properties of the graph store *)

(** The number of edges, over every document of the collection, whose
    target is [node_id]. *)
Definition inbound_edges_count (c : collection) (node_id : string) : nat :=
  sum_list ((λ d, length (filter (targets node_id) (get_edges d))) <$> c).

(** Every edge list has at most one edge per target. *)
Definition one_edge_per_target (c : collection) : Prop :=
  ∀ d, d ∈ c → ∀ t, (length (filter (targets t) (get_edges d)) ≤ 1)%nat.

(** Attributes the server accepts in [upsert_node]: the reserved
    fields are not among them (an [_id] equal to the node's is
    tolerated). *)
Definition node_attributes (node_id : string) (node_data : gmap string string)
  : Prop :=
  node_data !! "edges" = None ∧
  (node_data !! "_id" = None ∨ node_data !! "_id" = Some node_id).

(** The edge list of [src] has exactly one edge to [tgt], and that
    edge carries the attributes [edge_data]. *)
Definition edge_upserted (c : collection) (src tgt : string)
    (edge_data : gmap string string) : Prop :=
  ∃ d e, find_one src c = Some d ∧
         filter (targets tgt) (get_edges d) = [e] ∧
         edge_data ⊆ e.

(** Stores built from the empty collection by the methods of the
    class, one call after the other, with edge attributes that do not
    name ["target"]. *)
Inductive built : collection → Prop :=
| built_empty : built []
| built_upsert_node c c' node_id node_data :
    built c → upsert_node c node_id node_data = Returns c' → built c'
| built_upsert_edge c c' src tgt edge_data :
    built c → edge_data !! "target" = None →
    upsert_edge c src tgt edge_data = Returns c' → built c'
| built_delete_node c node_id : built c → built (delete_node c node_id)
| built_remove_nodes c ns : built c → built (remove_nodes c ns)
| built_remove_edges c pairs : built c → built (remove_edges c pairs)
| built_drop c : built c → built (drop c).

(** What the loops of [get_knowledge_graph] maintain: the ids of the
    collected nodes and edges are exactly the [seen] sets, without
    repetition, and an edge's id is ["{source}-{target}"]. *)
Record walk_inv (w : walk) : Prop := WalkInv {
  inv_nodes_nodup : NoDup (n_id <$> nodes (result w));
  inv_seen_nodes : ∀ i, i ∈ seen_nodes w ↔ i ∈ n_id <$> nodes (result w);
  inv_edges_nodup : NoDup (e_id <$> kg_edges (result w));
  inv_seen_edges : ∀ i, i ∈ seen_edges w ↔ i ∈ e_id <$> kg_edges (result w);
  inv_edge_ids :
    Forall (λ e, e_id e = e_source e +:+ "-" +:+ e_target e)
           (kg_edges (result w))
}.

(** Between two iterations of the loops: each collected node is the
    id of a stored document all of whose edges have their key among the
    seen ones. *)
Definition covered (c : collection) (w : walk) : Prop :=
  ∀ n, n ∈ nodes (result w) →
    ∃ d, d ∈ c ∧ _id d = n_id n ∧
         ∀ e t, e ∈ get_edges d → e !! "target" = Some t →
                _id d +:+ "-" +:+ t ∈ seen_edges w.

(** The edges of a subgraph that go from [s] to [t]. *)
Definition edges_between (kg : KnowledgeGraph) (s t : string)
  : list KnowledgeGraphEdge :=
  filter (λ e, e_source e = s ∧ e_target e = t) (kg_edges kg).

(** What one [upsert_edge] does to the document of its source. *)
Definition put_edge (tgt : string) (e : edge) (d : node_doc) : node_doc :=
  NodeDoc (_id d) (fields d)
          (Some (filter (λ e', ¬ targets tgt e') (get_edges d) ++ [e])).

(** Every stored edge has a ["target"]. *)
Definition edges_have_targets (c : collection) : Prop :=
  ∀ d, d ∈ c → ∀ e, e ∈ get_edges d → is_Some (e !! "target").

(** ** The other queries *)

(** [has_edge]: the [$graphLookup] with [maxDepth] 0 of the source
    document, and the test [target_node_id in reachable_ids]. *)
Definition has_edge (c : collection) (source_node_id target_node_id : string)
  : bool :=
  match filter (node_has_id source_node_id) c with
  | [] => false
  | doc :: _ =>
      let reachable_ids := (λ dn, _id dn.1) <$> graphLookup c doc 0 in
      bool_decide (target_node_id ∈ reachable_ids)
  end.

(** [get_node_edges]; [e["target"]] raises when the key is missing. *)
Definition get_node_edges (c : collection) (source_node_id : string)
  : outcome (option (list (string * string))) :=
  match find_one source_node_id c with
  | None => Returns None
  | Some doc =>
      pairs ← mapM (λ e : edge,
                      match e !! "target" with
                      | Some t => Returns (source_node_id, t)
                      | None => Raises KeyError
                      end)
                   (get_edges doc);
      Returns (Some pairs)
  end.

(** [get_all_labels]: [$group] by [_id], then [$sort] by [_id]
    ascending (strings compare byte by byte). *)
Definition get_all_labels (c : collection) : list string :=
  merge_sort String.le (remove_dups (_id <$> c)).

(** The ids reachable from [start] in [n] hops, [n ≥ 1], along edges
    whose intermediate targets are stored. *)
Inductive reach (c : collection) (start : node_doc) : nat → string → Prop :=
| reach_first t : t ∈ edge_targets start → reach c start 1 t
| reach_next n t' d t :
    reach c start n t' → d ∈ c → _id d = t' → t ∈ edge_targets d →
    reach c start (S n) t.

(** Each edge collected so far leaves a collected node and is an edge
    that the stored document of that node has. *)
Definition edges_stored (c : collection) (w : walk) : Prop :=
  ∀ e, e ∈ kg_edges (result w) →
    e_source e ∈ seen_nodes w ∧
    ∃ d ed, d ∈ c ∧ _id d = e_source e ∧ ed ∈ get_edges d ∧
            ed !! "target" = Some (e_target e) ∧
            e_type e = default "" (ed !! "relation").

(** No two documents have the same [_id]. *)
Definition unique_ids (c : collection) : Prop := NoDup (_id <$> c).

End MongoGraphStorage.

(* ================================================================== *)
(** * MongoVectorDBStorage                                             *)
(* ================================================================== *)

Module MongoVectorDBStorage.

Abbreviation collection := (list record).

(** [{"_id": v}] for an arbitrary value [v]. *)
Definition has_id_value (v : value) (d : record) : Prop := d !! "_id" = Some v.
Global Instance has_id_value_dec v d : Decision (has_id_value v d).
Proof. unfold has_id_value. apply _. Defined.

(** The attributes the methods read.  [cosine_better_than_threshold]
    and [_max_batch_size] are set by [__post_init__]; [meta_fields] is
    declared by [BaseVectorStorage] in [lightrag/base.py], which is not
    among the sources, and is taken as given. *)
Record settings := Settings {
  cosine_better_than_threshold : Q;
  _max_batch_size : Z;
  meta_fields : gset string
}.

(** [range(0, stop, step)] for a positive [step]. *)
Definition range_step (stop step : nat) : list nat :=
  (λ j, j * step) <$> seq 0 ((stop + step - 1) / step).

(** [[contents[i: i + size] for i in range(0, len(contents), size)]] *)
Definition make_batches {A : Type} (size : nat) (contents : list A)
  : list (list A) :=
  (λ i, take size (drop i contents)) <$> range_step (length contents) size.

(** [$match] on [score >= threshold]. *)
Definition score_gte (threshold : Q) (d : record) : bool :=
  match d !! "score" with
  | Some (VNum s) => Qle_bool threshold s
  | _ => false
  end.

(** ** Reads and deletions *)

(** [delete] (the name is taken by the deletion of a map key):
    nothing is sent for an empty list. *)
Definition delete_ids (c : collection) (ids : list string) : collection :=
  match ids with
  | [] => c
  | _ => Mongo.delete_many has_id_value (VStr <$> ids) c
  end.

(** The filter [{"$or": [{"src_id": name}, {"tgt_id": name}]}] *)
Definition relates_to (entity_name : string) (d : record) : Prop :=
  d !! "src_id" = Some (VStr entity_name) ∨
  d !! "tgt_id" = Some (VStr entity_name).
Global Instance relates_to_dec n d : Decision (relates_to n d).
Proof. unfold relates_to. apply _. Defined.

(** [delete_entity_relation]; [relation["_id"]] is read for each
    record found. *)
Definition delete_entity_relation (c : collection) (entity_name : string)
  : outcome collection :=
  let relations := filter (relates_to entity_name) c in
  match relations with
  | [] => Returns c
  | _ =>
      relation_ids ← mapM (λ relation : record,
                             match relation !! "_id" with
                             | Some id => Returns id
                             | None => Raises KeyError
                             end) relations;
      Returns (Mongo.delete_many has_id_value relation_ids c)
  end.

(** The formatting shared by [get_by_id] and [get_by_ids]: [id] is
    copied from [_id] unless the document has an [id] already. *)
Definition with_id (result : record) : record :=
  match result !! "_id", result !! "id" with
  | Some i, None => <["id" := i]> result
  | _, _ => result
  end.

(** [get_by_id] *)
Definition get_by_id (c : collection) (id : string) : option record :=
  match Mongo.find_one has_id_value (VStr id) c with
  | Some result => if decide (result = ∅) then None else Some (with_id result)
  | None => None
  end.

(** [get_by_ids] *)
Definition get_by_ids (c : collection) (ids : list string) : list record :=
  match ids with
  | [] => []
  | _ =>
      with_id <$>
      filter (λ d, Exists (λ id, has_id_value (VStr id) d) ids) c
  end.

Section Store.
(** The collaborators outside the module: the embedding function
    (one row per text), the rounding of [np.float32], and the
    server's [$vectorSearch] (index [vector_knn_index], path
    [vector]), which yields documents with their
    [vectorSearchScore], at most [limit] of them. *)
Variable embedding_func : list value → list (list Q).
Variable float32 : Q → Q.
Variable vectorSearch : collection → list Q → Z → list (record * Q).

Variable self : settings.

(** One element of [list_data], before the vector is attached. *)
Definition list_data_item (current_time : Z) (k : string) (v : record)
  : record :=
  filter (λ kv, kv.1 ∈ meta_fields self) v ∪
  {[ "_id" := VStr k; "created_at" := VInt current_time ]}.

(** [v["content"]] *)
Definition content_of (v : record) : outcome value :=
  match v !! "content" with
  | Some x => Returns x
  | None => Raises KeyError
  end.

(** [d["vector"] = np.array(embeddings[i], dtype=np.float32).tolist()] *)
Definition attach_vector (embeddings : list (list Q)) (i : nat) (d : record)
  : outcome record :=
  match embeddings !! i with
  | Some row => Returns (<["vector" := VVec (float32 <$> row)]> d)
  | None => Raises IndexError
  end.

Fixpoint attach_vectors (embeddings : list (list Q)) (i : nat)
    (list_data : list record) : outcome (list record) :=
  match list_data with
  | [] => Returns []
  | d :: rest =>
      d' ← attach_vector embeddings i d;
      rest' ← attach_vectors embeddings (S i) rest;
      Returns (d' :: rest')
  end.

(** [update_one({"_id": doc["_id"]}, {"$set": doc}, upsert=True)] *)
Definition write (doc : record) (c : collection) : outcome collection :=
  match doc !! "_id" with
  | Some id =>
      Returns (Mongo.update_one_upsert has_id_value id (op_set doc) doc c)
  | None => Raises KeyError
  end.

(** [upsert]; [current_time] is [int(time.time())].  The result is
    the new content of the collection and the value returned
    ([None] for empty [data], [list_data] otherwise). *)
Definition upsert (current_time : Z) (data : list (string * record))
    (c : collection) : outcome (collection * option (list record)) :=
  match data with
  | [] => Returns (c, None)
  | _ =>
      let list_data := (λ '(k, v), list_data_item current_time k v) <$> data in
      contents ← mapM (λ '(_, v), content_of v) data;
      if decide (_max_batch_size self ≤ 0)%Z then Raises ValueError
      else
        let batches := make_batches (Z.to_nat (_max_batch_size self)) contents in
        let embeddings_list := embedding_func <$> batches in
        let embeddings := concat embeddings_list in
        list_data ← attach_vectors embeddings 0 list_data;
        c' ← foldM (λ c doc, write doc c) c list_data;
        Returns (c', Some list_data)
  end.

(** [query]; the parameter [ids] is not used by the method. *)
Definition query (c : collection) (query : value) (top_k : Z)
  : outcome (list record) :=
  let embedding := embedding_func [query] in
  match embedding with
  | [] => Raises IndexError
  | query_vector :: _ =>
      let found := vectorSearch c query_vector top_k in
      (* $addFields score *)
      let scored := (λ '(d, s), <["score" := VNum s]> d) <$> found in
      (* $match score >= threshold *)
      let matched :=
        filter (λ d, score_gte (cosine_better_than_threshold self) d = true)
               scored in
      (* $project vector: 0 *)
      let results := delete "vector" <$> matched in
      mapM (λ doc : record,
              match doc !! "_id" with
              | None => Raises KeyError
              | Some id =>
                  Returns
                    (<["created_at" := default VNone (doc !! "created_at")]>
                       (<["distance" := default VNone (doc !! "score")]>
                          (<["id" := id]> doc)))
              end)
           results
  end.
End Store.
End MongoVectorDBStorage.

(* ================================================================== *)
(** * Properties of ClientManager                                      *)
(* ================================================================== *)

Module ClientManagerFacts.
Import ClientManager.

Lemma give_back_all_same h l :
  l ≠ [] → Forall (λ x, x = h) l →
  ∃ l', l = h :: l' ∧ give_back h l = l' ∧ Forall (λ x, x = h) l'.
Proof.
  destruct l as [|x l']; [done|].
  intros _ Hall. inversion Hall as [|? ? Hx Hl']; subst.
  exists l'. simpl. by rewrite decide_True.
Qed.

Lemma consistent_acquire p : consistent p → consistent (acquire p).
Proof.
  destruct p as [[[d rc] n] hs]. unfold consistent, acquire, get_client. simpl.
  intros [Hrc Hdb]. destruct d as [h|]; simpl.
  - destruct Hdb as [_ Hall]. repeat split; [lia|done|by constructor].
  - subst hs. simpl. repeat split; [done|by repeat constructor].
Qed.

Lemma consistent_release p h :
  consistent p → h ∈ held p → consistent (release h p).
Proof.
  destruct p as [[[d rc] n] hs]. unfold consistent, release, release_client.
  simpl. intros [Hrc Hdb] Hin. destruct d as [h0|].
  - destruct Hdb as [Hne Hall].
    assert (h = h0) as ->
      by (rewrite Forall_forall in Hall; by apply Hall).
    destruct (give_back_all_same h0 hs Hne Hall) as (l' & -> & -> & Hl').
    rewrite decide_True by done. simpl in Hrc.
    destruct (decide (rc - 1 = 0)%Z) as [H0|H0]; simpl.
    + split; [lia|]. destruct l'; [done|simpl in *; lia].
    + split; [lia|]. split; [|done]. intros ->. simpl in *. lia.
  - subst hs. by apply elem_of_nil in Hin.
Qed.

Lemma paired_consistent p : paired p → consistent p.
Proof.
  induction 1 as [|p _ IH|p h _ IH Hin].
  - by split.
  - by apply consistent_acquire.
  - by apply consistent_release.
Qed.

Lemma consistent_live p : consistent p → (size (live p) ≤ 1)%nat.
Proof.
  destruct p as [[[d rc] n] hs]. unfold consistent, live. simpl.
  intros [_ Hdb]. destruct d as [h|].
  - destruct Hdb as [_ Hall].
    assert (list_to_set hs ∪ {[h]} ⊆ ({[h]} : gset handle)) as Hsub.
    { intros x. rewrite elem_of_union, elem_of_list_to_set, elem_of_singleton.
      intros [Hx|Hx]; [|done]. rewrite Forall_forall in Hall. by apply Hall. }
    apply subseteq_size in Hsub. by rewrite size_singleton in Hsub.
  - subst hs. rewrite list_to_set_nil, union_empty_l_L, size_empty. lia.
Qed.

(** C1. [get_client] hands out the shared handle while there is one
    (counting the caller) and otherwise opens a client and leaves the
    count at one; [release_client] of the shared handle decrements
    the count and forgets the handle exactly when the count reaches
    zero; and in every paired execution the count is the number of
    outstanding acquisitions and at most one connection is in use. *)
Theorem get_release_pairing :
  (∀ h rc n,
     get_client (Manager (Instances (Some h) rc) n)
     = (Manager (Instances (Some h) (rc + 1)) n, h)) ∧
  (∀ rc n,
     get_client (Manager (Instances None rc) n)
     = (Manager (Instances (Some n) 1) (S n), n)) ∧
  (∀ h rc n,
     release_client (Some h) (Manager (Instances (Some h) rc) n)
     = Manager (Instances (if decide (rc - 1 = 0)%Z then None else Some h)
                          (rc - 1)) n) ∧
  (∀ p, paired p →
     ref_count (_instances (mgr p)) = Z.of_nat (length (held p)) ∧
     (db (_instances (mgr p)) = None ↔ ref_count (_instances (mgr p)) = 0%Z) ∧
     (∀ h, h ∈ held p → db (_instances (mgr p)) = Some h) ∧
     (size (live p) ≤ 1)%nat).
Proof.
  split; [done|]. split; [done|]. split.
  - intros h rc n. unfold release_client. simpl.
    rewrite decide_True by done. by destruct (decide _).
  - intros p Hp. pose proof (paired_consistent p Hp) as Hc.
    pose proof (consistent_live p Hc) as Hl.
    destruct Hc as [Hrc Hdb]. split; [done|]. split; [|split; [|done]].
    + rewrite Hrc. destruct (db _) as [h|].
      * destruct Hdb as [Hne _]. split; [done|]. intros H0.
        destruct (held p); [done|simpl in *; lia].
      * by rewrite Hdb.
    + intros h Hin. destruct (db _) as [h0|].
      * destruct Hdb as [_ Hall].
        rewrite Forall_forall in Hall. by rewrite (Hall h Hin).
      * rewrite Hdb in Hin. by apply elem_of_nil in Hin.
Qed.

(** Three stores initialise, two finalise: one connection, count 1. *)
Lemma get_release_pairing_witness :
  let p := release 0 (release 0 (acquire (acquire (acquire
             (Process initial []))))) in
  paired p ∧ ref_count (_instances (mgr p)) = 1%Z ∧ (size (live p) ≤ 1)%nat.
Proof.
  assert (paired (release 0 (release 0 (acquire (acquire (acquire
             (Process initial []))))))) as Hp.
  { apply paired_release; [apply paired_release|];
      [repeat apply paired_acquire; apply paired_start|..];
      vm_compute; repeat constructor. }
  split; [exact Hp|]. split; [reflexivity|].
  exact (proj2 (proj2 (proj2
           (proj2 (proj2 (proj2 get_release_pairing)) _ Hp)))).
Defined.

(** ** Storages calling [initialize] and [finalize] in any order *)

Lemma handles_insert_Some (l : list (option handle)) i h :
  l !! i = Some None → omap (λ s, s) (<[i := Some h]> l) ≡ₚ h :: omap (λ s, s) l.
Proof.
  revert i. induction l as [|s l IH]; intros [|i] Hi; simplify_eq/=; [done|].
  destruct s as [h'|]; simpl.
  - rewrite (IH i Hi). apply Permutation_swap.
  - by apply IH.
Qed.

Lemma handles_insert_None (l : list (option handle)) i h :
  l !! i = Some (Some h) →
  omap (λ s, s) l ≡ₚ h :: omap (λ s, s) (<[i := None]> l).
Proof.
  revert i. induction l as [|s l IH]; intros [|i] Hi; simplify_eq/=; [done|].
  destruct s as [h'|]; simpl.
  - rewrite (IH i Hi). apply Permutation_swap.
  - by apply IH.
Qed.

Lemma handles_insert_same (l : list (option handle)) i s :
  l !! i = Some s → <[i := s]> l = l.
Proof. apply list_insert_id. Qed.

Lemma run_call_consistent sys c :
  consistent (Process (shared sys) (handles_held sys)) →
  consistent (Process (shared (run_call sys c)) (handles_held (run_call sys c))).
Proof.
  destruct sys as [[[d rc] n] l]. unfold consistent, handles_held. simpl.
  intros [Hrc Hdb]. destruct c as [i|i]; simpl;
    destruct (l !! i) as [[h|]|] eqn:Hi; simpl; try done.
  - (* initialize, already initialised *)
    by rewrite list_insert_id.
  - (* initialize *)
    unfold get_client. simpl. destruct d as [h0|]; simpl.
    + pose proof (handles_insert_Some l i h0 Hi) as Hperm.
      pose proof (Permutation_length Hperm) as Hlen. simpl in Hlen.
      destruct Hdb as [_ Hall].
      assert (Forall (λ x, x = h0) (omap (λ s, s) (<[i := Some h0]> l)))
        as Hall' by (rewrite Hperm; by constructor).
      split; [lia|]. split; [|done]. intros Hnil. rewrite Hnil in Hlen. done.
    + pose proof (handles_insert_Some l i n Hi) as Hperm.
      pose proof (Permutation_length Hperm) as Hlen. simpl in Hlen.
      assert (Forall (λ x, x = n) (omap (λ s, s) (<[i := Some n]> l)))
        as Hall' by (rewrite Hperm, Hdb; by repeat constructor).
      rewrite Hdb in Hlen. simpl in Hlen.
      split; [lia|]. split; [|done]. intros Hnil. rewrite Hnil in Hlen. done.
  - (* finalize *)
    pose proof (handles_insert_None l i h Hi) as Hperm.
    pose proof (Permutation_length Hperm) as Hlen. simpl in Hlen.
    destruct d as [h0|]; [|rewrite Hdb in Hlen; done].
    destruct Hdb as [_ Hall].
    assert (Forall (λ x, x = h0) (h :: omap (λ s, s) (<[i := None]> l)))
      as Hall' by (by rewrite <-Hperm).
    apply Forall_cons in Hall' as [-> Hrest].
    unfold release_client. simpl. rewrite decide_True by done.
    destruct (decide (rc - 1 = 0)%Z) as [H0|H0]; simpl.
    + split; [lia|]. destruct (omap _ (<[i:=None]> l)); [done|simpl in *; lia].
    + split; [lia|]. split; [|done]. intros Hnil. rewrite Hnil in Hlen.
      simpl in *. lia.
  - (* finalize, not initialised *)
    by rewrite list_insert_id.
Qed.

Lemma run_calls_consistent calls sys :
  consistent (Process (shared sys) (handles_held sys)) →
  consistent (Process (shared (run_calls sys calls))
                      (handles_held (run_calls sys calls))).
Proof.
  revert sys. induction calls as [|c calls IH]; intros sys Hsys; [done|].
  apply IH. by apply run_call_consistent.
Qed.

Lemma handles_held_fresh n : handles_held (fresh_system n) = [].
Proof. unfold handles_held. simpl. induction n; [done|]. simpl. done. Qed.

(** X1. Whatever [initialize] and [finalize] calls the storages of a
    process make, in whatever order and however often, the reference
    count is the number of storages that hold a handle, each of them
    holds the shared handle, and the shared handle is dropped exactly
    when no storage holds one. *)
Theorem storages_keep_count n calls :
  let sys := run_calls (fresh_system n) calls in
  ref_count (_instances (shared sys)) = Z.of_nat (length (handles_held sys)) ∧
  (∀ h, h ∈ handles_held sys → db (_instances (shared sys)) = Some h) ∧
  (db (_instances (shared sys)) = None ↔ handles_held sys = []).
Proof.
  intros sys.
  assert (consistent (Process (shared sys) (handles_held sys))) as [Hrc Hdb].
  { apply run_calls_consistent. rewrite handles_held_fresh. by split. }
  simpl in *. split; [done|]. split.
  - intros h Hin. destruct (db _) as [h0|].
    + destruct Hdb as [_ Hall]. rewrite Forall_forall in Hall.
      by rewrite (Hall h Hin).
    + rewrite Hdb in Hin. by apply elem_of_nil in Hin.
  - destruct (db _) as [h0|]; [|done]. by destruct Hdb as [Hne _].
Qed.

(** Two storages: both open, then the first one closes; the second one
    holds the client that the manager still has. *)
Lemma storages_keep_count_witness :
  let sys := run_calls (fresh_system 2)
               [Initialize 0; Initialize 1; Finalize 0; Finalize 0] in
  db (_instances (shared sys)) = Some 0 ∧
  ref_count (_instances (shared sys)) = 1%Z.
Proof.
  intros sys.
  destruct (storages_keep_count 2
              [Initialize 0; Initialize 1; Finalize 0; Finalize 0])
    as (Hcount & Hheld & _).
  split.
  - apply (Hheld 0). left.
  - exact Hcount.
Defined.

(** A second [initialize] does not take another reference, and a
    second [finalize] does not release one. *)
Lemma initialize_finalize_guarded self_db m :
  (∀ h, initialize (Some h) m = (Some h, m)) ∧
  (let '(s1, m1) := finalize self_db m in finalize s1 m1 = (s1, m1)).
Proof.
  split; [done|]. by destruct self_db.
Qed.

End ClientManagerFacts.

(* ================================================================== *)
(** * Loops in the exception monad, and filters                        *)
(* ================================================================== *)

Module OutcomeFacts.

(** A property kept by the body of a loop is kept by the loop. *)
Lemma foldM_invariant {A B} (f : B → A → outcome B) (P : B → Prop) l b b' :
  (∀ b a b', f b a = Returns b' → P b → P b') →
  foldM f b l = Returns b' → P b → P b'.
Proof.
  intros Hf. revert b. induction l as [|a l IH]; intros b; simpl.
  - by intros [= <-].
  - destruct (f b a) as [b1|] eqn:Hb1; simpl; [|done].
    intros Hl Hb. eapply IH; [exact Hl|]. by eapply Hf.
Qed.

Lemma foldM_invariant_elem {A B} (f : B → A → outcome B) (P : B → Prop)
    l b b' :
  (∀ b a b', a ∈ l → f b a = Returns b' → P b → P b') →
  foldM f b l = Returns b' → P b → P b'.
Proof.
  revert b. induction l as [|a l IH]; intros b Hf; simpl.
  - by intros [= <-].
  - destruct (f b a) as [b1|] eqn:Hb1; simpl; [|done].
    intros Hl Hb. eapply IH; [|exact Hl|].
    + intros b2 a2 b2' Ha2. apply Hf. by right.
    + eapply Hf; [left|exact Hb1|exact Hb].
Qed.

(** A loop whose body records the key of its element in a growing set
    has recorded the keys of all elements at the end. *)
Lemma foldM_collects {A B K} `{Countable K} (f : B → A → outcome B)
    (seen : B → gset K) (key : A → K) l b b' :
  (∀ b a b', f b a = Returns b' → seen b ⊆ seen b' ∧ key a ∈ seen b') →
  foldM f b l = Returns b' →
  seen b ⊆ seen b' ∧ ∀ a, a ∈ l → key a ∈ seen b'.
Proof.
  intros Hf. revert b. induction l as [|a l IH]; intros b; simpl.
  - intros [= <-]. split; [done|]. by intros a ?%elem_of_nil.
  - destruct (f b a) as [b1|] eqn:Hb1; simpl; [|done].
    intros Hl. destruct (Hf _ _ _ Hb1) as [Hsub1 Ha1].
    destruct (IH _ Hl) as [Hsub Hall]. split.
    + intros x Hx. by apply Hsub, Hsub1.
    + intros a' [->|Ha']%elem_of_cons; [by apply Hsub|by apply Hall].
Qed.

(** A loop whose body returns on every element returns. *)
Lemma foldM_returns {A B} (f : B → A → outcome B) l b :
  (∀ b a, a ∈ l → ∃ b', f b a = Returns b') →
  ∃ b', foldM f b l = Returns b'.
Proof.
  revert b. induction l as [|a l IH]; intros b Hf; simpl; [by eexists|].
  destruct (Hf b a) as [b1 ->]; [left|]. simpl.
  apply IH. intros b2 a2 Ha2. apply Hf. by right.
Qed.

(** [mapM] in the exception monad: all elements succeed, in order. *)
Lemma mapM_Returns {A B} (f : A → outcome B) l rs :
  mapM f l = Returns rs ↔ Forall2 (λ x r, f x = Returns r) l rs.
Proof.
  revert rs. induction l as [|x l IH]; intros rs.
  - split.
    + intros [= <-]. constructor.
    + intros Hrs. inversion Hrs. reflexivity.
  - change (mapM f (x :: l))
      with (y ← f x; k ← mapM f l; Returns (y :: k)).
    destruct (f x) as [y|e] eqn:Hy.
    + destruct (mapM f l) as [k|e] eqn:Hk.
      * split.
        -- intros [= <-]. constructor; [done|]. by apply IH.
        -- intros Hrs. inversion Hrs as [|? r ? rs' Hr Hrs']; subst.
           apply IH in Hrs'. rewrite Hy in Hr. by simplify_eq.
      * split; [done|]. intros Hrs.
        inversion Hrs as [|? r ? rs' Hr Hrs']; subst.
        by apply IH in Hrs'.
    + split; [done|]. intros Hrs.
      inversion Hrs as [|? r ? rs' Hr Hrs']; subst. congruence.
Qed.

Lemma mapM_total {A B} (f : A → outcome B) l :
  (∀ x, x ∈ l → ∃ r, f x = Returns r) → ∃ rs, mapM f l = Returns rs.
Proof.
  induction l as [|x l IH]; intros Hf; simpl; [by eexists|].
  destruct (Hf x) as [r ->]; [left|]. simpl.
  destruct IH as [rs ->]; [intros y Hy; apply Hf; by right|]. by eexists.
Qed.

(** When every failure is the same exception and some element fails,
    the loop raises it. *)
Lemma mapM_Raises {A B} (f : A → outcome B) (e : exn) l :
  (∀ x e', x ∈ l → f x = Raises e' → e' = e) →
  (∃ x, x ∈ l ∧ f x = Raises e) →
  mapM f l = Raises e.
Proof.
  induction l as [|x l IH]; intros Hsame (y & Hy & Hfy).
  - by apply elem_of_nil in Hy.
  - change (mapM f (x :: l))
      with (z ← f x; k ← mapM f l; Returns (z :: k)).
    destruct (f x) as [z|e'] eqn:Hfx.
    + rewrite IH; [done| |].
      * intros x' e' Hx'. apply Hsame. by right.
      * apply elem_of_cons in Hy as [->|Hy]; [congruence|by exists y].
    + simpl. f_equal. eapply Hsame; [left|done].
Qed.

(** A body that returns on every element is a map. *)
Lemma mapM_pure {A B} (f : A → outcome B) (g : A → B) l :
  (∀ x, f x = Returns (g x)) → mapM f l = Returns (g <$> l).
Proof.
  intros Hf. induction l as [|x l IH]; [done|].
  change (mapM f (x :: l)) with (y ← f x; k ← mapM f l; Returns (y :: k)).
  by rewrite Hf, IH.
Qed.

End OutcomeFacts.

Module ListFacts.

Lemma filter_nil_not_Exists {A} (P : A → Prop) `{!∀ x, Decision (P x)} l :
  ¬ Exists P l → filter P l = [].
Proof.
  induction l as [|x l IH]; [done|]. intros Hn.
  destruct (decide (P x)) as [Hx|Hx].
  - destruct Hn. by left.
  - rewrite filter_cons_False by done. apply IH. intros Hl. apply Hn. by right.
Qed.

Section filters.
Context {A : Type} (P Q : A → Prop) `{!∀ x, Decision (P x), !∀ x, Decision (Q x)}.

Lemma filter_filter_length l :
  (length (filter P (filter Q l)) ≤ length (filter P l))%nat.
Proof.
  induction l as [|x l IH]; [done|].
  destruct (decide (Q x)); destruct (decide (P x));
    rewrite ?(filter_cons_True Q), ?(filter_cons_False Q) by done;
    rewrite ?(filter_cons_True P), ?(filter_cons_False P) by done;
    simpl; lia.
Qed.

Lemma filter_filter_not l : filter P (filter (λ x, ¬ P x) l) = [].
Proof.
  induction l as [|x l IH]; [done|].
  destruct (decide (P x)).
  - by rewrite (filter_cons_False (λ x, ¬ P x)) by tauto.
  - rewrite (filter_cons_True (λ x, ¬ P x)) by done.
    by rewrite filter_cons_False.
Qed.
End filters.


Lemma filter_fmap_length {A B} (g : A → B) (P : B → Prop) (R : A → Prop)
    `{!∀ y, Decision (P y), !∀ x, Decision (R x)} l :
  (∀ x, P (g x) ↔ R x) →
  length (filter P (g <$> l)) = length (filter R l).
Proof.
  intros HPR. induction l as [|x l IH]; [done|]. rewrite fmap_cons.
  destruct (decide (R x)) as [Hx|Hx].
  - rewrite !filter_cons_True; [|done|by apply HPR]. simpl. by rewrite IH.
  - rewrite !filter_cons_False; [done|done|by rewrite HPR].
Qed.

(** Elements with the same key under an injective-on-the-list key
    function: at most one passes a filter that fixes the key. *)
Lemma filter_same_key_length {A K} (key : A → K) (P : A → Prop)
    `{!∀ x, Decision (P x)} (k : K) (l : list A) :
  NoDup (key <$> l) → (∀ x, x ∈ l → P x → key x = k) →
  (length (filter P l) ≤ 1)%nat.
Proof.
  intros Hnd HP. induction l as [|x l IH]; [simpl; lia|].
  rewrite fmap_cons in Hnd. apply NoDup_cons in Hnd as [Hx Hnd].
  assert (∀ y, y ∈ l → P y → key y = k) as HP'.
  { intros y Hy. apply HP. by right. }
  destruct (decide (P x)) as [Hpx|Hpx].
  - rewrite filter_cons_True by done. simpl.
    assert (filter P l = []) as ->; [|simpl; lia].
    apply filter_nil_not_Exists. intros Hex.
    apply Exists_exists in Hex as (y & Hy & Hpy). apply Hx.
    rewrite (HP x (list_elem_of_here _ _) Hpx), <-(HP' y Hy Hpy).
    by apply list_elem_of_fmap_2.
  - rewrite filter_cons_False by done. by apply IH.
Qed.

Lemma filter_all {A} (P : A → Prop) `{!∀ x, Decision (P x)} l :
  Forall P l → filter P l = l.
Proof.
  induction 1 as [|x l Hx Hl IH]; [done|].
  rewrite filter_cons_True by done. by rewrite IH.
Qed.

End ListFacts.

(* ================================================================== *)
(** * Properties of the collection operations                          *)
(* ================================================================== *)

Module MongoFacts.
Section Collection.
Context {K D : Type} (has_id : K → D → Prop).
Context `{!∀ id d, Decision (has_id id d)}.

Local Abbreviation find_one := (Mongo.find_one has_id).
Local Abbreviation update_one := (Mongo.update_one has_id).
Local Abbreviation update_one_upsert := (Mongo.update_one_upsert has_id).

Lemma find_one_app id c c' :
  find_one id (c ++ c') =
  match find_one id c with Some d => Some d | None => find_one id c' end.
Proof.
  induction c as [|d c IH]; simpl; [by destruct (find_one id c')|].
  by destruct (decide (has_id id d)).
Qed.

Lemma find_one_Some id c d :
  find_one id c = Some d → d ∈ c ∧ has_id id d.
Proof.
  induction c as [|x c IH]; simpl; [done|].
  destruct (decide (has_id id x)) as [Hx|Hx].
  - intros [= ->]. split; [left|done].
  - intros Hf. destruct (IH Hf). split; [by right|done].
Qed.

Lemma find_one_None id c :
  find_one id c = None ↔ Forall (λ d, ¬ has_id id d) c.
Proof.
  induction c as [|x c IH]; simpl; [by split|].
  destruct (decide (has_id id x)) as [Hx|Hx].
  - split; [done|]. intros Hf. by inversion Hf.
  - rewrite IH. split; [by constructor|]. intros Hf. by inversion Hf.
Qed.

Lemma update_one_id id c : update_one id (λ d, d) c = c.
Proof.
  induction c as [|x c IH]; simpl; [done|].
  destruct (decide (has_id id x)); [done|by rewrite IH].
Qed.

Lemma update_one_absent id u c : find_one id c = None → update_one id u c = c.
Proof.
  induction c as [|x c IH]; simpl; [done|].
  destruct (decide (has_id id x)); [done|]. intros Hf. by rewrite IH.
Qed.

Lemma update_one_length id u c : length (update_one id u c) = length c.
Proof.
  induction c as [|x c IH]; simpl; [done|].
  destruct (decide (has_id id x)); simpl; [done|by rewrite IH].
Qed.

(** What [find_one] sees after an update that keeps the [_id]. *)
Lemma find_one_update_one_same id u c :
  (∀ d i, has_id i (u d) ↔ has_id i d) →
  find_one id (update_one id u c) = u <$> find_one id c.
Proof.
  intros Hu. induction c as [|x c IH]; simpl; [done|].
  destruct (decide (has_id id x)) as [Hx|Hx]; simpl.
  - by rewrite decide_True by (by apply Hu).
  - by rewrite decide_False.
Qed.

Lemma find_one_update_one_ne id id' u c :
  (∀ d i, has_id i (u d) ↔ has_id i d) →
  (∀ d, has_id id d → ¬ has_id id' d) →
  find_one id' (update_one id u c) = find_one id' c.
Proof.
  intros Hu Hne. induction c as [|x c IH]; simpl; [done|].
  destruct (decide (has_id id x)) as [Hx|Hx]; simpl.
  - rewrite !decide_False; [done|by apply Hne|].
    rewrite Hu. by apply Hne.
  - by rewrite IH.
Qed.
Lemma update_one_ext id u v c :
  (∀ d, u d = v d) → update_one id u c = update_one id v c.
Proof.
  intros Huv. induction c as [|x c IH]; simpl; [done|].
  destruct (decide (has_id id x)); [by rewrite Huv|by rewrite IH].
Qed.

Lemma update_one_twice id u v c :
  (∀ d i, has_id i (u d) ↔ has_id i d) →
  update_one id v (update_one id u c) = update_one id (v ∘ u) c.
Proof.
  intros Hu. induction c as [|x c IH]; simpl; [done|].
  destruct (decide (has_id id x)) as [Hx|Hx]; simpl.
  - by rewrite decide_True by (by apply Hu).
  - by rewrite decide_False, IH.
Qed.

Lemma update_one_app_absent id u c c' :
  find_one id c = None →
  update_one id u (c ++ c') = c ++ update_one id u c'.
Proof.
  induction c as [|x c IH]; simpl; [done|].
  destruct (decide (has_id id x)); [done|]. intros Hf. by rewrite IH.
Qed.

Lemma elem_of_update_one id u c d' :
  d' ∈ update_one id u c → d' ∈ c ∨ ∃ d, d ∈ c ∧ has_id id d ∧ d' = u d.
Proof.
  induction c as [|x c IH]; simpl; [by left|].
  destruct (decide (has_id id x)) as [Hx|Hx].
  - intros [->|Hin]%elem_of_cons.
    + right. exists x. split; [left|done].
    + left. by right.
  - intros [->|Hin]%elem_of_cons; [left; left|].
    destruct (IH Hin) as [Hc|(d & Hd & Hid & ->)]; [left; by right|].
    right. exists d. split; [by right|done].
Qed.

Lemma filter_has_id_update_one id i u c :
  (∀ d j, has_id j (u d) ↔ has_id j d) →
  length (filter (has_id i) (update_one id u c))
  = length (filter (has_id i) c).
Proof.
  intros Hu. induction c as [|x c IH]; simpl; [done|].
  destruct (decide (has_id id x)) as [Hx|Hx].
  - destruct (decide (has_id i x)) as [Hi|Hi].
    + rewrite !filter_cons_True; [done|done|by apply Hu].
    + rewrite !filter_cons_False; [done|done|by rewrite Hu].
  - destruct (decide (has_id i x)) as [Hi|Hi].
    + rewrite !filter_cons_True by done. simpl. by rewrite IH.
    + by rewrite !filter_cons_False.
Qed.

Lemma find_one_None_filter id c :
  find_one id c = None → filter (has_id id) c = [].
Proof.
  induction c as [|x c IH]; simpl; [done|].
  destruct (decide (has_id id x)); [done|]. intros Hf.
  rewrite filter_cons_False by done. by apply IH.
Qed.

Lemma find_one_Some_filter id c d :
  find_one id c = Some d → (1 ≤ length (filter (has_id id) c))%nat.
Proof.
  induction c as [|x c IH]; simpl; [done|].
  destruct (decide (has_id id x)).
  - intros _. rewrite filter_cons_True by done. simpl. lia.
  - intros Hf. rewrite filter_cons_False by done. by apply IH.
Qed.
(** ** Updates that keep the [_id] of the documents they apply to *)

Lemma find_one_update_one_hit id u c :
  (∀ d, has_id id d → has_id id (u d)) →
  find_one id (update_one id u c) = u <$> find_one id c.
Proof.
  intros Hu. induction c as [|x c IH]; simpl; [done|].
  destruct (decide (has_id id x)) as [Hx|Hx]; simpl.
  - by rewrite decide_True by (by apply Hu).
  - by rewrite decide_False.
Qed.

Lemma find_one_update_one_miss id id' u c :
  (∀ d, has_id id d → ¬ has_id id' d ∧ ¬ has_id id' (u d)) →
  find_one id' (update_one id u c) = find_one id' c.
Proof.
  intros Hne. induction c as [|x c IH]; simpl; [done|].
  destruct (decide (has_id id x)) as [Hx|Hx]; simpl.
  - destruct (Hne x Hx). by rewrite !decide_False.
  - by rewrite IH.
Qed.

(** ** Filters *)

Lemma find_one_filter_keep id (P : D → Prop) `{!∀ d, Decision (P d)} c :
  (∀ d, has_id id d → P d) →
  find_one id (filter P c) = find_one id c.
Proof.
  intros HP. induction c as [|x c IH]; [done|]. simpl.
  destruct (decide (has_id id x)) as [Hx|Hx].
  - rewrite filter_cons_True by (by apply HP). simpl. by rewrite decide_True.
  - destruct (decide (P x)).
    + rewrite filter_cons_True by done. simpl. by rewrite decide_False.
    + by rewrite filter_cons_False.
Qed.

Lemma find_one_filter_drop id (P : D → Prop) `{!∀ d, Decision (P d)} c :
  (∀ d, has_id id d → ¬ P d) →
  find_one id (filter P c) = None.
Proof.
  intros HP. apply find_one_None, Forall_forall.
  intros d [Hd _]%list_elem_of_filter Hid. by apply (HP d).
Qed.

Lemma find_one_is_Some id c :
  is_Some (find_one id c) ↔ ∃ d, d ∈ c ∧ has_id id d.
Proof.
  split.
  - intros [d Hd]. exists d. by apply find_one_Some.
  - intros (d & Hd & Hid). destruct (find_one id c) eqn:Hf; [by eexists|].
    apply find_one_None in Hf. rewrite Forall_forall in Hf.
    by destruct (Hf d Hd).
Qed.
Lemma head_filter_find_one id c :
  head (filter (has_id id) c) = find_one id c.
Proof.
  induction c as [|x c IH]; [done|]. simpl.
  destruct (decide (has_id id x)).
  - by rewrite filter_cons_True.
  - by rewrite filter_cons_False.
Qed.

(** An update moves at most one document in or out of a filter. *)
Lemma filter_update_one_length id u (P : D → Prop) `{!∀ d, Decision (P d)}
    c d :
  find_one id c = Some d →
  length (filter P (update_one id u c)) + (if decide (P d) then 1 else 0)
  = length (filter P c) + (if decide (P (u d)) then 1 else 0).
Proof.
  induction c as [|x c IH]; simpl; [done|].
  destruct (decide (has_id id x)) as [Hx|Hx].
  - intros [= ->].
    destruct (decide (P d)) as [Hd|Hd]; destruct (decide (P (u d))) as [Hu|Hu].
    + rewrite !filter_cons_True by done. simpl. lia.
    + rewrite (filter_cons_False _ (u d)), (filter_cons_True _ d) by done.
      simpl. lia.
    + rewrite (filter_cons_True _ (u d)), (filter_cons_False _ d) by done.
      simpl. lia.
    + rewrite !filter_cons_False by done. lia.
  - intros Hd. specialize (IH Hd).
    destruct (decide (P x)) as [HP|HP].
    + rewrite !(filter_cons_True _ x) by done. simpl. lia.
    + rewrite !(filter_cons_False _ x) by done. lia.
Qed.

End Collection.
End MongoFacts.

(* ================================================================== *)
(** * Properties of MongoKVStorage                                     *)
(* ================================================================== *)

Module MongoKVStorageFacts.
Import MongoKVStorage.

(** A cache write finds its id taken: nothing changes. *)
Lemma cache_task_existing mode k v c :
  is_Some (get_by_id c (mode +:+ "_" +:+ k)) → cache_task mode k v c = c.
Proof.
  intros [d Hd]. unfold cache_task, Mongo.update_one_upsert.
  unfold get_by_id, find_one in Hd. rewrite Hd.
  apply MongoFacts.update_one_id.
Qed.

(** A cache write finds its id free: the record goes in under the
    composite id. *)
Lemma cache_task_fresh mode k v c :
  get_by_id c (mode +:+ "_" +:+ k) = None →
  cache_task mode k v c = c ++ [<["_id" := VStr (mode +:+ "_" +:+ k)]> v].
Proof.
  intros Hd. unfold cache_task, Mongo.update_one_upsert.
  unfold get_by_id, find_one in Hd. by rewrite Hd.
Qed.

Lemma cache_task_keeps mode k v c id d :
  get_by_id c id = Some d → get_by_id (cache_task mode k v c) id = Some d.
Proof.
  intros Hd. destruct (get_by_id c (mode +:+ "_" +:+ k)) as [d'|] eqn:Hk.
  - by rewrite cache_task_existing.
  - rewrite cache_task_fresh by done. unfold get_by_id, find_one in *.
    by rewrite MongoFacts.find_one_app, Hd.
Qed.

Lemma cache_task_stored mode k v c :
  is_Some (get_by_id (cache_task mode k v c) (mode +:+ "_" +:+ k)).
Proof.
  destruct (get_by_id c (mode +:+ "_" +:+ k)) as [d'|] eqn:Hk.
  - rewrite cache_task_existing; by rewrite Hk.
  - rewrite cache_task_fresh by done. unfold get_by_id, find_one in *.
    rewrite MongoFacts.find_one_app, Hk. simpl.
    rewrite decide_True; [done|]. unfold record_has_id.
    by rewrite lookup_insert_eq.
Qed.

Lemma cache_tasks_are_writes data : Forall cache_write (cache_tasks data).
Proof.
  unfold cache_tasks. apply Forall_forall. intros t Ht.
  apply list_elem_of_bind in Ht as ([mode items] & Ht & _).
  apply list_elem_of_bind in Ht as ([k v] & Ht & _).
  apply list_elem_of_singleton in Ht as ->. constructor.
Qed.

(** In whatever order cache writes are carried out, a stored record
    stays as it is. *)
Lemma run_cache_writes_keep tasks c id d :
  Forall cache_write tasks →
  get_by_id c id = Some d → get_by_id (run_tasks tasks c) id = Some d.
Proof.
  intros Hall. revert c. induction Hall as [|t tasks Ht _ IH]; intros c Hd.
  - done.
  - unfold run_tasks. simpl. apply IH. destruct Ht. by apply cache_task_keeps.
Qed.

Lemma upsert_cache_unfold data c :
  upsert true data c = run_tasks (cache_tasks data) c.
Proof. by destruct data. Qed.

(** C8. In the response-cache namespace a record is written under
    the id [mode + "_" + key], and only when no document has that id:
    a record that is stored is returned unchanged after any later
    [upsert], in particular after one that offers another value for
    its id. *)
Theorem cache_upsert_first_writer_wins :
  (∀ (data : data_of true) c id d,
     get_by_id c id = Some d → get_by_id (upsert true data c) id = Some d) ∧
  (∀ c mode k v,
     get_by_id c (mode +:+ "_" +:+ k) = None →
     upsert true [(mode, [(k, v)])] c
     = c ++ [<["_id" := VStr (mode +:+ "_" +:+ k)]> v]) ∧
  (∀ c mode k v1 v2,
     upsert true [(mode, [(k, v2)])] (upsert true [(mode, [(k, v1)])] c)
     = upsert true [(mode, [(k, v1)])] c).
Proof.
  split; [|split].
  - intros data c id d Hd. rewrite upsert_cache_unfold.
    apply run_cache_writes_keep; [apply cache_tasks_are_writes|done].
  - intros c mode k v Hk. simpl. unfold run_tasks. simpl.
    by apply cache_task_fresh.
  - intros c mode k v1 v2. simpl. unfold run_tasks. simpl.
    apply cache_task_existing, cache_task_stored.
Qed.

(** An entry cached under [("default", "q1")] survives an [upsert]
    that offers another answer for it. *)
Lemma cache_upsert_first_writer_wins_witness :
  let c := [ {[ "_id" := VStr "default_q1"; "return" := VStr "first" ]} ] in
  let data := [("default", [("q1", {[ "return" := VStr "second" ]} : record)])] in
  get_by_id (upsert true data c) "default_q1"
  = Some {[ "_id" := VStr "default_q1"; "return" := VStr "first" ]}.
Proof.
  intros c data.
  apply (proj1 cache_upsert_first_writer_wins data c).
  reflexivity.
Defined.

(** ** Reads, plain writes and deletions *)

Lemma record_has_id_inj k k' d : record_has_id k d → record_has_id k' d → k = k'.
Proof. unfold record_has_id. congruence. Qed.

(** X2. [filter_keys] returns exactly the requested keys that have no
    document. *)
Theorem filter_keys_not_stored c keys k :
  k ∈ filter_keys c keys ↔ k ∈ keys ∧ get_by_id c k = None.
Proof.
  unfold filter_keys, find_in, get_by_id, find_one.
  rewrite elem_of_difference, elem_of_list_to_set, list_elem_of_omap.
  split.
  - intros [Hk Hnone]. split; [done|].
    apply MongoFacts.find_one_None, Forall_forall. intros d Hd Hid.
    apply Hnone. exists d. split; [|unfold str_id; by rewrite Hid].
    apply list_elem_of_filter. split; [|done].
    apply Exists_exists. exists k. split; [|done]. by apply elem_of_elements.
  - intros [Hk Hnone]. split; [done|].
    intros (d & [_ Hd]%list_elem_of_filter & Hstr).
    apply MongoFacts.find_one_None in Hnone. rewrite Forall_forall in Hnone.
    apply (Hnone d Hd). unfold str_id in Hstr. unfold record_has_id.
    destruct (d !! "_id") as [[]|]; by simplify_eq.
Qed.

Lemma plain_task_same k v c :
  get_by_id (plain_task k v c) k
  = Some (<["_id" := VStr k]> v ∪ default ∅ (get_by_id c k)).
Proof.
  unfold plain_task, Mongo.update_one_upsert, get_by_id, find_one.
  destruct (Mongo.find_one record_has_id k c) as [d|] eqn:Hd; simpl.
  - rewrite MongoFacts.find_one_update_one_hit, Hd; [done|].
    intros d' _. unfold record_has_id, op_set.
    apply lookup_union_Some_l, lookup_insert_eq.
  - rewrite MongoFacts.find_one_app, Hd. simpl.
    rewrite decide_True by apply lookup_insert_eq.
    by rewrite (right_id_L ∅ (∪)).
Qed.

Lemma plain_task_other k v c k' :
  k ≠ k' → get_by_id (plain_task k v c) k' = get_by_id c k'.
Proof.
  intros Hne. unfold plain_task, Mongo.update_one_upsert, get_by_id, find_one.
  destruct (Mongo.find_one record_has_id k c) as [d|] eqn:Hd.
  - apply MongoFacts.find_one_update_one_miss. intros d' Hd'. split.
    + intros Hd''. by destruct Hne; eapply record_has_id_inj.
    + unfold record_has_id, op_set.
      rewrite (lookup_union_Some_l _ _ _ (VStr k)) by apply lookup_insert_eq.
      congruence.
  - rewrite MongoFacts.find_one_app.
    destruct (Mongo.find_one record_has_id k' c); [done|]. simpl.
    rewrite decide_False; [done|]. unfold record_has_id.
    rewrite lookup_insert_eq. congruence.
Qed.

Lemma run_plain_tasks_other data c k' :
  k' ∉ data.*1 →
  get_by_id (run_tasks (plain_tasks data) c) k' = get_by_id c k'.
Proof.
  revert c. induction data as [|[k v] data IH]; intros c Hk'; [done|].
  apply not_elem_of_cons in Hk' as [Hne Hk'].
  change (run_tasks (plain_tasks ((k, v) :: data)) c)
    with (run_tasks (plain_tasks data) (plain_task k v c)).
  rewrite IH by done. by apply plain_task_other.
Qed.

(** X3. Outside the response cache, [upsert] merges: after it the
    record of each key of [data] (the keys of a dictionary are
    distinct) has the given fields, the key as [_id], and the fields the
    stored record had that the new one does not name; the records of
    other keys are as before. *)
Theorem plain_upsert_merges (data : list (string * record)) c :
  NoDup data.*1 →
  (∀ k v, (k, v) ∈ data →
     get_by_id (upsert false data c) k
     = Some (<["_id" := VStr k]> v ∪ default ∅ (get_by_id c k))) ∧
  (∀ k, k ∉ data.*1 → get_by_id (upsert false data c) k = get_by_id c k).
Proof.
  intros Hnd.
  assert (upsert false data c = run_tasks (plain_tasks data) c) as ->
    by (by destruct data).
  split; [|intros k Hk; by apply run_plain_tasks_other].
  revert c. induction data as [|[k0 v0] data IH]; intros c k v Hin.
  { by apply elem_of_nil in Hin. }
  apply NoDup_cons in Hnd as [Hk0 Hnd].
  change (run_tasks (plain_tasks ((k0, v0) :: data)) c)
    with (run_tasks (plain_tasks data) (plain_task k0 v0 c)).
  apply elem_of_cons in Hin as [[= -> ->]|Hin].
  - rewrite run_plain_tasks_other by done. apply plain_task_same.
  - rewrite (IH Hnd _ k v Hin). rewrite plain_task_other; [done|].
    intros ->. apply Hk0. apply list_elem_of_fmap. by exists (k, v).
Qed.

Lemma plain_upsert_merges_witness :
  let c : collection :=
    [ {[ "_id" := VStr "d1"; "title" := VStr "old"; "pages" := VInt 3 ]} ] in
  let data : list (string * record) :=
    [ ("d1", {[ "title" := VStr "new" ]}); ("d2", {[ "title" := VStr "b" ]}) ] in
  get_by_id (upsert false data c) "d1"
  = Some {[ "_id" := VStr "d1"; "title" := VStr "new"; "pages" := VInt 3 ]}.
Proof.
  intros c data.
  assert (NoDup data.*1) as Hnd.
  { unfold data. simpl. apply NoDup_cons. split; [|apply NoDup_singleton].
    intros Hin. by apply list_elem_of_singleton in Hin. }
  rewrite (proj1 (plain_upsert_merges data c Hnd) "d1" {[ "title" := VStr "new" ]})
    by left.
  reflexivity.
Defined.

(** X4. [get_by_mode_and_id] reads what the cache [upsert] wrote under
    [mode + "_" + id], as the dictionary [{id: record}]: the record that
    was there first if there was one, the new one otherwise.  Outside
    the cache namespace it returns [None]. *)
Theorem cache_round_trip c mode k v :
  get_by_mode_and_id true (upsert true [(mode, [(k, v)])] c) mode k
  = Some {[ k := match get_by_id c (mode +:+ "_" +:+ k) with
                 | Some d => d
                 | None => <["_id" := VStr (mode +:+ "_" +:+ k)]> v
                 end ]} ∧
  get_by_mode_and_id false (upsert true [(mode, [(k, v)])] c) mode k = None.
Proof.
  split; [|done]. unfold get_by_mode_and_id.
  assert (upsert true [(mode, [(k, v)])] c = cache_task mode k v c) as -> by done.
  assert (∀ d : record, d !! "_id" = Some (VStr (mode +:+ "_" +:+ k)) → d ≠ ∅)
    as Hne by (intros d Hd ->; by rewrite lookup_empty in Hd).
  destruct (get_by_id c (mode +:+ "_" +:+ k)) as [d|] eqn:Hd.
  - rewrite cache_task_existing by (by rewrite Hd). unfold get_by_id in Hd.
    rewrite Hd. apply MongoFacts.find_one_Some in Hd as [_ Hd].
    by rewrite decide_False by (by apply Hne).
  - rewrite cache_task_fresh by done. unfold get_by_id, find_one in *.
    rewrite MongoFacts.find_one_app, Hd. simpl.
    rewrite decide_True by apply lookup_insert_eq.
    rewrite decide_False; [done|]. apply Hne, lookup_insert_eq.
Qed.

Lemma delete_many_lookup ids c k :
  get_by_id (Mongo.delete_many record_has_id ids c) k
  = if decide (k ∈ ids) then None else get_by_id c k.
Proof.
  unfold Mongo.delete_many, get_by_id, find_one. destruct (decide (k ∈ ids)).
  - apply MongoFacts.find_one_filter_drop. intros d Hd Hnot. apply Hnot.
    apply Exists_exists. by exists k.
  - apply MongoFacts.find_one_filter_keep. intros d Hd Hex.
    apply Exists_exists in Hex as (k' & Hk' & Hd').
    by rewrite (record_has_id_inj _ _ _ Hd Hd') in *.
Qed.

(** X5. After [delete], the ids of the list have no record and every
    other id has the record it had; ids without a record, and the empty
    list, change nothing else. *)
Theorem delete_removes_listed c ids k :
  get_by_id (delete_ids c ids) k
  = if decide (k ∈ ids) then None else get_by_id c k.
Proof.
  unfold delete_ids. destruct ids as [|i ids].
  - rewrite decide_False; [done|]. apply not_elem_of_nil.
  - apply delete_many_lookup.
Qed.

End MongoKVStorageFacts.

(* ================================================================== *)
(** * Properties of MongoGraphStorage: degrees                         *)
(* ================================================================== *)

Module MongoGraphStorageFacts.
Import MongoGraphStorage OutcomeFacts ListFacts.

(** Documents dropped by the [$match] stage contribute no edge. *)
Lemma matched_counts_sum c node_id :
  sum_list ((λ d, length (filter (targets node_id) (get_edges d))) <$>
            match_edges_target node_id c)
  = inbound_edges_count c node_id.
Proof.
  unfold match_edges_target, inbound_edges_count.
  induction c as [|d c IH]; [done|].
  destruct (decide (Exists (targets node_id) (get_edges d))) as [Hd|Hd].
  - rewrite filter_cons_True by done. csimpl. by rewrite IH.
  - rewrite filter_cons_False by done. csimpl.
    rewrite IH. by rewrite (filter_nil_not_Exists _ _ Hd).
Qed.

Lemma group_totalInbound_head counts :
  match group_totalInbound counts with
  | totalInbound :: _ => totalInbound
  | [] => 0
  end = sum_list counts.
Proof. by destruct counts. Qed.

(** The count of a document under the condition of a literal. *)
Lemma matchingEdgesCount_literal node_id d :
  matchingEdgesCount (λ _ e, Returns (bool_decide (targets node_id e))) d
  = Returns (length (filter (targets node_id) (get_edges d))).
Proof.
  unfold matchingEdgesCount.
  rewrite (mapM_pure _ (λ e, bool_decide (targets node_id e))) by done.
  simpl. f_equal. apply filter_fmap_length.
  intros e. apply bool_decide_eq_true.
Qed.

Section Server.
Variable server_operand : string → outcome condition.

Lemma eq_edge_target_literal node_id :
  after_dollar node_id = None →
  eq_edge_target server_operand node_id
  = Returns (λ _ e, Returns (bool_decide (targets node_id e))).
Proof. intros Hlit. unfold eq_edge_target. by rewrite Hlit. Qed.

(** C3. The claim holds of the ids that the code reads as they are, but
    not of every stored id: [node_id] is passed as an operand of [$eq],
    where a string that starts with [$] is a field path.  With the
    nodes A and [$AAPL] stored and the one edge A→[$AAPL], the outbound
    count of [$AAPL] is 0 and one stored edge has it as target, so the
    degree the claim (and the docstring of the method) gives is 1; the
    [$match] stage finds the document of A, the condition compares the
    target with the field [AAPL] of that document, which it does not
    have, and [node_degree] returns 0. *)
Theorem node_degree_dollar_id :
  let c := [ NodeDoc "A" ∅ (Some [ {[ "target" := "$AAPL" ]} ]);
             NodeDoc "$AAPL" ∅ (Some []) ] in
  find_one "$AAPL" c = Some (NodeDoc "$AAPL" ∅ (Some [])) ∧
  length (get_edges (NodeDoc "$AAPL" ∅ (Some [])))
  + inbound_edges_count c "$AAPL" = 1 ∧
  match_edges_target "$AAPL" c
  = [ NodeDoc "A" ∅ (Some [ {[ "target" := "$AAPL" ]} ]) ] ∧
  node_degree server_operand c "$AAPL" = Returns 0.
Proof. intros c. by repeat split. Qed.

(** X24. For a stored node whose id does not start with [$],
    [node_degree] returns the length of its own edge list plus the
    number of edges, over all documents of the collection, whose target
    is the node. *)
Theorem node_degree_outbound_plus_inbound c node_id doc :
  after_dollar node_id = None →
  find_one node_id c = Some doc →
  node_degree server_operand c node_id
  = Returns (length (get_edges doc) + inbound_edges_count c node_id).
Proof.
  intros Hlit Hdoc. unfold node_degree.
  rewrite Hdoc, (eq_edge_target_literal _ Hlit). simpl.
  rewrite (mapM_pure _
             (λ d, length (filter (targets node_id) (get_edges d))))
    by apply matchingEdgesCount_literal.
  simpl. by rewrite group_totalInbound_head, matched_counts_sum.
Qed.

(** C10. For an id without a document, [node_degree] is 0, whatever
    edges point to it. *)
Theorem node_degree_missing c node_id :
  find_one node_id c = None →
  node_degree server_operand c node_id = Returns 0.
Proof. intros Hdoc. unfold node_degree. by rewrite Hdoc. Qed.

End Server.

(** The graph A→B, A→C, D→B with its four nodes stored. *)
Lemma node_degree_outbound_plus_inbound_witness :
  let edge_to t : edge := {[ "target" := t ]} in
  let c := [ NodeDoc "A" ∅ (Some [edge_to "B"; edge_to "C"]);
             NodeDoc "B" ∅ (Some []);
             NodeDoc "C" ∅ (Some []);
             NodeDoc "D" ∅ (Some [edge_to "B"]) ] in
  node_degree (λ _, Raises OperationFailure) c "B" = Returns (0 + 2) ∧
  node_degree (λ _, Raises OperationFailure) c "A" = Returns (2 + 0).
Proof.
  intros edge_to c. split.
  - exact (node_degree_outbound_plus_inbound _ c "B" (NodeDoc "B" ∅ (Some []))
             eq_refl eq_refl).
  - exact (node_degree_outbound_plus_inbound _ c "A"
             (NodeDoc "A" ∅ (Some [edge_to "B"; edge_to "C"]))
             eq_refl eq_refl).
Defined.

(** A→X with X not stored: one edge points to X, its degree is 0. *)
Lemma node_degree_missing_witness :
  let c := [ NodeDoc "A" ∅ (Some [ {[ "target" := "X" ]} ]) ] in
  inbound_edges_count c "X" = 1 ∧
  node_degree (λ _, Raises OperationFailure) c "X" = Returns 0.
Proof.
  intros c. split; [reflexivity|].
  exact (node_degree_missing _ c "X" eq_refl).
Defined.


(* ================================================================== *)
(** * Properties of MongoGraphStorage: upserts                         *)
(* ================================================================== *)

Lemma op_set_fields_id nd d i : node_has_id i (op_set_fields nd d) ↔ node_has_id i d.
Proof. done. Qed.
Lemma op_pull_id t d i : node_has_id i (op_pull t d) ↔ node_has_id i d.
Proof. done. Qed.
Lemma op_pull_in_id ts d i : node_has_id i (op_pull_in ts d) ↔ node_has_id i d.
Proof. done. Qed.
Lemma op_push_id e d i : node_has_id i (op_push e d) ↔ node_has_id i d.
Proof. done. Qed.

Lemma node_has_id_ne i j d : i ≠ j → node_has_id i d → ¬ node_has_id j d.
Proof. unfold node_has_id. congruence. Qed.

Lemma op_set_fields_twice nd d :
  op_set_fields nd (op_set_fields nd d) = op_set_fields nd d.
Proof.
  unfold op_set_fields. simpl. f_equal.
  by rewrite (assoc_L (∪)), (idemp_L (∪)).
Qed.

Lemma upsert_node_returns c node_id node_data :
  node_attributes node_id node_data →
  upsert_node c node_id node_data
  = Returns (Mongo.update_one_upsert node_has_id node_id
               (op_set_fields node_data)
               (NodeDoc node_id (delete "_id" node_data) (Some [])) c).
Proof.
  intros [He Hi]. unfold upsert_node.
  rewrite decide_False by (rewrite He; by intros [? ?]).
  by rewrite decide_True.
Qed.

(** [upsert_node] leaves every edge list as it is, also when the
    server rejects the attributes. *)
Lemma upsert_node_keeps_edges c c' node_id node_data i d :
  upsert_node c node_id node_data = Returns c' →
  find_one i c = Some d →
  ∃ d', find_one i c' = Some d' ∧ edges d' = edges d.
Proof.
  unfold upsert_node. repeat case_decide; try done. intros [= <-] Hd.
  unfold Mongo.update_one_upsert.
  destruct (Mongo.find_one node_has_id node_id c) as [d0|] eqn:Hold.
  - destruct (decide (node_id = i)) as [->|Hne].
    + exists (op_set_fields node_data d). split; [|done]. unfold find_one.
      rewrite MongoFacts.find_one_update_one_same by apply op_set_fields_id.
      unfold find_one in Hd. by rewrite Hd.
    + exists d. split; [|done]. unfold find_one.
      rewrite MongoFacts.find_one_update_one_ne;
        [done|apply op_set_fields_id|intros ?; by apply node_has_id_ne].
  - exists d. split; [|done]. unfold find_one in *.
    by rewrite MongoFacts.find_one_app, Hd.
Qed.

(** C9. With attributes that do not name the reserved fields,
    [upsert_node] merges them into the node's document, gives a new
    document the empty edge list and an existing one the edge list it
    had; a second call with the same attributes changes nothing; the
    other documents keep their edge lists; and the node has one
    document. *)
Theorem upsert_node_merge_set_idempotent c node_id node_data :
  node_attributes node_id node_data →
  ∃ c1,
    upsert_node c node_id node_data = Returns c1 ∧
    upsert_node c1 node_id node_data = Returns c1 ∧
    find_one node_id c1
    = Some (NodeDoc node_id
              (delete "_id" node_data ∪
               default ∅ (fields <$> find_one node_id c))
              (match find_one node_id c with
               | Some d => edges d
               | None => Some []
               end)) ∧
    (∀ d k v, find_one node_id c1 = Some d → k ≠ "_id" →
              node_data !! k = Some v → fields d !! k = Some v) ∧
    (∀ i d, find_one i c = Some d →
            ∃ d', find_one i c1 = Some d' ∧ edges d' = edges d) ∧
    ((length (filter (node_has_id node_id) c) ≤ 1)%nat →
     length (filter (node_has_id node_id) c1) = 1).
Proof.
  intros Hattr. eexists. split; [by apply upsert_node_returns|].
  assert (find_one node_id
            (Mongo.update_one_upsert node_has_id node_id
               (op_set_fields node_data)
               (NodeDoc node_id (delete "_id" node_data) (Some [])) c)
          = Some (NodeDoc node_id
              (delete "_id" node_data ∪
               default ∅ (fields <$> find_one node_id c))
              (match find_one node_id c with
               | Some d => edges d
               | None => Some []
               end))) as Hfound.
  { unfold Mongo.update_one_upsert, find_one.
    destruct (Mongo.find_one node_has_id node_id c) as [d0|] eqn:Hold.
    - rewrite MongoFacts.find_one_update_one_same by apply op_set_fields_id.
      rewrite Hold. simpl. apply MongoFacts.find_one_Some in Hold as [_ <-]. done.
    - rewrite MongoFacts.find_one_app, Hold. simpl.
      rewrite decide_True by done. by rewrite (right_id_L ∅ (∪)). }
  split; [|split; [exact Hfound|split; [|split]]].
  - rewrite upsert_node_returns by done. f_equal.
    unfold Mongo.update_one_upsert at 1. unfold find_one in Hfound.
    rewrite Hfound. unfold Mongo.update_one_upsert.
    destruct (Mongo.find_one node_has_id node_id c) as [d0|] eqn:Hold.
    + rewrite MongoFacts.update_one_twice by apply op_set_fields_id.
      apply MongoFacts.update_one_ext. intros d. apply op_set_fields_twice.
    + rewrite MongoFacts.update_one_app_absent by done. simpl.
      rewrite decide_True by done. f_equal. unfold op_set_fields. simpl.
      by rewrite (idemp_L (∪)).
  - intros d k v Hd Hk Hv. rewrite Hfound in Hd. injection Hd as <-. simpl.
    apply lookup_union_Some_l. by rewrite lookup_delete_ne.
  - intros i d Hd. eapply upsert_node_keeps_edges; [|exact Hd].
    by apply upsert_node_returns.
  - intros Hle. unfold Mongo.update_one_upsert.
    destruct (Mongo.find_one node_has_id node_id c) as [d0|] eqn:Hold.
    + rewrite MongoFacts.filter_has_id_update_one by apply op_set_fields_id.
      apply MongoFacts.find_one_Some_filter in Hold. lia.
    + rewrite filter_app, (MongoFacts.find_one_None_filter _ _ _ Hold).
      by rewrite filter_cons_True.
Qed.

(** A node with an edge is upserted with new attributes. *)
Lemma upsert_node_merge_set_idempotent_witness :
  let c := [ NodeDoc "A" {[ "kind" := "person" ]}
                     (Some [ {[ "target" := "B" ]} ]) ] in
  let node_data : gmap string string := {[ "kind" := "place"; "note" := "x" ]} in
  ∃ c1,
    upsert_node c "A" node_data = Returns c1 ∧
    upsert_node c1 "A" node_data = Returns c1 ∧
    find_one "A" c1
    = Some (NodeDoc "A" {[ "kind" := "place"; "note" := "x" ]}
                    (Some [ {[ "target" := "B" ]} ])).
Proof.
  intros c node_data.
  destruct (upsert_node_merge_set_idempotent c "A" node_data)
    as (c1 & H1 & H2 & H3 & _).
  { split; [reflexivity|left; reflexivity]. }
  exists c1. split; [exact H1|]. split; [exact H2|].
  rewrite H3. reflexivity.
Defined.


(** ** [upsert_edge] *)

Lemma put_edge_id tgt e d i : node_has_id i (put_edge tgt e d) ↔ node_has_id i d.
Proof. done. Qed.

Lemma put_edge_steps tgt e d :
  op_push e (op_pull tgt (op_set_fields ∅ d)) = put_edge tgt e d.
Proof.
  destruct d as [i f es]. unfold op_push, op_pull, op_set_fields, put_edge.
  simpl. f_equal.
  - by rewrite delete_empty, (left_id_L ∅ (∪)).
  - by destruct es.
Qed.

(** The three updates of [upsert_edge] as one update of the source. *)
Lemma upsert_edge_returns c src tgt edge_data :
  upsert_edge c src tgt edge_data
  = Returns (Mongo.update_one_upsert node_has_id src
               (put_edge tgt (new_edge tgt edge_data))
               (NodeDoc src ∅ (Some [new_edge tgt edge_data])) c).
Proof.
  unfold upsert_edge. rewrite upsert_node_returns by (split; [done|by left]).
  simpl. f_equal. unfold Mongo.update_one_upsert.
  destruct (Mongo.find_one node_has_id src c) as [d0|] eqn:Hold.
  - rewrite !MongoFacts.update_one_twice;
      [|intros; apply op_set_fields_id|intros; apply op_pull_id].
    apply MongoFacts.update_one_ext. intros d. apply put_edge_steps.
  - rewrite !MongoFacts.update_one_app_absent by done. simpl.
    rewrite !decide_True by done. simpl. rewrite decide_True by done.
    by rewrite delete_empty.
Qed.

Lemma new_edge_targets tgt edge_data :
  edge_data !! "target" = None → targets tgt (new_edge tgt edge_data).
Proof.
  intros Hnone. unfold targets, new_edge.
  rewrite lookup_union_r by done. by rewrite lookup_singleton_eq.
Qed.

(** An attribute ["target"] that repeats the target changes nothing. *)
Lemma new_edge_targets_same tgt edge_data :
  edge_data !! "target" = None ∨ edge_data !! "target" = Some tgt →
  targets tgt (new_edge tgt edge_data).
Proof.
  intros [Hnone|Hsame]; [by apply new_edge_targets|].
  unfold targets, new_edge. by apply lookup_union_Some_l.
Qed.

Lemma new_edge_carries tgt edge_data : edge_data ⊆ new_edge tgt edge_data.
Proof. apply map_union_subseteq_l. Qed.

Lemma put_edge_one_per_target tgt e d :
  targets tgt e →
  (∀ t, (length (filter (targets t) (get_edges d)) ≤ 1)%nat) →
  ∀ t, (length (filter (targets t) (get_edges (put_edge tgt e d))) ≤ 1)%nat.
Proof.
  intros He Hd t. unfold put_edge, get_edges at 1. simpl.
  rewrite filter_app, length_app.
  destruct (decide (t = tgt)) as [->|Hne].
  - rewrite filter_filter_not. rewrite filter_cons_True by done. simpl. lia.
  - rewrite (filter_cons_False _ e) by (unfold targets in *; congruence).
    rewrite filter_nil. simpl.
    pose proof (filter_filter_length (targets t) (λ e', ¬ targets tgt e')
                  (get_edges d)).
    specialize (Hd t). lia.
Qed.

Lemma put_edge_exactly_one tgt e d :
  targets tgt e →
  filter (targets tgt) (get_edges (put_edge tgt e d)) = [e].
Proof.
  intros He. unfold put_edge, get_edges at 1. simpl.
  rewrite filter_app, filter_filter_not. by rewrite filter_cons_True.
Qed.


Local Abbreviation one_per_target d :=
  (∀ t, (length (filter (targets t) (get_edges d)) ≤ 1)%nat).

Lemma one_edge_per_target_update_one c i u :
  (∀ d, one_per_target d → one_per_target (u d)) →
  one_edge_per_target c →
  one_edge_per_target (Mongo.update_one node_has_id i u c).
Proof.
  intros Hu Hc d' Hd'.
  apply MongoFacts.elem_of_update_one in Hd' as [Hin|(d & Hin & _ & ->)].
  - by apply Hc.
  - apply Hu. by apply Hc.
Qed.

Lemma one_edge_per_target_upsert c i u ins :
  (∀ d, one_per_target d → one_per_target (u d)) →
  one_per_target ins →
  one_edge_per_target c →
  one_edge_per_target (Mongo.update_one_upsert node_has_id i u ins c).
Proof.
  intros Hu Hins Hc. unfold Mongo.update_one_upsert.
  destruct (Mongo.find_one node_has_id i c).
  - by apply one_edge_per_target_update_one.
  - intros d [Hd|Hd]%elem_of_app; [by apply Hc|].
    by apply list_elem_of_singleton in Hd as ->.
Qed.

Lemma one_edge_per_target_sub c c' :
  (∀ d, d ∈ c' → d ∈ c) → one_edge_per_target c → one_edge_per_target c'.
Proof. intros Hsub Hc d Hd. apply Hc. by apply Hsub. Qed.

Lemma elem_of_delete_one i (c : collection) d :
  d ∈ Mongo.delete_one node_has_id i c → d ∈ c.
Proof.
  induction c as [|x c IH]; simpl; [done|].
  destruct (decide (node_has_id i x)).
  - intros Hd. by right.
  - intros [->|Hd]%elem_of_cons; [left|right; by apply IH].
Qed.

Lemma op_pull_one_per_target t d : one_per_target d → one_per_target (op_pull t d).
Proof.
  intros Hd t'. destruct d as [i f [es|]]; [|done].
  unfold op_pull, get_edges in *. simpl in *.
  pose proof (filter_filter_length (targets t') (λ e, ¬ targets t e) es).
  specialize (Hd t'). lia.
Qed.

Lemma op_pull_in_one_per_target ts d :
  one_per_target d → one_per_target (op_pull_in ts d).
Proof.
  intros Hd t'. destruct d as [i f [es|]]; [|done].
  unfold op_pull_in, get_edges in *. simpl in *.
  pose proof (filter_filter_length (targets t')
                (λ e, ¬ Exists (λ t, targets t e) ts) es).
  specialize (Hd t'). lia.
Qed.

Lemma one_edge_per_target_fmap c u :
  (∀ d, one_per_target d → one_per_target (u d)) →
  one_edge_per_target c → one_edge_per_target (Mongo.update_many u c).
Proof.
  intros Hu Hc d' Hd'. unfold Mongo.update_many in Hd'.
  apply list_elem_of_fmap in Hd' as (d & -> & Hd). apply Hu. by apply Hc.
Qed.

Lemma upsert_node_one_edge_per_target c c' node_id node_data :
  upsert_node c node_id node_data = Returns c' →
  one_edge_per_target c → one_edge_per_target c'.
Proof.
  unfold upsert_node. repeat case_decide; try done. intros [= <-] Hc.
  apply one_edge_per_target_upsert; [done| |done].
  intros t. simpl. lia.
Qed.

Lemma upsert_edge_one_edge_per_target c c' src tgt edge_data :
  targets tgt (new_edge tgt edge_data) →
  upsert_edge c src tgt edge_data = Returns c' →
  one_edge_per_target c → one_edge_per_target c'.
Proof.
  intros He. rewrite upsert_edge_returns. intros [= <-] Hc.
  apply one_edge_per_target_upsert; [| |done].
  - intros d. by apply put_edge_one_per_target.
  - intros t. unfold get_edges. simpl.
    destruct (decide (targets t (new_edge tgt edge_data))).
    + by rewrite filter_cons_True.
    + rewrite filter_cons_False by done. simpl. lia.
Qed.

Lemma remove_edges_one_edge_per_target pairs c :
  one_edge_per_target c → one_edge_per_target (remove_edges c pairs).
Proof.
  unfold remove_edges. revert c.
  induction pairs as [|[s t] pairs IH]; intros c Hc; [done|].
  simpl. apply IH. apply one_edge_per_target_update_one; [|done].
  intros d. apply op_pull_one_per_target.
Qed.

(** Every store the class builds by sequential calls has at most one
    edge per target in each edge list. *)
Lemma built_one_edge_per_target c : built c → one_edge_per_target c.
Proof.
  induction 1 as [|c c' i nd _ IH Hup|c c' s t ed _ IH Hnone Hup
                  |c i _ IH|c ns _ IH|c pairs _ IH|c _ IH].
  - intros d Hd. by apply elem_of_nil in Hd.
  - by eapply upsert_node_one_edge_per_target.
  - eapply upsert_edge_one_edge_per_target; [|exact Hup|exact IH].
    by apply new_edge_targets.
  - unfold delete_node.
    eapply one_edge_per_target_sub; [apply elem_of_delete_one|].
    apply one_edge_per_target_fmap; [|done].
    intros d. apply op_pull_one_per_target.
  - unfold remove_nodes. destruct ns as [|n ns]; [done|].
    eapply one_edge_per_target_sub.
    + intros d Hd. unfold Mongo.delete_many in Hd.
      apply list_elem_of_filter in Hd as [_ Hd]. exact Hd.
    + apply one_edge_per_target_fmap; [|done].
      intros d. apply op_pull_in_one_per_target.
  - by apply remove_edges_one_edge_per_target.
  - intros d Hd. by apply elem_of_nil in Hd.
Qed.


(** X25. When the attributes name no target, or the target itself,
    [upsert_edge] returns; the source document exists afterwards, with
    the attributes it had (none when it is new); its edge list is the
    former one without the edges to [tgt], followed by the new edge;
    exactly one of its edges goes to [tgt], and it carries the given
    attributes; and if every edge list had at most one edge per target
    before the call, so it is after it. *)
Theorem upsert_edge_replaces_edge c src tgt edge_data :
  edge_data !! "target" = None ∨ edge_data !! "target" = Some tgt →
  ∃ c' d',
    upsert_edge c src tgt edge_data = Returns c' ∧
    find_one src c' = Some d' ∧
    fields d' = default ∅ (fields <$> find_one src c) ∧
    get_edges d'
    = filter (λ e, ¬ targets tgt e)
             (default [] (get_edges <$> find_one src c))
      ++ [new_edge tgt edge_data] ∧
    filter (targets tgt) (get_edges d') = [new_edge tgt edge_data] ∧
    edge_upserted c' src tgt edge_data ∧
    (one_edge_per_target c → one_edge_per_target c').
Proof.
  intros Htarget.
  pose proof (new_edge_targets_same tgt edge_data Htarget) as He.
  pose proof (upsert_edge_returns c src tgt edge_data) as Hret.
  assert (∃ d',
    find_one src (Mongo.update_one_upsert node_has_id src
               (put_edge tgt (new_edge tgt edge_data))
               (NodeDoc src ∅ (Some [new_edge tgt edge_data])) c) = Some d' ∧
    fields d' = default ∅ (fields <$> find_one src c) ∧
    get_edges d'
    = filter (λ e, ¬ targets tgt e)
             (default [] (get_edges <$> find_one src c))
      ++ [new_edge tgt edge_data]) as (d' & Hd' & Hf & Hes).
  { unfold Mongo.update_one_upsert, find_one.
    destruct (Mongo.find_one node_has_id src c) as [d0|] eqn:Hold.
    - exists (put_edge tgt (new_edge tgt edge_data) d0).
      rewrite MongoFacts.find_one_update_one_same by apply put_edge_id.
      by rewrite Hold.
    - exists (NodeDoc src ∅ (Some [new_edge tgt edge_data])).
      rewrite MongoFacts.find_one_app, Hold. simpl.
      by rewrite decide_True. }
  assert (filter (targets tgt) (get_edges d') = [new_edge tgt edge_data])
    as Hone.
  { rewrite Hes, filter_app, filter_filter_not. by rewrite filter_cons_True. }
  eexists _, d'. split; [exact Hret|]. split; [exact Hd'|].
  split; [exact Hf|]. split; [exact Hes|]. split; [exact Hone|]. split.
  - exists d', (new_edge tgt edge_data).
    split; [exact Hd'|]. split; [exact Hone|apply new_edge_carries].
  - by eapply upsert_edge_one_edge_per_target.
Qed.

(** The edge A→B is replaced; the edge A→C stays. *)
Lemma upsert_edge_replaces_edge_witness :
  let c := [ NodeDoc "A" ∅ (Some [ {[ "target" := "B"; "relation" := "old" ]};
                                   {[ "target" := "C" ]} ]) ] in
  ∃ c' d',
    upsert_edge c "A" "B" {[ "relation" := "new" ]} = Returns c' ∧
    find_one "A" c' = Some d' ∧
    get_edges d' = [ {[ "target" := "C" ]};
                     {[ "target" := "B"; "relation" := "new" ]} ] ∧
    one_edge_per_target c'.
Proof.
  intros c.
  destruct (upsert_edge_replaces_edge c "A" "B" {[ "relation" := "new" ]})
    as (c' & d' & H1 & H2 & _ & H4 & _ & _ & H7).
  - left. reflexivity.
  - exists c', d'. split; [exact H1|]. split; [exact H2|].
    split; [rewrite H4; reflexivity|apply H7].
    intros d Hd t. apply list_elem_of_singleton in Hd as ->.
    unfold get_edges. simpl.
    destruct (decide (t = "B")) as [->|HB];
      [reflexivity|destruct (decide (t = "C")) as [->|HC]; [reflexivity|]].
    rewrite !filter_cons_False; [simpl; lia| |];
      unfold targets; intros Ht; vm_compute in Ht; congruence.
Defined.

(** C2. The claim is what the docstring of [upsert_edge] says ("Upsert
    an edge from source_node_id -> target_node_id"; "If an edge with
    the same target exists, we remove it and re-insert"), and the code
    misses it when the attributes name ["target"]:
    [new_edge.update(edge_data)] lets the attribute replace the target
    that was just set.  On the empty store,
    [upsert_edge("A", "B", {"target": "Z"})] stores an edge to Z and
    none to B; the same call again removes nothing, since the [$pull]
    looks for B, and stores a second edge to Z. *)
Theorem upsert_edge_target_attribute_overrides :
  let z : edge := {[ "target" := "Z" ]} in
  upsert_edge [] "A" "B" z = Returns [ NodeDoc "A" ∅ (Some [z]) ] ∧
  edge_degree [ NodeDoc "A" ∅ (Some [z]) ] "A" "B" = 0 ∧
  ¬ edge_upserted [ NodeDoc "A" ∅ (Some [z]) ] "A" "B" z ∧
  upsert_edge [ NodeDoc "A" ∅ (Some [z]) ] "A" "B" z
  = Returns [ NodeDoc "A" ∅ (Some [z; z]) ] ∧
  ¬ one_edge_per_target [ NodeDoc "A" ∅ (Some [z; z]) ].
Proof.
  intros z. split; [reflexivity|]. split; [reflexivity|]. split; [|split].
  - intros (d & e & Hd & He & _). injection Hd as <-. discriminate He.
  - reflexivity.
  - intros Hone.
    specialize (Hone (NodeDoc "A" ∅ (Some [z; z]))
                  ltac:(apply list_elem_of_singleton; reflexivity) "Z").
    assert (length (filter (targets "Z")
                      (get_edges (NodeDoc "A" ∅ (Some [z; z])))) = 2)
      as Hlen by reflexivity.
    rewrite Hlen in Hone. lia.
Qed.


(* ================================================================== *)
(** * Properties of MongoGraphStorage: subgraphs                       *)
(* ================================================================== *)

Lemma walk_inv_start : walk_inv start_walk.
Proof.
  split; simpl; try apply NoDup_nil_2; try done.
  - intros i. rewrite elem_of_nil. set_solver.
  - intros i. rewrite elem_of_nil. set_solver.
Qed.

Lemma add_edge_inv node_id w e w' :
  add_edge node_id w e = Returns w' → walk_inv w → walk_inv w'.
Proof.
  unfold add_edge. destruct (e !! "target") as [tgt|]; [|done].
  destruct (decide _) as [Hseen|Hnew]; intros [= <-]; [done|].
  intros [Hn Hsn He Hse Hid]. split; simpl; try done.
  - rewrite fmap_app. apply NoDup_app. split; [done|]. split.
    + intros i Hi [->|[]%elem_of_nil]%elem_of_cons. simpl in *.
      apply Hnew. by apply Hse.
    + apply NoDup_singleton.
  - intros i. rewrite fmap_app, elem_of_app, elem_of_union, Hse.
    simpl. rewrite elem_of_singleton, list_elem_of_singleton. tauto.
  - apply Forall_app. split; [done|]. by repeat constructor.
Qed.

Lemma add_node_inv excluded d w :
  _id d ∉ seen_nodes w → walk_inv w → walk_inv (add_node excluded d w).
Proof.
  intros Hnew [Hn Hsn He Hse Hid]. split; simpl; try done.
  - rewrite fmap_app. apply NoDup_app. split; [done|]. split.
    + intros i Hi [->|[]%elem_of_nil]%elem_of_cons. simpl in *.
      apply Hnew. by apply Hsn.
    + apply NoDup_singleton.
  - intros i. rewrite fmap_app, elem_of_app, elem_of_union, Hsn.
    simpl. rewrite elem_of_singleton, list_elem_of_singleton. tauto.
Qed.

Lemma add_edges_inv node_id es w w' :
  foldM (add_edge node_id) w es = Returns w' → walk_inv w → walk_inv w'.
Proof. apply foldM_invariant. intros ???. apply add_edge_inv. Qed.

Lemma visit_inv excluded w d w' :
  visit excluded w d = Returns w' → walk_inv w → walk_inv w'.
Proof.
  unfold visit. destruct (decide _) as [Hseen|Hnew].
  - by intros [= <-].
  - intros Hes Hw. eapply add_edges_inv; [exact Hes|]. by apply add_node_inv.
Qed.

Lemma expand_inv w doc w' :
  expand w doc = Returns w' → walk_inv w → walk_inv w'.
Proof.
  destruct doc as [start connected_nodes]. unfold expand.
  destruct (foldM (add_edge (_id start)) _ (get_edges start))
    as [w2|] eqn:Hw2; simpl; [|done].
  intros Hconn Hw.
  eapply (foldM_invariant (visit _)); [|exact Hconn|].
  - intros ???. apply visit_inv.
  - eapply add_edges_inv; [exact Hw2|].
    destruct (decide _); [done|by apply add_node_inv].
Qed.


(** ** The collected edges cover the collected nodes *)

Lemma add_edge_grows node_id w e w' :
  add_edge node_id w e = Returns w' →
  nodes (result w') = nodes (result w) ∧
  seen_nodes w' = seen_nodes w ∧
  seen_edges w ⊆ seen_edges w' ∧
  ∀ t, e !! "target" = Some t → node_id +:+ "-" +:+ t ∈ seen_edges w'.
Proof.
  unfold add_edge. destruct (e !! "target") as [tgt|]; [|done].
  destruct (decide _) as [Hseen|Hnew]; intros [= <-]; simpl.
  - repeat split; [done|]. by intros t [= <-].
  - repeat split.
    + intros x Hx. apply elem_of_union. by right.
    + intros t [= <-]. apply elem_of_union. left. by apply elem_of_singleton.
Qed.

Lemma add_edges_grow node_id es w w' :
  foldM (add_edge node_id) w es = Returns w' →
  nodes (result w') = nodes (result w) ∧
  seen_nodes w' = seen_nodes w ∧
  seen_edges w ⊆ seen_edges w' ∧
  ∀ e t, e ∈ es → e !! "target" = Some t →
         node_id +:+ "-" +:+ t ∈ seen_edges w'.
Proof.
  revert w. induction es as [|e es IH]; intros w; simpl.
  - intros [= <-]. repeat split; [done|]. by intros e t ?%elem_of_nil.
  - destruct (add_edge node_id w e) as [w1|] eqn:Hw1; simpl; [|done].
    intros Hes. destruct (add_edge_grows _ _ _ _ Hw1) as (Hn1 & Hs1 & Hsub1 & He1).
    destruct (IH _ Hes) as (Hn & Hs & Hsub & He).
    split; [congruence|]. split; [congruence|]. split.
    + intros x Hx. by apply Hsub, Hsub1.
    + intros e' t [->|He']%elem_of_cons Ht.
      * by apply Hsub, He1.
      * by eapply He.
Qed.

Lemma covered_grows c w w' :
  nodes (result w') = nodes (result w) →
  seen_edges w ⊆ seen_edges w' →
  covered c w → covered c w'.
Proof.
  intros Hn Hsub Hc n Hin. rewrite Hn in Hin.
  destruct (Hc n Hin) as (d & Hd & Hid & He).
  exists d. split; [done|]. split; [done|].
  intros e t Hin' Ht. by eapply Hsub, He.
Qed.

(** After a node has been added and its edges walked. *)
Lemma covered_add_node c excluded d w w' :
  d ∈ c →
  foldM (add_edge (_id d)) (add_node excluded d w) (get_edges d) = Returns w' →
  covered c w → covered c w'.
Proof.
  intros Hd Hes Hc.
  destruct (add_edges_grow _ _ _ _ Hes) as (Hn & _ & Hsub & He).
  intros n Hin. rewrite Hn in Hin. simpl in Hin.
  apply elem_of_app in Hin as [Hin|Hin].
  - destruct (Hc n Hin) as (d0 & Hd0 & Hid0 & He0).
    exists d0. split; [done|]. split; [done|].
    intros e t Hin' Ht. apply Hsub. simpl. by eapply He0.
  - apply list_elem_of_singleton in Hin as ->. exists d.
    split; [done|]. split; [done|]. exact He.
Qed.

Lemma visit_covered c excluded w d w' :
  d ∈ c → visit excluded w d = Returns w' → covered c w → covered c w'.
Proof.
  intros Hd. unfold visit. destruct (decide _).
  - by intros [= <-].
  - by apply covered_add_node.
Qed.

Lemma expand_covered c w start connected_nodes w' :
  start ∈ c → (∀ d n, (d, n) ∈ connected_nodes → d ∈ c) →
  expand w (start, connected_nodes) = Returns w' →
  covered c w → covered c w'.
Proof.
  intros Hstart Hconn. unfold expand.
  destruct (foldM (add_edge (_id start)) _ (get_edges start))
    as [w2|] eqn:Hw2; simpl; [|done].
  intros Hvisit Hc.
  eapply (foldM_invariant_elem (visit _)); [|exact Hvisit|].
  - intros w3 d w4 Hd. apply list_elem_of_fmap in Hd as ([d' n] & -> & Hd).
    apply visit_covered. by eapply Hconn.
  - destruct (decide (_id start ∈ seen_nodes w)) as [Hseen|Hnew].
    + destruct (add_edges_grow _ _ _ _ Hw2) as (Hn & _ & Hsub & _).
      by eapply covered_grows.
    + by eapply covered_add_node.
Qed.

Lemma visit_seen excluded w d w' :
  visit excluded w d = Returns w' →
  seen_nodes w ⊆ seen_nodes w' ∧ _id d ∈ seen_nodes w'.
Proof.
  unfold visit. destruct (decide _) as [Hseen|Hnew].
  - by intros [= <-].
  - intros Hes. destruct (add_edges_grow _ _ _ _ Hes) as (_ & -> & _ & _).
    simpl. split; [|by apply elem_of_union_l, elem_of_singleton].
    intros x Hx. by apply elem_of_union_r.
Qed.

Lemma expand_seen w doc w' :
  expand w doc = Returns w' →
  seen_nodes w ⊆ seen_nodes w' ∧ _id doc.1 ∈ seen_nodes w'.
Proof.
  destruct doc as [start connected_nodes]. unfold expand.
  destruct (foldM (add_edge (_id start)) _ (get_edges start))
    as [w2|] eqn:Hw2; simpl; [|done].
  intros Hvisit.
  destruct (add_edges_grow _ _ _ _ Hw2) as (_ & Hs2 & _ & _).
  destruct (foldM_collects (visit _) seen_nodes _id _ _ _
              (visit_seen _) Hvisit) as [Hsub _].
  assert (seen_nodes w ⊆ seen_nodes w2 ∧ _id start ∈ seen_nodes w2)
    as [Hsub2 Hstart].
  { rewrite Hs2. destruct (decide _) as [Hseen|Hnew]; [done|]. simpl.
    split; [|by apply elem_of_union_l, elem_of_singleton].
    intros x Hx. by apply elem_of_union_r. }
  split; [|by apply Hsub].
  intros x Hx. by apply Hsub, Hsub2.
Qed.

Lemma graphLookup_levels_elem c levels depth visited frontier d n :
  (d, n) ∈ graphLookup_levels c levels depth visited frontier → d ∈ c.
Proof.
  revert depth visited frontier.
  induction levels as [|levels IH]; intros depth visited frontier; simpl.
  - by intros ?%elem_of_nil.
  - intros [Hin|Hin]%elem_of_app; [|by eapply IH].
    apply list_elem_of_fmap in Hin as (d' & [= -> ->] & Hd').
    by apply list_elem_of_filter in Hd' as [_ Hd'].
Qed.

Lemma covered_start c : covered c start_walk.
Proof. by intros n ?%elem_of_nil. Qed.

Lemma get_knowledge_graph_inv c label max_depth kg :
  get_knowledge_graph c label max_depth = Returns kg →
  ∃ w, walk_inv w ∧ covered c w ∧ kg = result w ∧
       (label = "*" → ∀ d, d ∈ c → _id d ∈ seen_nodes w) ∧
       (label ≠ "*" → is_Some (find_one label c) → (0 ≤ max_depth)%Z →
        label ∈ seen_nodes w).
Proof.
  unfold get_knowledge_graph. destruct (decide (label = "*")) as [Hstar|Hstar].
  - destruct (foldM _ start_walk c) as [w|] eqn:Hw; simpl; [|done].
    intros [= <-]. exists w. split; [|split; [|split; [done|split; [|done]]]].
    + eapply (foldM_invariant (visit _)); [|exact Hw|apply walk_inv_start].
      intros ???. apply visit_inv.
    + eapply (foldM_invariant_elem (visit _)); [|exact Hw|apply covered_start].
      intros ????. by apply visit_covered.
    + intros _.
      by destruct (foldM_collects (visit _) seen_nodes _id _ _ _
                     (visit_seen _) Hw).
  - destruct (find_one label c) as [d0|] eqn:Hfound.
    2:{ intros [= <-]. exists start_walk.
        split; [apply walk_inv_start|]. split; [apply covered_start|].
        split; [done|]. split; [done|]. by intros _ [? ?]. }
    destruct (decide _) as [Hneg|Hpos].
    { intros [= <-]. exists start_walk.
      split; [apply walk_inv_start|]. split; [apply covered_start|].
      split; [done|]. split; [done|]. intros _ _ ?. lia. }
    destruct (foldM expand start_walk _) as [w|] eqn:Hw; simpl; [|done].
    intros [= <-]. exists w. split; [|split; [|split; [done|split; [done|]]]].
    + eapply (foldM_invariant expand); [|exact Hw|apply walk_inv_start].
      intros ???. apply expand_inv.
    + eapply (foldM_invariant_elem expand); [|exact Hw|apply covered_start].
      intros w1 doc w2 Hdoc.
      apply list_elem_of_fmap in Hdoc as (d & -> & Hd).
      apply list_elem_of_filter in Hd as [_ Hd].
      apply expand_covered; [done|].
      intros d' n. apply graphLookup_levels_elem.
    + intros _ _ _.
      destruct (foldM_collects expand seen_nodes (λ doc, _id doc.1) _ _ _
                  expand_seen Hw) as [_ Hall].
      apply MongoFacts.find_one_Some in Hfound as [Hin Hid].
      specialize (Hall (d0, graphLookup c d0 (Z.to_nat max_depth))).
      simpl in Hall. rewrite Hid in Hall. apply Hall.
      apply list_elem_of_fmap. exists d0. split; [done|].
      by apply list_elem_of_filter.
Qed.

Lemma add_edge_returns node_id w e :
  is_Some (e !! "target") → ∃ w', add_edge node_id w e = Returns w'.
Proof.
  intros [t Ht]. unfold add_edge. rewrite Ht.
  destruct (decide _); by eexists.
Qed.

Lemma visit_returns excluded w d :
  (∀ e, e ∈ get_edges d → is_Some (e !! "target")) →
  ∃ w', visit excluded w d = Returns w'.
Proof.
  intros Hd. unfold visit. destruct (decide _); [by eexists|].
  apply foldM_returns. intros w1 e He. by apply add_edge_returns, Hd.
Qed.

Lemma expand_returns c w start maxDepth :
  edges_have_targets c → start ∈ c →
  ∃ w', expand w (start, graphLookup c start maxDepth) = Returns w'.
Proof.
  intros Hc Hstart. unfold expand.
  edestruct (foldM_returns (add_edge (_id start)) (get_edges start))
    as [w2 ->].
  { intros w1 e He. by eapply add_edge_returns, Hc. }
  simpl. apply foldM_returns. intros w1 d Hd.
  apply list_elem_of_fmap in Hd as ([d' n] & -> & Hd). simpl.
  apply visit_returns. apply Hc.
  by eapply graphLookup_levels_elem.
Qed.

(** [get_knowledge_graph] returns when every stored edge has a
    target. *)
Lemma get_knowledge_graph_returns c label max_depth :
  edges_have_targets c →
  ∃ kg, get_knowledge_graph c label max_depth = Returns kg.
Proof.
  intros Hc. unfold get_knowledge_graph. destruct (decide (label = "*")).
  - edestruct (foldM_returns (visit ["_id"; "edges"]) c start_walk)
      as [w ->]; [|by eexists].
    intros w1 d Hd. apply visit_returns. by apply Hc.
  - destruct (find_one label c); [|by eexists].
    destruct (decide _); [by eexists|].
    edestruct (foldM_returns expand
                 ((λ d, (d, graphLookup c d (Z.to_nat max_depth))) <$>
                  filter (node_has_id label) c) start_walk)
      as [w ->]; [|by eexists].
    intros w1 doc Hdoc.
    apply list_elem_of_fmap in Hdoc as (d & -> & Hd).
    apply list_elem_of_filter in Hd as [_ Hd]. by apply expand_returns.
Qed.

(** C4. In the subgraph returned for ["*"] or for a start label, no
    node id occurs twice, no edge id occurs twice, and an edge id is
    ["{source}-{target}"], without the relation; so at most one edge of
    the result goes from a given source to a given target, however many
    are stored.  Nothing else is lost: each node of the result is a
    stored document, and each of that document's edges has its key
    among the edge ids of the result; for ["*"] every stored id is a
    node of the result, and for a stored start label and a depth that is
    not negative the start node is.  The method returns when every
    stored edge has a target. *)
Theorem subgraph_deduplicated c label max_depth :
  (edges_have_targets c →
   ∃ kg, get_knowledge_graph c label max_depth = Returns kg) ∧
  (∀ kg, get_knowledge_graph c label max_depth = Returns kg →
     NoDup (n_id <$> nodes kg) ∧
     NoDup (e_id <$> kg_edges kg) ∧
     Forall (λ e, e_id e = e_source e +:+ "-" +:+ e_target e) (kg_edges kg) ∧
     (∀ s t, length (edges_between kg s t) ≤ 1) ∧
     (∀ n, n ∈ nodes kg →
        ∃ d, d ∈ c ∧ _id d = n_id n ∧
             ∀ e t, e ∈ get_edges d → e !! "target" = Some t →
                    n_id n +:+ "-" +:+ t ∈ e_id <$> kg_edges kg) ∧
     (label = "*" → ∀ d, d ∈ c → _id d ∈ n_id <$> nodes kg) ∧
     (label ≠ "*" → is_Some (find_one label c) → (0 ≤ max_depth)%Z →
      label ∈ n_id <$> nodes kg)).
Proof.
  split; [apply get_knowledge_graph_returns|].
  intros kg Hkg.
  apply get_knowledge_graph_inv in Hkg
    as (w & [Hn Hsn He Hse Hid] & Hcov & -> & Hall & Hstart).
  split; [done|]. split; [done|]. split; [done|].
  split; [|split; [|split]].
  - intros s t. unfold edges_between.
    apply (filter_same_key_length e_id _ (s +:+ "-" +:+ t)); [done|].
    intros e Hin [<- <-]. rewrite Forall_forall in Hid. by apply Hid.
  - intros n Hin. destruct (Hcov n Hin) as (d & Hd & Hdn & Hedges).
    exists d. split; [done|]. split; [done|].
    intros e t Hine Ht. apply Hse. rewrite <-Hdn. by eapply Hedges.
  - intros Hstar d Hd. apply Hsn. by apply Hall.
  - intros Hstar Hfound Hdepth. apply Hsn. by apply Hstart.
Qed.

(** Two parallel edges A→B, [knows] and [likes]: both branches keep
    the first one only. *)
Lemma subgraph_deduplicated_witness :
  let c := [ NodeDoc "A" ∅
               (Some [ {[ "target" := "B"; "relation" := "knows" ]};
                       {[ "target" := "B"; "relation" := "likes" ]} ]);
             NodeDoc "B" ∅ (Some []) ] in
  ∃ kg1 kg2,
    get_knowledge_graph c "*" 5 = Returns kg1 ∧
    get_knowledge_graph c "A" 5 = Returns kg2 ∧
    (length (edges_between kg1 "A" "B") ≤ 1)%nat ∧
    (length (edges_between kg2 "A" "B") ≤ 1)%nat ∧
    (λ e, (e_id e, e_type e)) <$> kg_edges kg1 = [("A-B", "knows")] ∧
    (λ e, (e_id e, e_type e)) <$> kg_edges kg2 = [("A-B", "knows")].
Proof.
  intros c.
  destruct (proj1 (subgraph_deduplicated c "*" 5)) as [kg1 H1].
  { intros d Hd e He. repeat (apply elem_of_cons in Hd as [->|Hd]);
      [| |by apply elem_of_nil in Hd].
    - repeat (apply elem_of_cons in He as [->|He]);
        [by eexists|by eexists|by apply elem_of_nil in He].
    - by apply elem_of_nil in He. }
  destruct (proj1 (subgraph_deduplicated c "A" 5)) as [kg2 H2].
  { intros d Hd e He. repeat (apply elem_of_cons in Hd as [->|Hd]);
      [| |by apply elem_of_nil in Hd].
    - repeat (apply elem_of_cons in He as [->|He]);
        [by eexists|by eexists|by apply elem_of_nil in He].
    - by apply elem_of_nil in He. }
  exists kg1, kg2. split; [exact H1|]. split; [exact H2|].
  split; [apply (proj2 (subgraph_deduplicated c "*" 5) kg1 H1)|].
  split; [apply (proj2 (subgraph_deduplicated c "A" 5) kg2 H2)|].
  assert (Returns kg1 = get_knowledge_graph c "*" 5) as E1 by done.
  assert (Returns kg2 = get_knowledge_graph c "A" 5) as E2 by done.
  vm_compute in E1, E2. injection E1 as ->. injection E2 as ->.
  split; reflexivity.
Defined.

(** C5. For a start label other than ["*"] that no document has,
    [get_knowledge_graph] returns the empty graph. *)
Theorem subgraph_missing_start_is_empty c label max_depth :
  label ≠ "*" → find_one label c = None →
  get_knowledge_graph c label max_depth = Returns (KG [] []).
Proof.
  intros Hstar Hnone. unfold get_knowledge_graph.
  rewrite decide_False by done. by rewrite Hnone.
Qed.

Lemma subgraph_missing_start_is_empty_witness :
  get_knowledge_graph
    [ NodeDoc "A" ∅ (Some [ {[ "target" := "B" ]} ]) ] "B" 5
  = Returns (KG [] []).
Proof.
  apply subgraph_missing_start_is_empty; [discriminate|reflexivity].
Defined.

(* ================================================================== *)
(** * Properties of MongoGraphStorage: the other methods               *)
(* ================================================================== *)

Lemma elem_of_edge_targets d t :
  t ∈ edge_targets d ↔ Exists (targets t) (get_edges d).
Proof.
  unfold edge_targets. rewrite list_elem_of_omap, Exists_exists. done.
Qed.

Lemma has_node_true c x : has_node c x = true ↔ ∃ d, d ∈ c ∧ _id d = x.
Proof.
  unfold has_node. rewrite bool_decide_eq_true.
  apply MongoFacts.find_one_is_Some.
Qed.

Lemma graphLookup_zero c start k d :
  (d, k) ∈ graphLookup c start 0 ↔ k = 0 ∧ d ∈ c ∧ _id d ∈ edge_targets start.
Proof.
  unfold graphLookup. simpl. rewrite app_nil_r, list_elem_of_fmap. split.
  - intros (d' & [= -> ->] & [[Ht _] Hd]%list_elem_of_filter). done.
  - intros (-> & Hd & Ht). exists d. split; [done|].
    apply list_elem_of_filter. split; [|done]. split; [done|].
    apply not_elem_of_empty.
Qed.

(** X8. [has_edge] is true exactly when the source is stored, one of
    its edges goes to the target, and the target is stored as well: an
    edge to an id without a document is not reported. *)
Theorem has_edge_needs_stored_target c src tgt :
  has_edge c src tgt = true ↔
  ∃ d, find_one src c = Some d ∧ Exists (targets tgt) (get_edges d) ∧
       has_node c tgt = true.
Proof.
  unfold has_edge, find_one.
  rewrite <-(MongoFacts.head_filter_find_one node_has_id src c).
  destruct (filter (node_has_id src) c) as [|doc rest]; simpl.
  - split; [done|]. by intros (d & [=] & _).
  - rewrite bool_decide_eq_true, list_elem_of_fmap. split.
    + intros ([d k] & -> & Hd). apply graphLookup_zero in Hd as (_ & Hd & Ht).
      exists doc. split; [done|]. split; [by apply elem_of_edge_targets|].
      apply has_node_true. by exists d.
    + intros (d & [= <-] & He & Hn). apply has_node_true in Hn as (d' & Hd' & <-).
      exists (d', 0). split; [done|]. apply graphLookup_zero.
      split; [done|]. split; [done|]. by apply elem_of_edge_targets.
Qed.

(** An edge to an id that is not stored: counted by [edge_degree],
    returned by [get_edge], not reported by [has_edge]. *)
Example has_edge_dangling :
  let c := [ NodeDoc "A" ∅ (Some [ {[ "target" := "X" ]} ]) ] in
  has_edge c "A" "X" = false ∧ edge_degree c "A" "X" = 1 ∧
  get_edge c "A" "X" = Some {[ "target" := "X" ]}.
Proof. done. Qed.

(** ** [upsert_edge] seen through the queries *)

Lemma upsert_edge_source_doc c src tgt edge_data :
  find_one src (Mongo.update_one_upsert node_has_id src
                  (put_edge tgt (new_edge tgt edge_data))
                  (NodeDoc src ∅ (Some [new_edge tgt edge_data])) c)
  = Some (NodeDoc src (default ∅ (fields <$> find_one src c))
            (Some (filter (λ e, ¬ targets tgt e)
                          (default [] (get_edges <$> find_one src c))
                   ++ [new_edge tgt edge_data]))).
Proof.
  unfold Mongo.update_one_upsert, find_one.
  destruct (Mongo.find_one node_has_id src c) as [d0|] eqn:Hold.
  - rewrite MongoFacts.find_one_update_one_same by apply put_edge_id.
    rewrite Hold. simpl. apply MongoFacts.find_one_Some in Hold as [_ <-].
    done.
  - rewrite MongoFacts.find_one_app, Hold. simpl. by rewrite decide_True.
Qed.

Lemma upsert_edge_other_doc c src tgt edge_data s :
  s ≠ src →
  find_one s (Mongo.update_one_upsert node_has_id src
                (put_edge tgt (new_edge tgt edge_data))
                (NodeDoc src ∅ (Some [new_edge tgt edge_data])) c)
  = find_one s c.
Proof.
  intros Hne. unfold Mongo.update_one_upsert, find_one.
  destruct (Mongo.find_one node_has_id src c) as [d0|] eqn:Hold.
  - apply MongoFacts.find_one_update_one_ne; [apply put_edge_id|].
    intros d. by apply node_has_id_ne.
  - rewrite MongoFacts.find_one_app.
    destruct (Mongo.find_one node_has_id s c); [done|]. simpl.
    by rewrite decide_False by (unfold node_has_id; simpl; congruence).
Qed.

Lemma filter_other_target (t t' : string) (es : list edge) :
  t ≠ t' →
  filter (targets t') (filter (λ e, ¬ targets t e) es) = filter (targets t') es.
Proof.
  intros Hne. induction es as [|e es IH]; [done|].
  destruct (decide (targets t e)) as [Ht|Ht].
  - rewrite (filter_cons_False (λ e, ¬ targets t e)) by tauto.
    rewrite (filter_cons_False (targets t')); [done|].
    unfold targets in *. congruence.
  - rewrite (filter_cons_True (λ e, ¬ targets t e)) by done.
    destruct (decide (targets t' e)).
    + rewrite !(filter_cons_True (targets t')) by done. by rewrite IH.
    + by rewrite !(filter_cons_False (targets t')).
Qed.

(** X9. After [upsert_edge] with attributes that do not name
    ["target"], [edge_degree] of the pair is 1 and [get_edge] returns
    the new edge, whatever was stored for the pair before; the degree of
    every other pair is what it was. *)
Theorem upsert_edge_then_queries c src tgt edge_data :
  edge_data !! "target" = None →
  ∃ c',
    upsert_edge c src tgt edge_data = Returns c' ∧
    edge_degree c' src tgt = 1 ∧
    get_edge c' src tgt = Some (new_edge tgt edge_data) ∧
    ∀ s t, (s, t) ≠ (src, tgt) → edge_degree c' s t = edge_degree c s t.
Proof.
  intros Hnone. eexists. split; [apply upsert_edge_returns|].
  pose proof (new_edge_targets tgt edge_data Hnone) as He.
  assert (∃ d',
    find_one src (Mongo.update_one_upsert node_has_id src
                    (put_edge tgt (new_edge tgt edge_data))
                    (NodeDoc src ∅ (Some [new_edge tgt edge_data])) c)
    = Some d' ∧
    get_edges d'
    = filter (λ e, ¬ targets tgt e) (default [] (get_edges <$> find_one src c))
      ++ [new_edge tgt edge_data]) as (d' & Hd' & Hes).
  { eexists. split; [apply upsert_edge_source_doc|done]. }
  unfold edge_degree, get_edge. rewrite Hd', Hes.
  rewrite filter_app, filter_filter_not, filter_cons_True by done.
  split; [done|]. split; [done|].
  intros s t Hst. destruct (decide (s = src)) as [->|Hs].
  - assert (t ≠ tgt) as Ht by congruence.
    rewrite Hd', Hes, filter_app, filter_other_target by done.
    rewrite (filter_cons_False _ (new_edge tgt edge_data))
      by (unfold targets in *; congruence).
    rewrite filter_nil, app_nil_r.
    by destruct (find_one src c).
  - by rewrite upsert_edge_other_doc.
Qed.

Lemma upsert_edge_then_queries_witness :
  let c := [ NodeDoc "A" ∅ (Some [ {[ "target" := "B"; "relation" := "old" ]};
                                   {[ "target" := "B"; "relation" := "older" ]};
                                   {[ "target" := "C" ]} ]) ] in
  ∃ c',
    upsert_edge c "A" "B" {[ "relation" := "new" ]} = Returns c' ∧
    edge_degree c "A" "B" = 2 ∧ edge_degree c' "A" "B" = 1 ∧
    edge_degree c' "A" "C" = 1.
Proof.
  intros c.
  destruct (upsert_edge_then_queries c "A" "B" {[ "relation" := "new" ]})
    as (c' & H1 & H2 & _ & H4); [reflexivity|].
  exists c'. split; [exact H1|]. split; [reflexivity|]. split; [exact H2|].
  rewrite H4 by discriminate. reflexivity.
Defined.

(** ** [remove_edges] *)

Lemma pull_edge_degree c s0 t0 s t :
  edge_degree (Mongo.update_one node_has_id s0 (op_pull t0) c) s t
  = if decide ((s, t) = (s0, t0)) then 0 else edge_degree c s t.
Proof.
  unfold edge_degree, find_one. destruct (decide (s = s0)) as [->|Hs].
  - rewrite MongoFacts.find_one_update_one_same by apply op_pull_id.
    destruct (Mongo.find_one node_has_id s0 c) as [[i f es]|]; simpl.
    + destruct es as [es|]; unfold get_edges; simpl.
      * destruct (decide (t = t0)) as [->|Ht].
        -- rewrite decide_True by done. by rewrite filter_filter_not.
        -- rewrite decide_False by congruence.
           by rewrite filter_other_target.
      * by destruct (decide _).
    + by destruct (decide _).
  - rewrite decide_False by congruence.
    rewrite MongoFacts.find_one_update_one_ne;
      [done|apply op_pull_id|intros d; by apply node_has_id_ne].
Qed.

Lemma pull_has_node c s0 t0 x :
  has_node (Mongo.update_one node_has_id s0 (op_pull t0) c) x = has_node c x.
Proof.
  unfold has_node, find_one. destruct (decide (x = s0)) as [->|Hx].
  - rewrite MongoFacts.find_one_update_one_same by apply op_pull_id.
    by destruct (Mongo.find_one node_has_id s0 c).
  - rewrite MongoFacts.find_one_update_one_ne;
      [done|apply op_pull_id|intros d; by apply node_has_id_ne].
Qed.

(** X10. After [remove_edges], no edge is left for a pair of the
    list, every other pair has the edges it had, and every node is
    still stored. *)
Theorem remove_edges_removes_pairs pairs c :
  (∀ s t, edge_degree (remove_edges c pairs) s t
          = if decide ((s, t) ∈ pairs) then 0 else edge_degree c s t) ∧
  (∀ x, has_node (remove_edges c pairs) x = has_node c x).
Proof.
  unfold remove_edges. revert c.
  induction pairs as [|[s0 t0] pairs IH]; intros c.
  { split; [|done]. intros s t.
    by rewrite decide_False by apply not_elem_of_nil. }
  simpl. destruct (IH (Mongo.update_one node_has_id s0 (op_pull t0) c))
    as [IHd IHn].
  split.
  - intros s t. rewrite IHd, pull_edge_degree.
    destruct (decide ((s, t) ∈ pairs)) as [Hin|Hout].
    + by rewrite decide_True by (by right).
    + destruct (decide ((s, t) = (s0, t0))) as [Heq|Hne].
      * rewrite decide_True; [done|]. rewrite Heq. left.
      * rewrite decide_False; [done|]. by intros [?|?]%elem_of_cons.
  - intros x. by rewrite IHn, pull_has_node.
Qed.

(** ** Deleting nodes *)

Lemma inbound_zero c x :
  (∀ d, d ∈ c → filter (targets x) (get_edges d) = []) →
  inbound_edges_count c x = 0.
Proof.
  unfold inbound_edges_count. induction c as [|d c IH]; intros Hall; [done|].
  rewrite fmap_cons. csimpl. rewrite (Hall d) by left. simpl.
  apply IH. intros d' Hd'. apply Hall. by right.
Qed.

Lemma op_pull_no_target x d : filter (targets x) (get_edges (op_pull x d)) = [].
Proof.
  destruct d as [i f [es|]]; [|done]. unfold op_pull, get_edges. simpl.
  apply filter_filter_not.
Qed.

Lemma op_pull_in_no_target ns x d :
  x ∈ ns → filter (targets x) (get_edges (op_pull_in ns d)) = [].
Proof.
  intros Hx. destruct d as [i f [es|]]; [|done].
  unfold op_pull_in, get_edges. simpl.
  apply filter_nil_not_Exists. intros Hex.
  apply Exists_exists in Hex as (e & [Hkeep _]%list_elem_of_filter & He).
  apply Hkeep. apply Exists_exists. by exists x.
Qed.

Lemma delete_one_head i (c : collection) :
  unique_ids c → find_one i (Mongo.delete_one node_has_id i c) = None.
Proof.
  unfold unique_ids, find_one. induction c as [|d c IH]; [done|].
  rewrite fmap_cons. intros [Hd Hnd]%NoDup_cons. simpl.
  destruct (decide (node_has_id i d)) as [Hi|Hi].
  - apply MongoFacts.find_one_None, Forall_forall. intros d' Hd' Hi'.
    apply Hd. rewrite Hi, <-Hi'. by apply list_elem_of_fmap_2.
  - simpl. rewrite decide_False by done. by apply IH.
Qed.

Lemma delete_one_other i j (c : collection) :
  i ≠ j → find_one j (Mongo.delete_one node_has_id i c) = find_one j c.
Proof.
  intros Hne. unfold find_one. induction c as [|d c IH]; [done|]. simpl.
  destruct (decide (node_has_id i d)) as [Hi|Hi].
  - rewrite decide_False; [done|]. by apply (node_has_id_ne i j).
  - simpl. by rewrite IH.
Qed.

Lemma find_one_update_many u (c : collection) i :
  (∀ d j, node_has_id j (u d) ↔ node_has_id j d) →
  find_one i (Mongo.update_many u c) = u <$> find_one i c.
Proof.
  intros Hu. unfold find_one, Mongo.update_many.
  induction c as [|d c IH]; [done|]. rewrite fmap_cons. simpl.
  destruct (decide (node_has_id i d)) as [Hi|Hi].
  - by rewrite decide_True by (by apply Hu).
  - rewrite decide_False by (by rewrite Hu). done.
Qed.

Lemma unique_ids_update_many u (c : collection) :
  (∀ d, _id (u d) = _id d) → unique_ids c → unique_ids (Mongo.update_many u c).
Proof.
  intros Hu. unfold unique_ids, Mongo.update_many.
  rewrite <-list_fmap_compose.
  assert (_id ∘ u <$> c = _id <$> c) as ->; [|done].
  induction c as [|d c IH]; [done|]. rewrite !fmap_cons. simpl.
  by rewrite Hu, IH.
Qed.

(** X11. [delete_node] cascades: in a collection without repeated
    ids, afterwards the node is not stored, no edge of any document
    goes to it, its degree is 0, and every other node is stored as
    before with its attributes and with its edges to other targets. *)
Theorem delete_node_cascades c node_id :
  unique_ids c →
  has_node (delete_node c node_id) node_id = false ∧
  inbound_edges_count (delete_node c node_id) node_id = 0 ∧
  (∀ server_operand,
     node_degree server_operand (delete_node c node_id) node_id = Returns 0) ∧
  (∀ x, x ≠ node_id →
     find_one x (delete_node c node_id) = op_pull node_id <$> find_one x c) ∧
  (∀ s t, s ≠ node_id → t ≠ node_id →
     edge_degree (delete_node c node_id) s t = edge_degree c s t).
Proof.
  intros Huniq. unfold delete_node.
  assert (find_one node_id
            (Mongo.delete_one node_has_id node_id
               (Mongo.update_many (op_pull node_id) c)) = None) as Hgone.
  { apply delete_one_head. by apply unique_ids_update_many. }
  assert (∀ x, x ≠ node_id →
            find_one x (Mongo.delete_one node_has_id node_id
                          (Mongo.update_many (op_pull node_id) c))
            = op_pull node_id <$> find_one x c) as Hother.
  { intros x Hx. rewrite delete_one_other by done.
    apply find_one_update_many. intros d j. apply op_pull_id. }
  split; [|split; [|split; [|split; [exact Hother|]]]].
  - unfold has_node. rewrite Hgone. apply bool_decide_eq_false. by intros [? ?].
  - apply inbound_zero. intros d Hd. apply elem_of_delete_one in Hd.
    apply list_elem_of_fmap in Hd as (d0 & -> & _). apply op_pull_no_target.
  - intros server_operand. unfold node_degree. by rewrite Hgone.
  - intros s t Hs Ht. unfold edge_degree. rewrite (Hother s Hs).
    destruct (find_one s c) as [[i f [es|]]|]; simpl; try done.
    unfold get_edges. simpl. by rewrite filter_other_target.
Qed.

Lemma delete_node_cascades_witness :
  let c := [ NodeDoc "A" ∅ (Some [ {[ "target" := "B" ]}; {[ "target" := "C" ]} ]);
             NodeDoc "B" ∅ (Some [ {[ "target" := "C" ]} ]);
             NodeDoc "C" ∅ (Some []) ] in
  inbound_edges_count c "B" = 1 ∧
  has_node (delete_node c "B") "B" = false ∧
  inbound_edges_count (delete_node c "B") "B" = 0 ∧
  edge_degree (delete_node c "B") "A" "C" = 1.
Proof.
  intros c.
  assert (unique_ids c) as Huniq.
  { unfold unique_ids, c. simpl. repeat (apply NoDup_cons; split);
      [| |by intros ?%elem_of_nil|apply NoDup_nil_2];
      intros Hin; repeat (apply elem_of_cons in Hin as [Hin|Hin]; [done|]);
      by apply elem_of_nil in Hin. }
  destruct (delete_node_cascades c "B" Huniq) as (H1 & H2 & _ & _ & H5).
  split; [reflexivity|]. split; [exact H1|]. split; [exact H2|].
  rewrite H5 by done. reflexivity.
Defined.

Lemma delete_many_find (ns : list string) (c : collection) x :
  find_one x (Mongo.delete_many node_has_id ns c)
  = if decide (x ∈ ns) then None else find_one x c.
Proof.
  unfold Mongo.delete_many, find_one. destruct (decide (x ∈ ns)).
  - apply MongoFacts.find_one_filter_drop. intros d Hd Hnot. apply Hnot.
    apply Exists_exists. by exists x.
  - apply MongoFacts.find_one_filter_keep. intros d Hd Hex.
    apply Exists_exists in Hex as (y & Hy & Hd').
    unfold node_has_id in *. congruence.
Qed.

(** X12. After [remove_nodes], none of the listed nodes is stored and
    no edge of any document goes to one of them; every other node is
    stored as before, without its edges to the listed nodes.  The empty
    list changes nothing. *)
Theorem remove_nodes_cascades c ns :
  remove_nodes c [] = c ∧
  (∀ x, find_one x (remove_nodes c ns)
        = if decide (x ∈ ns) then None else op_pull_in ns <$> find_one x c) ∧
  (∀ x, x ∈ ns → inbound_edges_count (remove_nodes c ns) x = 0).
Proof.
  split; [done|]. unfold remove_nodes. destruct ns as [|n ns].
  { split; [|by intros x ?%elem_of_nil]. intros x.
    rewrite decide_False by apply not_elem_of_nil.
    destruct (find_one x c) as [[i f [es|]]|]; try done. simpl.
    unfold op_pull_in. simpl. f_equal. f_equal. f_equal.
    induction es as [|e es IH]; [done|].
    rewrite filter_cons_True; [by rewrite <-IH|]. by intros ?%Exists_nil. }
  split.
  - intros x. rewrite delete_many_find. destruct (decide _); [done|].
    apply find_one_update_many. intros d j. apply op_pull_in_id.
  - intros x Hx. apply inbound_zero. intros d Hd.
    unfold Mongo.delete_many in Hd. apply list_elem_of_filter in Hd as [_ Hd].
    apply list_elem_of_fmap in Hd as (d0 & -> & _).
    by apply op_pull_in_no_target.
Qed.

Lemma remove_nodes_cascades_witness :
  let c := [ NodeDoc "A" ∅ (Some [ {[ "target" := "B" ]}; {[ "target" := "C" ]} ]);
             NodeDoc "B" ∅ (Some []);
             NodeDoc "C" ∅ (Some []) ] in
  inbound_edges_count (remove_nodes c ["B"; "C"]) "C" = 0 ∧
  find_one "A" (remove_nodes c ["B"; "C"]) = Some (NodeDoc "A" ∅ (Some [])).
Proof.
  intros c.
  destruct (remove_nodes_cascades c ["B"; "C"]) as (_ & H2 & H3).
  split; [apply H3; right; left|]. rewrite H2. reflexivity.
Defined.

(** ** [get_all_labels] *)

(** X13. [get_all_labels] lists the ids of the stored nodes, each
    once, in ascending order. *)
Theorem all_labels_sorted_ids c :
  Sorted String.le (get_all_labels c) ∧
  NoDup (get_all_labels c) ∧
  ∀ x, x ∈ get_all_labels c ↔ has_node c x = true.
Proof.
  unfold get_all_labels. split; [apply (Sorted_merge_sort String.le)|].
  split.
  - rewrite merge_sort_Permutation. apply NoDup_remove_dups.
  - intros x. rewrite merge_sort_Permutation, elem_of_remove_dups.
    rewrite list_elem_of_fmap, has_node_true. split.
    + intros (d & -> & Hd). by exists d.
    + intros (d & Hd & <-). by exists d.
Qed.

(** ** The bounded expansion *)

Lemma graphLookup_levels_sound c start levels depth visited frontier d k :
  (∀ t, t ∈ frontier → reach c start (S depth) t) →
  (d, k) ∈ graphLookup_levels c levels depth visited frontier →
  d ∈ c ∧ depth ≤ k < depth + levels ∧ reach c start (S k) (_id d).
Proof.
  revert depth visited frontier.
  induction levels as [|levels IH]; intros depth visited frontier Hfr; simpl.
  { by intros ?%elem_of_nil. }
  intros [Hin|Hin]%elem_of_app.
  - apply list_elem_of_fmap in Hin as (d' & [= -> ->] & Hd').
    apply list_elem_of_filter in Hd' as [[Ht _] Hd'].
    split; [done|]. split; [lia|]. by apply Hfr.
  - apply IH in Hin as (Hd & Hk & Hreach); [split; [done|]; split; [lia|done]|].
    intros t Ht. apply list_elem_of_bind in Ht as (v & Ht & Hv).
    apply list_elem_of_filter in Hv as [[Hvf _] Hv].
    eapply reach_next; [by apply Hfr|exact Hv|done|exact Ht].
Qed.

(** A stored document whose id is in the new visited set was visited
    before or is found at this level. *)
Lemma visited_or_found (c : collection) (visited : gset string)
    (frontier : list string) (d : node_doc) :
  d ∈ c →
  _id d ∈ visited ∪
          list_to_set (_id <$> filter (λ d, _id d ∈ frontier ∧ _id d ∉ visited) c) →
  _id d ∈ visited ∨
  d ∈ filter (λ d, _id d ∈ frontier ∧ _id d ∉ visited) c.
Proof.
  intros Hd [Hv|Hf]%elem_of_union; [by left|].
  apply elem_of_list_to_set, list_elem_of_fmap in Hf as (d' & Heq & Hd').
  apply list_elem_of_filter in Hd' as [Hp _]. right.
  apply list_elem_of_filter. split; [by rewrite Heq|done].
Qed.

Lemma graphLookup_levels_first c levels depth visited frontier d :
  _id d ∈ frontier → d ∈ c →
  _id d ∈ visited ∨
  (d, depth) ∈ graphLookup_levels c (S levels) depth visited frontier.
Proof.
  intros Ht Hd. destruct (decide (_id d ∈ visited)) as [Hv|Hv]; [by left|].
  right. simpl. apply elem_of_app. left.
  apply list_elem_of_fmap. exists d. split; [done|].
  by apply list_elem_of_filter.
Qed.

(** The documents that a found document points to are found one level
    later at the latest, unless the found one is at the last level. *)
Lemma graphLookup_levels_next c levels depth visited frontier v k d :
  (v, k) ∈ graphLookup_levels c levels depth visited frontier →
  S k < depth + levels → _id d ∈ edge_targets v → d ∈ c →
  _id d ∈ visited ∨
  ∃ k', k' ≤ S k ∧ (d, k') ∈ graphLookup_levels c levels depth visited frontier.
Proof.
  revert depth visited frontier.
  induction levels as [|levels IH]; intros depth visited frontier; simpl.
  { by intros ?%elem_of_nil. }
  set (found := filter (λ d, _id d ∈ frontier ∧ _id d ∉ visited) c).
  intros Hv Hk Ht Hd.
  assert (_id d ∈ visited ∪ list_to_set (_id <$> found) →
          _id d ∈ visited ∨
          ∃ k', k' ≤ depth ∧
                (d, k') ∈ ((λ d, (d, depth)) <$> found) ++
                          graphLookup_levels c levels (S depth)
                            (visited ∪ list_to_set (_id <$> found))
                            (found ≫= edge_targets)) as Hnow.
  { intros Hin. destruct (visited_or_found c visited frontier d Hd Hin)
      as [?|Hf]; [by left|]. right. exists depth. split; [done|].
    apply elem_of_app. left. apply list_elem_of_fmap. by exists d. }
  apply elem_of_app in Hv as [Hv|Hv].
  - apply list_elem_of_fmap in Hv as (v' & [= -> ->] & Hv').
    destruct levels as [|levels]; [lia|].
    destruct (graphLookup_levels_first c levels (S depth)
                (visited ∪ list_to_set (_id <$> found))
                (found ≫= edge_targets) d) as [Hin|Hin]; [|done| |].
    + apply list_elem_of_bind. by exists v'.
    + destruct (Hnow Hin) as [?|(k' & Hk' & Hdk')]; [by left|].
      right. exists k'. split; [lia|done].
    + right. exists (S depth). split; [done|]. apply elem_of_app. by right.
  - pose proof (graphLookup_levels_elem _ _ _ _ _ _ _ Hv) as Hvc.
    assert (S depth ≤ k) as Hdepth.
    { clear -Hv. revert Hv. generalize (S depth) as dp.
      generalize (visited ∪ list_to_set (_id <$> found)) as vs.
      generalize (found ≫= edge_targets) as fr.
      induction levels as [|levels IHl]; intros fr vs dp; simpl.
      - by intros ?%elem_of_nil.
      - intros [Hin|Hin]%elem_of_app.
        + by apply list_elem_of_fmap in Hin as (? & [= _ ->] & _).
        + apply IHl in Hin. lia. }
    destruct (IH _ _ _ Hv) as [Hin|(k' & Hk' & Hdk')]; [lia|done|done| |].
    + destruct (Hnow Hin) as [?|(k' & Hk' & Hdk')]; [by left|].
      right. exists k'. split; [lia|done].
    + right. exists k'. split; [done|]. apply elem_of_app. by right.
Qed.

Lemma graphLookup_reach c start maxDepth :
  (∀ d k, (d, k) ∈ graphLookup c start maxDepth →
     d ∈ c ∧ k ≤ maxDepth ∧ reach c start (S k) (_id d)) ∧
  (∀ n d, reach c start n (_id d) → d ∈ c → n ≤ S maxDepth →
     ∃ k, k < n ∧ (d, k) ∈ graphLookup c start maxDepth).
Proof.
  unfold graphLookup. split.
  - intros d k Hin.
    apply (graphLookup_levels_sound c start) in Hin as (Hd & Hk & Hr);
      [split; [done|]; split; [lia|done]|].
    intros t Ht. by apply reach_first.
  - intros n d Hreach. remember (_id d) as t eqn:Ht. revert d Ht.
    induction Hreach as [t Hfirst|n t' v t Hreach IH Hv Hvt Hvd];
      intros d -> Hd Hn.
    + destruct (graphLookup_levels_first c maxDepth 0 ∅ (edge_targets start) d)
        as [Hin|Hin]; [done|done|by apply not_elem_of_empty in Hin|].
      exists 0. split; [lia|done].
    + destruct (IH v (eq_sym Hvt) Hv) as (k & Hk & Hvk); [lia|].
      destruct (graphLookup_levels_next c (S maxDepth) 0 ∅
                  (edge_targets start) v k d Hvk)
        as [Hin|(k' & Hk' & Hdk')]; [lia|done|done| |].
      * by apply not_elem_of_empty in Hin.
      * exists k'. split; [lia|done].
Qed.

(** X14. [$graphLookup] from a start document with [maxDepth] [m], as
    issued by [get_knowledge_graph], returns exactly the stored
    documents that are within [m + 1] hops of the start along stored
    documents, each with a depth below the number of hops. *)
Theorem graphLookup_within_hops c start maxDepth :
  (∀ d k, (d, k) ∈ graphLookup c start maxDepth →
     d ∈ c ∧ k ≤ maxDepth ∧ reach c start (S k) (_id d)) ∧
  (∀ n d, reach c start n (_id d) → d ∈ c → n ≤ S maxDepth →
     ∃ k, k < n ∧ (d, k) ∈ graphLookup c start maxDepth).
Proof. apply graphLookup_reach. Qed.

(** A chain A→B→C→D: [maxDepth] 1 reaches B and C, not D. *)
Lemma graphLookup_within_hops_witness :
  let to t : edge := {[ "target" := t ]} in
  let a := NodeDoc "A" ∅ (Some [to "B"]) in
  let cd := NodeDoc "C" ∅ (Some [to "D"]) in
  let c := [ a; NodeDoc "B" ∅ (Some [to "C"]); cd; NodeDoc "D" ∅ (Some []) ] in
  ∃ k, k < 2 ∧ (cd, k) ∈ graphLookup c a 1.
Proof.
  intros to a cd c.
  apply (proj2 (graphLookup_within_hops c a 1) 2 cd).
  - eapply (reach_next c a 1 "B" (NodeDoc "B" ∅ (Some [to "C"])) "C").
    + apply reach_first. by left.
    + right; left.
    + reflexivity.
    + by left.
  - do 2 right; left.
  - lia.
Defined.

(** ** The nodes of a bounded subgraph *)

Lemma visit_seen_exact excluded w d w' :
  visit excluded w d = Returns w' → seen_nodes w' = seen_nodes w ∪ {[ _id d ]}.
Proof.
  unfold visit. destruct (decide _) as [Hseen|Hnew].
  - intros [= <-]. apply set_eq. intros x.
    rewrite elem_of_union, elem_of_singleton. split; [by left|].
    by intros [?| ->].
  - intros Hes. destruct (add_edges_grow _ _ _ _ Hes) as (_ & -> & _ & _).
    simpl. apply (comm_L (∪)).
Qed.

Lemma foldM_collects_exact {A B} (f : B → A → outcome B)
    (seen : B → gset string) (key : A → string) l b b' :
  (∀ b a b', f b a = Returns b' → seen b' = seen b ∪ {[ key a ]}) →
  foldM f b l = Returns b' → seen b' = seen b ∪ list_to_set (key <$> l).
Proof.
  intros Hf. revert b. induction l as [|a l IH]; intros b; simpl.
  - intros [= <-]. by rewrite (right_id_L ∅ (∪)).
  - destruct (f b a) as [b1|] eqn:Hb1; simpl; [|done].
    intros Hl. rewrite (IH _ Hl), (Hf _ _ _ Hb1).
    by rewrite (assoc_L (∪)).
Qed.

Lemma expand_seen_exact w start connected_nodes w' :
  expand w (start, connected_nodes) = Returns w' →
  seen_nodes w'
  = seen_nodes w ∪ {[ _id start ]} ∪
    list_to_set ((λ dn, _id dn.1) <$> connected_nodes).
Proof.
  unfold expand.
  destruct (foldM (add_edge (_id start)) _ (get_edges start))
    as [w2|] eqn:Hw2; simpl; [|done].
  intros Hvisit.
  destruct (add_edges_grow _ _ _ _ Hw2) as (_ & Hs2 & _ & _).
  rewrite (foldM_collects_exact (visit _) seen_nodes _id _ _ _
             (visit_seen_exact _) Hvisit), Hs2.
  rewrite <-list_fmap_compose. f_equal.
  destruct (decide _) as [Hseen|Hnew]; simpl.
  - apply set_eq. intros x. rewrite elem_of_union, elem_of_singleton.
    split; [by left|]. by intros [?| ->].
  - apply (comm_L (∪)).
Qed.

Lemma unique_filter (c : collection) i d :
  unique_ids c → find_one i c = Some d → filter (node_has_id i) c = [d].
Proof.
  unfold unique_ids, find_one. induction c as [|x c IH]; [done|].
  rewrite fmap_cons. intros [Hx Hnd]%NoDup_cons. simpl.
  destruct (decide (node_has_id i x)) as [Hi|Hi].
  - intros [= ->]. rewrite filter_cons_True by done. f_equal.
    apply filter_nil_not_Exists. intros Hex.
    apply Exists_exists in Hex as (y & Hy & Hiy). apply Hx.
    rewrite Hi, <-Hiy. by apply list_elem_of_fmap_2.
  - intros Hf. rewrite filter_cons_False by done. by apply IH.
Qed.

(** X15. For a stored start label other than ["*"], in a collection
    without repeated ids and with a depth that is not negative, the
    nodes of the returned subgraph are the start node and the stored
    nodes within [max_depth + 1] hops of it: with [max_depth] 0 the
    direct neighbours are included. *)
Theorem bounded_subgraph_nodes c label start max_depth kg :
  unique_ids c → label ≠ "*" → find_one label c = Some start →
  (0 ≤ max_depth)%Z →
  get_knowledge_graph c label max_depth = Returns kg →
  ∀ x, x ∈ n_id <$> nodes kg ↔
       x = label ∨
       (has_node c x = true ∧
        ∃ n, n ≤ S (Z.to_nat max_depth) ∧ reach c start n x).
Proof.
  intros Huniq Hstar Hstart Hdepth. unfold get_knowledge_graph.
  rewrite decide_False by done. rewrite Hstart.
  rewrite decide_False by lia. rewrite (unique_filter _ _ _ Huniq Hstart).
  rewrite fmap_cons, fmap_nil. cbn [foldM].
  destruct (expand start_walk (start, graphLookup c start (Z.to_nat max_depth)))
    as [w|] eqn:Hw; [|done].
  intros [= <-] x.
  pose proof (expand_inv _ _ _ Hw walk_inv_start) as [_ Hsn _ _ _].
  rewrite <-Hsn, (expand_seen_exact _ _ _ _ Hw). simpl.
  apply MongoFacts.find_one_Some in Hstart as [Hin Hid].
  rewrite (left_id_L ∅ (∪)), elem_of_union, elem_of_singleton, Hid.
  rewrite elem_of_list_to_set, list_elem_of_fmap.
  destruct (graphLookup_reach c start (Z.to_nat max_depth)) as [Hsound Hcompl].
  split.
  - intros [->|([d k] & -> & Hdk)]; [by left|]. right.
    destruct (Hsound d k Hdk) as (Hd & Hk & Hr). split.
    + apply has_node_true. by exists d.
    + exists (S k). split; [lia|done].
  - intros [->|(Hn & n & Hle & Hr)]; [by left|]. right.
    apply has_node_true in Hn as (d & Hd & <-).
    destruct (Hcompl n d Hr Hd Hle) as (k & _ & Hdk).
    by exists (d, k).
Qed.

(** The chain A→B→C→D with [max_depth] 1: A, B and C. *)
Lemma bounded_subgraph_nodes_witness :
  let to t : edge := {[ "target" := t ]} in
  let a := NodeDoc "A" ∅ (Some [to "B"]) in
  let c := [ a; NodeDoc "B" ∅ (Some [to "C"]); NodeDoc "C" ∅ (Some [to "D"]);
             NodeDoc "D" ∅ (Some []) ] in
  ∃ kg, get_knowledge_graph c "A" 1 = Returns kg ∧
        n_id <$> nodes kg = ["A"; "B"; "C"] ∧
        ("C" ∈ n_id <$> nodes kg ↔
         "C" = "A" ∨ (has_node c "C" = true ∧
                      ∃ n, n ≤ 2 ∧ reach c a n "C")).
Proof.
  intros to a c. eexists. split; [reflexivity|]. split; [reflexivity|].
  apply (bounded_subgraph_nodes c "A" a 1); try done.
  unfold unique_ids, c. simpl.
  repeat (apply NoDup_cons; split); try apply NoDup_nil_2;
    intros Hin; repeat (apply elem_of_cons in Hin as [Hin|Hin]; [done|]);
    by apply elem_of_nil in Hin.
Defined.

(** ** [get_node_edges] *)

Lemma edge_pairs_Returns (s : string) (es : list edge) :
  Forall (λ e : edge, is_Some (e !! "target")) es →
  mapM (λ e : edge,
          match e !! "target" with
          | Some t => Returns (s, t)
          | None => Raises KeyError
          end) es
  = Returns ((λ t, (s, t)) <$> omap (λ e : edge, e !! "target") es).
Proof.
  induction 1 as [|e es [t Ht] Hes IH]; [done|].
  change (mapM ?f (e :: es)) with (y ← f e; k ← mapM f es; Returns (y :: k)).
  rewrite IH. simpl. by rewrite Ht.
Qed.

Lemma count_pairs_targets (s t : string) (es : list edge) :
  length (filter (λ p : string * string, p.2 = t)
                 ((λ t', (s, t')) <$> omap (λ e : edge, e !! "target") es))
  = length (filter (targets t) es).
Proof.
  induction es as [|e es IH]; [done|]. cbn [omap list_omap].
  destruct (e !! "target") as [t'|] eqn:He.
  - rewrite fmap_cons. destruct (decide (t' = t)) as [->|Hne].
    + rewrite filter_cons_True by done.
      rewrite (filter_cons_True (targets t)) by done.
      cbn [length]. by rewrite IH.
    + rewrite filter_cons_False by done.
      rewrite (filter_cons_False (targets t)); [done|].
      unfold targets. congruence.
  - rewrite (filter_cons_False (targets t)); [done|].
    unfold targets. congruence.
Qed.

(** X20. [get_node_edges] returns [None] exactly for a node that is
    not stored.  For a stored node whose edges all have a target it
    returns one pair per edge, in the order of the edges, and the number
    of pairs to a target is the [edge_degree] of the two nodes; an edge
    without a target makes it raise [KeyError]. *)
Theorem get_node_edges_pairs c source_node_id :
  (get_node_edges c source_node_id = Returns None ↔
   has_node c source_node_id = false) ∧
  (∀ d, find_one source_node_id c = Some d →
     (Forall (λ e : edge, is_Some (e !! "target")) (get_edges d) →
      ∃ pairs,
        get_node_edges c source_node_id = Returns (Some pairs) ∧
        pairs = (λ t, (source_node_id, t)) <$> edge_targets d ∧
        length pairs = length (get_edges d) ∧
        ∀ t, length (filter (λ p : string * string, p.2 = t) pairs)
             = edge_degree c source_node_id t) ∧
     (Exists (λ e : edge, e !! "target" = None) (get_edges d) →
      get_node_edges c source_node_id = Raises KeyError)).
Proof.
  unfold get_node_edges, has_node, edge_degree. split.
  - destruct (find_one source_node_id c) as [d|] eqn:Hd.
    + split.
      * destruct (mapM _ (get_edges d)); simpl; done.
      * intros Hf%bool_decide_eq_false. destruct Hf. by eexists.
    + split; [|done]. intros _. apply bool_decide_eq_false. by intros [? ?].
  - intros d ->. split.
    + intros Hall. rewrite (edge_pairs_Returns _ _ Hall). simpl.
      eexists. split; [done|]. split; [done|]. split.
      * rewrite length_fmap. unfold edge_targets.
        clear -Hall. induction Hall as [|e es [t Ht] Hes IH]; [done|].
        simpl. rewrite Ht. simpl. f_equal. exact IH.
      * intros t. apply count_pairs_targets.
    + intros Hex. rewrite (mapM_Raises _ KeyError); [done| |].
      * intros e e' _. destruct (e !! "target"); [done|]. by intros [= <-].
      * apply Exists_exists in Hex as (e & He & Hnone).
        exists e. split; [done|]. by rewrite Hnone.
Qed.

(** A node with two edges to B and one to C. *)
Lemma get_node_edges_pairs_witness :
  let to t : edge := {[ "target" := t ]} in
  let a := NodeDoc "A" ∅ (Some [to "B"; to "C"; to "B"]) in
  let c := [ a; NodeDoc "B" ∅ None ] in
  ∃ pairs,
    get_node_edges c "A" = Returns (Some pairs) ∧
    pairs = (λ t, ("A", t)) <$> edge_targets a ∧
    length pairs = length (get_edges a) ∧
    ∀ t, length (filter (λ p : string * string, p.2 = t) pairs)
         = edge_degree c "A" t.
Proof.
  intros to a c.
  apply (proj1 (proj2 (get_node_edges_pairs c "A") a eq_refl)).
  repeat constructor; by eexists.
Defined.

(** ** The edges of a subgraph *)

Lemma add_edges_stored c d es w w' :
  d ∈ c → (∀ e, e ∈ es → e ∈ get_edges d) → _id d ∈ seen_nodes w →
  foldM (add_edge (_id d)) w es = Returns w' →
  edges_stored c w → edges_stored c w'.
Proof.
  intros Hd Hes Hseen Hfold Hw.
  enough (edges_stored c w' ∧ _id d ∈ seen_nodes w') as [? _] by done.
  eapply (foldM_invariant_elem (add_edge (_id d))
            (λ w, edges_stored c w ∧ _id d ∈ seen_nodes w));
    [|exact Hfold|by split].
  clear Hfold Hw Hseen w w'. intros w e w' He. unfold add_edge.
  destruct (e !! "target") as [tgt|] eqn:Htgt; [|done].
  destruct (decide _) as [Hold|Hnew]; intros [= <-]; [done|].
  intros [Hw Hseen]. split; [|done].
  intros x. simpl. intros [Hx|Hx]%elem_of_app; [by apply Hw|].
  apply list_elem_of_singleton in Hx as ->. simpl. split; [done|].
  exists d, e. repeat split; try done. by apply Hes.
Qed.

Lemma add_node_stored excluded c d w :
  edges_stored c w → edges_stored c (add_node excluded d w).
Proof.
  intros Hw e He. destruct (Hw e He) as [Hs Hrest]. split; [|done].
  simpl. by apply elem_of_union_r.
Qed.

Lemma visit_stored excluded c w d w' :
  d ∈ c → visit excluded w d = Returns w' →
  edges_stored c w → edges_stored c w'.
Proof.
  intros Hd. unfold visit. destruct (decide _) as [Hseen|Hnew].
  - by intros [= <-].
  - intros Hfold Hw. eapply (add_edges_stored c d); [done|done| |exact Hfold|].
    + simpl. apply elem_of_union_l. by apply elem_of_singleton.
    + by apply add_node_stored.
Qed.

Lemma expand_stored c w start connected_nodes w' :
  start ∈ c → (∀ dn, dn ∈ connected_nodes → dn.1 ∈ c) →
  expand w (start, connected_nodes) = Returns w' →
  edges_stored c w → edges_stored c w'.
Proof.
  intros Hstart Hconn. unfold expand.
  destruct (foldM (add_edge (_id start)) _ (get_edges start))
    as [w2|] eqn:Hw2; simpl; [|done].
  intros Hvisit Hw.
  eapply (foldM_invariant_elem (visit _)); [|exact Hvisit|].
  - intros w3 d w4 Hd. apply visit_stored.
    apply list_elem_of_fmap in Hd as (dn & -> & Hdn). by apply Hconn.
  - eapply (add_edges_stored c start); [done|done| |exact Hw2|].
    + destruct (decide _) as [Hseen|Hnew]; [done|].
      simpl. apply elem_of_union_l. by apply elem_of_singleton.
    + destruct (decide _); [done|by apply add_node_stored].
Qed.

(** X22. Every edge of a returned subgraph leaves a node of the
    subgraph and is stored: the document of its source has an edge with
    its target and, as relation, its type (empty when the stored edge
    has none).  Nothing is said of the target: it need not be among the
    nodes. *)
Theorem subgraph_edges_stored c label max_depth kg :
  get_knowledge_graph c label max_depth = Returns kg →
  ∀ e, e ∈ kg_edges kg →
    e_source e ∈ n_id <$> nodes kg ∧
    ∃ d ed, d ∈ c ∧ _id d = e_source e ∧ ed ∈ get_edges d ∧
            ed !! "target" = Some (e_target e) ∧
            e_type e = default "" (ed !! "relation").
Proof.
  intros Hkg.
  enough (∃ w, walk_inv w ∧ edges_stored c w ∧ kg = result w)
    as (w & [_ Hsn _ _ _] & Hst & ->).
  { intros e He. destruct (Hst e He) as [Hs Hrest]. split; [|done].
    by apply Hsn. }
  assert (edges_stored c start_walk) as Hstart
    by (by intros e ?%elem_of_nil).
  revert Hkg. unfold get_knowledge_graph.
  destruct (decide (label = "*")) as [Hstar|Hstar].
  - destruct (foldM _ start_walk c) as [w|] eqn:Hw; simpl; [|done].
    intros [= <-]. exists w. split; [|split; [|done]].
    + eapply (foldM_invariant (visit _)); [|exact Hw|apply walk_inv_start].
      intros ???. apply visit_inv.
    + eapply (foldM_invariant_elem (visit _)); [|exact Hw|exact Hstart].
      intros ????. by apply visit_stored.
  - destruct (find_one label c) as [d0|] eqn:Hfound.
    2:{ intros [= <-]. exists start_walk. by split; [apply walk_inv_start|]. }
    destruct (decide _) as [Hneg|Hpos].
    { intros [= <-]. exists start_walk. by split; [apply walk_inv_start|]. }
    destruct (foldM expand start_walk _) as [w|] eqn:Hw; simpl; [|done].
    intros [= <-]. exists w. split; [|split; [|done]].
    + eapply (foldM_invariant expand); [|exact Hw|apply walk_inv_start].
      intros ???. apply expand_inv.
    + eapply (foldM_invariant_elem expand); [|exact Hw|exact Hstart].
      intros w1 doc w2 Hdoc.
      apply list_elem_of_fmap in Hdoc as (d & -> & Hd).
      apply list_elem_of_filter in Hd as [_ Hd].
      apply expand_stored; [done|].
      intros [d' n]. apply graphLookup_levels_elem.
Qed.

(** The chain A→B→C→D with [max_depth] 1: the edge C→D is in the
    result, D is not among the nodes. *)
Lemma subgraph_edges_stored_witness :
  let to t : edge := {[ "target" := t ]} in
  let c := [ NodeDoc "A" ∅ (Some [to "B"]); NodeDoc "B" ∅ (Some [to "C"]);
             NodeDoc "C" ∅ (Some [to "D"]); NodeDoc "D" ∅ (Some []) ] in
  let cd := KGEdge "C-D" "" "C" "D" ∅ in
  ∃ kg, get_knowledge_graph c "A" 1 = Returns kg ∧
        cd ∈ kg_edges kg ∧ "C" ∈ n_id <$> nodes kg ∧
        ¬ ("D" ∈ n_id <$> nodes kg).
Proof.
  intros to c cd. eexists. split; [reflexivity|].
  assert (cd ∈ kg_edges
            (KG [KGNode "A" ["A"] ∅; KGNode "B" ["B"] ∅; KGNode "C" ["C"] ∅]
                [KGEdge "A-B" "" "A" "B" ∅; KGEdge "B-C" "" "B" "C" ∅; cd]))
    as Hcd by (do 2 right; left).
  split; [exact Hcd|]. split.
  - exact (proj1 (subgraph_edges_stored c "A" 1 _ eq_refl cd Hcd)).
  - intros Hin. repeat (apply elem_of_cons in Hin as [Hin|Hin]; [done|]).
    by apply elem_of_nil in Hin.
Defined.

End MongoGraphStorageFacts.

(* ================================================================== *)
(** * Properties of MongoVectorDBStorage                               *)
(* ================================================================== *)

Module MongoVectorDBStorageFacts.
Import MongoVectorDBStorage OutcomeFacts ListFacts.

Lemma score_gte_spec t d :
  score_gte t d = true ↔ ∃ s, d !! "score" = Some (VNum s) ∧ (t <= s)%Q.
Proof.
  unfold score_gte. destruct (d !! "score") as [[| | |s|]|]; try (split; [done|]);
    try (by intros (s' & [=] & _)).
  rewrite Qle_bool_iff. split; [by exists s|]. by intros (s' & [= <-] & Hs).
Qed.

(** ** Batches *)

(** The [j]-th batch is the [j]-th slice of the contents. *)
Lemma make_batches_lookup {A} (size : nat) (l : list A) j :
  0 < size → j * size < length l →
  make_batches size l !! j = Some (take size (drop (j * size) l)).
Proof.
  intros Hsize Hj. unfold make_batches, range_step.
  rewrite !list_lookup_fmap, lookup_seq_lt; [done|].
  apply Nat.div_le_lower_bound; lia.
Qed.

(** In a concatenation of blocks of which the first [j] have length
    [size], position [j * size + r] is position [r] of block [j]. *)
Lemma concat_lookup_block {A} (size : nat) (blocks : list (list A)) j r b :
  (∀ j' b', j' < j → blocks !! j' = Some b' → length b' = size) →
  blocks !! j = Some b → r < length b →
  concat blocks !! (j * size + r) = b !! r.
Proof.
  revert blocks. induction j as [|j IH]; intros blocks Hfull Hb Hr.
  - destruct blocks as [|b0 bs]; [done|]. injection Hb as ->. simpl.
    by apply lookup_app_l.
  - destruct blocks as [|b0 bs]; [done|]. simpl in Hb.
    assert (length b0 = size) as Hb0 by (apply (Hfull 0); [lia|done]).
    simpl concat. rewrite lookup_app_r by lia.
    replace (S j * size + r - length b0) with (j * size + r) by lia.
    apply IH; [|done..]. intros j' b' Hj' Hb'. apply (Hfull (S j')); [lia|done].
Qed.

Lemma batch_length {A} (size : nat) (l : list A) j :
  (j + 1) * size ≤ length l → length (take size (drop (j * size) l)) = size.
Proof. intros Hj. rewrite length_take, length_drop. lia. Qed.

(** Position [i] of the concatenated embeddings, for an embedding
    function that gives one row per text. *)
Lemma embeddings_lookup {A R} (embed : list A → list R) (size : nat)
    (contents : list A) i :
  (∀ batch, length (embed batch) = length batch) →
  0 < size → i < length contents →
  ∃ batch content row,
    make_batches size contents !! (i / size) = Some batch ∧
    length batch ≤ size ∧
    batch !! (i mod size) = Some content ∧
    contents !! i = Some content ∧
    embed batch !! (i mod size) = Some row ∧
    concat (embed <$> make_batches size contents) !! i = Some row.
Proof.
  intros Hrows Hsize Hi.
  pose proof (Nat.div_mod_eq i size) as Hdm.
  pose proof (Nat.mod_upper_bound i size ltac:(lia)) as Hr.
  set (j := i / size) in *. set (r := i mod size) in *.
  set (batch := take size (drop (j * size) contents)).
  assert (j * size ≤ i) as Hji by lia.
  assert (make_batches size contents !! j = Some batch) as Hbatch
    by (apply make_batches_lookup; lia).
  assert (batch !! r = contents !! i) as Hbr.
  { unfold batch. rewrite lookup_take_lt, lookup_drop by done. f_equal. lia. }
  destruct (lookup_lt_is_Some_2 contents i Hi) as [content Hcontent].
  assert (r < length batch) as Hrb.
  { apply lookup_lt_is_Some. rewrite Hbr, Hcontent. by eexists. }
  destruct (lookup_lt_is_Some_2 (embed batch) r) as [row Hrow];
    [by rewrite Hrows|].
  exists batch, content, row. split; [done|].
  split; [unfold batch; rewrite length_take; lia|].
  split; [by rewrite Hbr|]. split; [done|]. split; [done|].
  replace i with (j * size + r) at 1 by lia. rewrite <-Hrow.
  apply concat_lookup_block.
  - intros j' b' Hj' Hb'. rewrite list_lookup_fmap in Hb'.
    rewrite make_batches_lookup in Hb' by nia. injection Hb' as <-.
    rewrite Hrows. apply batch_length. nia.
  - by rewrite list_lookup_fmap, Hbatch.
  - by rewrite Hrows.
Qed.

Section Store.
Variable embedding_func : list value → list (list Q).
Variable float32 : Q → Q.
Variable vectorSearch : collection → list Q → Z → list (record * Q).
Variable self : settings.

(** C6. When the embedding of the query text has a row, [query]
    returns, and each result comes from a document [d] the search
    operator gave with a score [s] that is at least the configured
    threshold: the result has no [vector] field, has [s] as [distance]
    and [score], the document's [_id] as [id], its [created_at], and
    the document's other fields unchanged.  Only such hits are
    returned, also when they are fewer than [top_k]. *)
Theorem query_threshold_and_fields c q top_k query_vector rest :
  embedding_func [q] = query_vector :: rest →
  (∀ d s, (d, s) ∈ vectorSearch c query_vector top_k → is_Some (d !! "_id")) →
  ∃ results,
    query embedding_func vectorSearch self c q top_k = Returns results ∧
    length results
    = length (filter (λ h : record * Q,
                        Qle_bool (cosine_better_than_threshold self) h.2 = true)
                     (vectorSearch c query_vector top_k)) ∧
    ∀ r, r ∈ results →
      ∃ d s,
        (d, s) ∈ vectorSearch c query_vector top_k ∧
        (cosine_better_than_threshold self <= s)%Q ∧
        r !! "vector" = None ∧
        r !! "distance" = Some (VNum s) ∧
        r !! "score" = Some (VNum s) ∧
        r !! "id" = d !! "_id" ∧
        r !! "created_at" = Some (default VNone (d !! "created_at")) ∧
        ∀ k, k ∉ ["vector"; "distance"; "score"; "id"; "created_at"] →
             r !! k = d !! k.
Proof.
  intros Hemb Hids. unfold query. rewrite Hemb.
  set (t := cosine_better_than_threshold self).
  set (hits := vectorSearch c query_vector top_k) in *.
  set (scored := (λ '(d, s), <["score" := VNum s]> d) <$> hits).
  set (projected := delete "vector" <$> filter (λ d, score_gte t d = true) scored).
  assert (∀ doc, doc ∈ projected →
            ∃ d s, (d, s) ∈ hits ∧ (t <= s)%Q ∧
                   doc = delete "vector" (<["score" := VNum s]> d)) as Hproj.
  { intros doc Hdoc. unfold projected in Hdoc.
    apply list_elem_of_fmap in Hdoc as (d1 & -> & Hd1).
    apply list_elem_of_filter in Hd1 as [Hge Hd1].
    apply list_elem_of_fmap in Hd1 as ([d s] & -> & Hd).
    exists d, s. split; [done|]. split; [|done].
    apply score_gte_spec in Hge as (s' & Hs' & Hle).
    rewrite lookup_insert_eq in Hs'. by simplify_eq. }
  edestruct (mapM_total
    (λ doc : record,
       match doc !! "_id" with
       | None => Raises KeyError
       | Some id =>
           Returns
             (<["created_at" := default VNone (doc !! "created_at")]>
                (<["distance" := default VNone (doc !! "score")]>
                   (<["id" := id]> doc)))
       end) projected) as [results Hres].
  { intros doc Hdoc. destruct (Hproj doc Hdoc) as (d & s & Hd & _ & ->).
    destruct (Hids d s Hd) as [i Hi].
    rewrite lookup_delete_ne, lookup_insert_ne, Hi by done. by eexists. }
  exists results. split; [exact Hres|].
  apply mapM_Returns in Hres. split.
  - rewrite <-(Forall2_length _ _ _ Hres). unfold projected.
    rewrite length_fmap. unfold scored.
    apply filter_fmap_length. intros [d s]. simpl.
    rewrite score_gte_spec, lookup_insert_eq, Qle_bool_iff.
    split; [by intros (s' & [= <-] & Hs)|by exists s].
  - intros r Hr. apply list_elem_of_lookup in Hr as [i Hi].
    destruct (Forall2_lookup_r _ _ _ _ _ Hres Hi) as (doc & Hdoc & Hfmt).
    apply list_elem_of_lookup_2 in Hdoc.
    destruct (Hproj doc Hdoc) as (d & s & Hd & Hle & ->).
    exists d, s. split; [done|]. split; [done|].
    destruct (Hids d s Hd) as [id Hid].
    rewrite lookup_delete_ne, lookup_insert_ne, Hid in Hfmt by done.
    injection Hfmt as <-.
    split; [by simplify_map_eq|]. split; [by simplify_map_eq|].
    split; [by simplify_map_eq|]. split; [by simplify_map_eq|].
    split; [by simplify_map_eq|].
    intros k Hk.
    assert (k ≠ "vector" ∧ k ≠ "distance" ∧ k ≠ "score" ∧ k ≠ "id" ∧
            k ≠ "created_at") as (? & ? & ? & ? & ?).
    { repeat split; intros ->; apply Hk; repeat constructor. }
    by simplify_map_eq.
Qed.


(** ** [upsert] *)

Lemma attach_vectors_spec embeddings i0 l :
  (∀ idx, idx < length l → is_Some (embeddings !! (i0 + idx))) →
  ∃ l',
    attach_vectors float32 embeddings i0 l = Returns l' ∧
    length l' = length l ∧
    ∀ idx d, l !! idx = Some d →
      ∃ row, embeddings !! (i0 + idx) = Some row ∧
             l' !! idx = Some (<["vector" := VVec (float32 <$> row)]> d).
Proof.
  revert i0. induction l as [|d l IH]; intros i0 Hrows.
  - exists []. by repeat split.
  - destruct (Hrows 0) as [row Hrow]; [simpl; lia|].
    rewrite Nat.add_0_r in Hrow.
    destruct (IH (S i0)) as (l' & Hl' & Hlen & Hidx).
    { intros idx Hlt. replace (S i0 + idx) with (i0 + S idx) by lia.
      apply Hrows. simpl. lia. }
    exists (<["vector" := VVec (float32 <$> row)]> d :: l').
    split; [|split].
    + simpl. unfold attach_vector. rewrite Hrow. simpl. by rewrite Hl'.
    + simpl. by rewrite Hlen.
    + intros [|idx] d' Hd'.
      * injection Hd' as <-. exists row. by rewrite Nat.add_0_r.
      * destruct (Hidx idx d' Hd') as (row' & Hrow' & Hl'idx).
        exists row'. split; [|done].
        by replace (i0 + S idx) with (S i0 + idx) by lia.
Qed.

Lemma list_data_item_has_id current_time k v :
  is_Some (list_data_item self current_time k v !! "_id").
Proof.
  unfold list_data_item. apply lookup_union_is_Some. right. by eexists.
Qed.

Lemma list_data_item_dom current_time k v :
  dom (list_data_item self current_time k v)
  ⊆ {[ "_id"; "created_at" ]} ∪ meta_fields self.
Proof.
  intros x. unfold list_data_item.
  rewrite elem_of_dom, lookup_union_is_Some. intros [[y Hy]|[y Hy]].
  - apply map_lookup_filter_Some in Hy as [_ Hy]. simpl in Hy. set_solver.
  - destruct (decide (x = "_id")) as [->|]; [set_solver|].
    destruct (decide (x = "created_at")) as [->|]; [set_solver|].
    by simplify_map_eq.
Qed.

Lemma list_data_item_content current_time k v :
  list_data_item self current_time k v !! "content"
  = if decide ("content" ∈ meta_fields self) then v !! "content" else None.
Proof.
  unfold list_data_item. rewrite lookup_union_l by done.
  destruct (decide _) as [Hin|Hout].
  - destruct (v !! "content") as [x|] eqn:Hx.
    + by apply map_lookup_filter_Some.
    + apply map_lookup_filter_None. by left.
  - apply map_lookup_filter_None. right. intros x _. done.
Qed.

Lemma writes_return docs c :
  (∀ d, d ∈ docs → is_Some (d !! "_id")) →
  ∃ c', foldM (λ c doc, write doc c) c docs = Returns c'.
Proof.
  intros Hids. apply foldM_returns. intros c1 d Hd.
  destruct (Hids d Hd) as [i Hi]. unfold write. rewrite Hi. by eexists.
Qed.


Lemma upsert_nonempty current_time (data : list (string * record)) c :
  data ≠ [] →
  upsert embedding_func float32 self current_time data c
  = (contents ← mapM (λ '(_, v), content_of v) (data : list (string * record));
     if decide (_max_batch_size self ≤ 0)%Z then Raises ValueError
     else
       list_data ←
         attach_vectors float32
           (concat (embedding_func <$>
                    make_batches (Z.to_nat (_max_batch_size self)) contents))
           0 ((λ '(k, v), list_data_item self current_time k v) <$> data);
       c' ← foldM (λ c doc, write doc c) c list_data;
       Returns (c', Some list_data)).
Proof. by destruct data. Qed.

Lemma contents_returned (data : list (string * record)) :
  (∀ k v, (k, v) ∈ data → is_Some (v !! "content")) →
  ∃ contents,
    mapM (λ '(_, v), content_of v) (data : list (string * record)) = Returns contents ∧
    Forall2 (λ kv x, kv.2 !! "content" = Some x) data contents.
Proof.
  intros Hcontent.
  destruct (mapM_total (λ '(_, v), content_of v) (data : list (string * record))) as [contents Hc].
  { intros [k v] Hkv. destruct (Hcontent k v Hkv) as [x Hx].
    unfold content_of. rewrite Hx. by eexists. }
  exists contents. split; [done|]. apply mapM_Returns in Hc.
  eapply Forall2_impl; [exact Hc|]. intros [k v] x. unfold content_of. simpl.
  destruct (v !! "content"); [by intros [= ->]|done].
Qed.

(** C7, as the code has it.  With a positive batch size, an embedding
    function that gives one row per text, and a ["content"] in every
    input record, [upsert] returns [list_data], one record per input in
    input order, after writing them.  The contents are cut into batches
    of at most the batch size; the record of the [i]-th input is made of
    its [_id], [created_at], the declared metadata fields of the input
    and, as [vector], the rounded row that the embedding of its batch
    has at the position of its content.  No record has other fields;
    ["content"] is stored when, and only when, it is a declared
    metadata field. *)
Theorem upsert_embeds_in_input_order current_time
    (data : list (string * record)) c :
  (0 < _max_batch_size self)%Z →
  (∀ batch, length (embedding_func batch) = length batch) →
  (∀ k v, (k, v) ∈ data → is_Some (v !! "content")) →
  data ≠ [] →
  ∃ c' list_data contents,
    upsert embedding_func float32 self current_time data c
    = Returns (c', Some list_data) ∧
    foldM (λ c doc, write doc c) c list_data = Returns c' ∧
    Forall2 (λ kv x, kv.2 !! "content" = Some x) data contents ∧
    length list_data = length data ∧
    (∀ i k v, data !! i = Some (k, v) →
       ∃ batch content row,
         make_batches (Z.to_nat (_max_batch_size self)) contents
           !! (i / Z.to_nat (_max_batch_size self)) = Some batch ∧
         length batch ≤ Z.to_nat (_max_batch_size self) ∧
         batch !! (i mod Z.to_nat (_max_batch_size self)) = Some content ∧
         v !! "content" = Some content ∧
         embedding_func batch !! (i mod Z.to_nat (_max_batch_size self))
         = Some row ∧
         list_data !! i
         = Some (<["vector" := VVec (float32 <$> row)]>
                   (list_data_item self current_time k v)) ∧
         dom (<["vector" := VVec (float32 <$> row)]>
                (list_data_item self current_time k v))
         ⊆ {[ "_id"; "created_at"; "vector" ]} ∪ meta_fields self ∧
         <["vector" := VVec (float32 <$> row)]>
           (list_data_item self current_time k v) !! "content"
         = if decide ("content" ∈ meta_fields self) then Some content
           else None).
Proof.
  intros Hsize Hrows Hcontent Hne.
  set (size := Z.to_nat (_max_batch_size self)).
  assert (0 < size) as Hsize' by (unfold size; lia).
  rewrite upsert_nonempty by done.
  destruct (contents_returned data Hcontent) as (contents & -> & Hcs).
  simpl. rewrite decide_False by lia. fold size.
  set (embeddings := concat (embedding_func <$> make_batches size contents)).
  set (items := (λ '(k, v), list_data_item self current_time k v) <$> data).
  pose proof (Forall2_length _ _ _ Hcs) as Hlen.
  destruct (attach_vectors_spec embeddings 0 items)
    as (list_data & -> & Hll & Hidx).
  { intros idx Hlt. unfold items in Hlt. rewrite length_fmap in Hlt.
    destruct (embeddings_lookup embedding_func size contents idx)
      as (? & ? & row & _ & _ & _ & _ & _ & Hrow); [done|done|lia|].
    simpl. fold embeddings in Hrow. rewrite Hrow. by eexists. }
  simpl.
  destruct (writes_return list_data c) as [c' Hc'].
  { intros d Hd. apply list_elem_of_lookup in Hd as [i Hi].
    destruct (lookup_lt_is_Some_2 items i) as [d0 Hd0].
    { rewrite <-Hll. by apply lookup_lt_is_Some_1; eexists. }
    destruct (Hidx i d0 Hd0) as (row & _ & Hd'). rewrite Hi in Hd'.
    injection Hd' as ->. rewrite lookup_insert_ne by done.
    unfold items in Hd0. rewrite list_lookup_fmap in Hd0.
    destruct (data !! i) as [[k v]|]; [|done]. injection Hd0 as <-.
    apply list_data_item_has_id. }
  rewrite Hc'. simpl.
  exists c', list_data, contents.
  split; [done|]. split; [done|]. split; [done|].
  split; [unfold items in Hll; by rewrite length_fmap in Hll|].
  intros i k v Hi.
  assert (items !! i = Some (list_data_item self current_time k v)) as Hitem.
  { unfold items. by rewrite list_lookup_fmap, Hi. }
  destruct (Hidx i _ Hitem) as (row & Hrow & Hrec). simpl in Hrow.
  destruct (embeddings_lookup embedding_func size contents i)
    as (batch & content & row' & Hb & Hbl & Hbc & Hci & Hbr & Hrow');
    [done|done|rewrite <-Hlen; by apply lookup_lt_is_Some_1; eexists|].
  fold embeddings in Hrow'. rewrite Hrow in Hrow'. injection Hrow' as <-.
  assert (v !! "content" = Some content) as Hv.
  { by destruct (Forall2_lookup_lr _ _ _ _ _ _ Hcs Hi Hci). }
  exists batch, content, row.
  split; [done|]. split; [done|]. split; [done|]. split; [done|].
  split; [done|]. split; [done|]. split.
  - intros x Hx. apply elem_of_dom in Hx.
    destruct (decide (x = "vector")) as [->|Hxv].
    + apply elem_of_union_l, elem_of_union_r. by apply elem_of_singleton.
    + rewrite lookup_insert_ne in Hx by done. apply elem_of_dom in Hx.
      apply list_data_item_dom in Hx.
      apply elem_of_union in Hx as [Hx|Hx]; [|by apply elem_of_union_r].
      by apply elem_of_union_l, elem_of_union_l.
  - rewrite lookup_insert_ne by done.
    by rewrite list_data_item_content, Hv.
Qed.


(** ** [upsert], then [get_by_id] *)

Lemma has_id_value_inj v v' d : has_id_value v d → has_id_value v' d → v = v'.
Proof. unfold has_id_value. congruence. Qed.

Lemma get_by_id_find c id :
  get_by_id c id = with_id <$> Mongo.find_one has_id_value (VStr id) c.
Proof.
  unfold get_by_id.
  destruct (Mongo.find_one has_id_value (VStr id) c) as [d|] eqn:Hd; [|done].
  apply MongoFacts.find_one_Some in Hd as [_ Hd].
  rewrite decide_False; [done|].
  intros ->. unfold has_id_value in Hd. by rewrite lookup_empty in Hd.
Qed.

Lemma write_find doc c k :
  doc !! "_id" = Some (VStr k) →
  ∃ c', write doc c = Returns c' ∧
    Mongo.find_one has_id_value (VStr k) c'
    = Some (doc ∪ default ∅ (Mongo.find_one has_id_value (VStr k) c)) ∧
    ∀ k', k' ≠ k →
      Mongo.find_one has_id_value (VStr k') c'
      = Mongo.find_one has_id_value (VStr k') c.
Proof.
  intros Hid. unfold write. rewrite Hid. eexists. split; [done|].
  unfold Mongo.update_one_upsert.
  destruct (Mongo.find_one has_id_value (VStr k) c) as [d|] eqn:Hd; simpl.
  - split.
    + rewrite MongoFacts.find_one_update_one_hit, Hd; [done|].
      intros d' _. unfold has_id_value, op_set. by apply lookup_union_Some_l.
    + intros k' Hne. apply MongoFacts.find_one_update_one_miss.
      intros d' Hd'. split.
      * intros Hd''. apply Hne.
        pose proof (has_id_value_inj _ _ _ Hd'' Hd'). congruence.
      * unfold has_id_value, op_set.
        rewrite (lookup_union_Some_l _ _ _ _ Hid). congruence.
  - split.
    + rewrite MongoFacts.find_one_app, Hd. simpl.
      rewrite decide_True by done. by rewrite (right_id_L ∅ (∪)).
    + intros k' Hne. rewrite MongoFacts.find_one_app.
      destruct (Mongo.find_one has_id_value (VStr k') c); [done|]. simpl.
      rewrite decide_False; [done|]. unfold has_id_value. rewrite Hid.
      congruence.
Qed.

Lemma writes_find ks docs c c' :
  Forall2 (λ k doc, doc !! "_id" = Some (VStr k)) ks docs →
  NoDup ks →
  foldM (λ c doc, write doc c) c docs = Returns c' →
  (∀ i k doc, ks !! i = Some k → docs !! i = Some doc →
     Mongo.find_one has_id_value (VStr k) c'
     = Some (doc ∪ default ∅ (Mongo.find_one has_id_value (VStr k) c))) ∧
  (∀ k, k ∉ ks →
     Mongo.find_one has_id_value (VStr k) c'
     = Mongo.find_one has_id_value (VStr k) c).
Proof.
  intros Hids. revert c.
  induction Hids as [|k doc ks docs Hid Hids IH]; intros c Hnd; simpl.
  - intros [= <-]. split; [|done]. intros i k doc Hk. by destruct i.
  - apply NoDup_cons in Hnd as [Hk Hnd].
    destruct (write_find doc c k Hid) as (c1 & -> & Hsame & Hother). simpl.
    intros Hrest. destruct (IH c1 Hnd Hrest) as [IHs IHo]. split.
    + intros [|i] k0 doc0; simpl.
      * intros [= <-] [= <-]. by rewrite IHo.
      * intros Hk0 Hdoc0. rewrite (IHs i k0 doc0 Hk0 Hdoc0).
        rewrite Hother; [done|]. intros ->. apply Hk.
        by eapply list_elem_of_lookup_2.
    + intros k0 [Hne Hk0]%not_elem_of_cons. rewrite IHo by done.
      by apply Hother.
Qed.

Lemma attach_vectors_ids embeddings i0 l l' :
  attach_vectors float32 embeddings i0 l = Returns l' →
  Forall2 (λ d d', d' !! "_id" = d !! "_id") l l'.
Proof.
  revert i0 l'. induction l as [|d l IH]; intros i0 l'; simpl.
  - intros [= <-]. constructor.
  - unfold attach_vector. destruct (embeddings !! i0) as [row|]; simpl; [|done].
    destruct (attach_vectors float32 embeddings (S i0) l) as [rest|] eqn:Hrest;
      simpl; [|done].
    intros [= <-]. constructor; [by rewrite lookup_insert_ne|by eapply IH].
Qed.

Lemma list_data_item_id current_time k v :
  "_id" ∉ meta_fields self →
  list_data_item self current_time k v !! "_id" = Some (VStr k).
Proof.
  intros Hmeta. unfold list_data_item. rewrite lookup_union_r.
  - by simplify_map_eq.
  - apply map_lookup_filter_None. right. intros x _. done.
Qed.

(** X16. When [_id] is not a declared metadata field, a successful
    [upsert] followed by [get_by_id] on a key of [data] (the keys of a
    dictionary are distinct) gives the record that [upsert] returned
    for that key, completed with the fields that the stored record had
    and the new one does not name, and with [id]; other keys read as
    before. *)
Theorem upsert_then_get_by_id current_time (data : list (string * record))
    c c' list_data :
  "_id" ∉ meta_fields self →
  NoDup data.*1 →
  upsert embedding_func float32 self current_time data c
  = Returns (c', Some list_data) →
  (∀ i k v, data !! i = Some (k, v) →
     ∃ doc, list_data !! i = Some doc ∧
       get_by_id c' k
       = Some (with_id
                 (doc ∪ default ∅ (Mongo.find_one has_id_value (VStr k) c)))) ∧
  (∀ k, k ∉ data.*1 → get_by_id c' k = get_by_id c k).
Proof.
  intros Hmeta Hnd Hup.
  assert (data ≠ []) as Hne by (intros ->; simplify_eq/=).
  rewrite upsert_nonempty in Hup by done.
  destruct (mapM _ data) as [contents|]; simpl in Hup; [|done].
  destruct (decide _); [done|].
  destruct (attach_vectors _ _ _ _) as [ld|] eqn:Hld; simpl in Hup; [|done].
  destruct (foldM _ c ld) as [c1|] eqn:Hc1; simpl in Hup; [|done].
  injection Hup as <- <-.
  apply attach_vectors_ids in Hld.
  assert (Forall2 (λ k doc, doc !! "_id" = Some (VStr k)) data.*1 ld) as Hids.
  { apply Forall2_fmap_l. apply Forall2_fmap_l in Hld.
    eapply Forall2_impl; [exact Hld|]. intros [k v] doc. simpl. intros ->.
    by apply list_data_item_id. }
  destruct (writes_find _ _ _ _ Hids Hnd Hc1) as [Hsame Hother]. split.
  - intros i k v Hi.
    assert (data.*1 !! i = Some k) as Hk by (by rewrite list_lookup_fmap, Hi).
    destruct (Forall2_lookup_l _ _ _ _ _ Hids Hk) as (doc & Hdoc & _).
    exists doc. split; [done|].
    by rewrite get_by_id_find, (Hsame i k doc Hk Hdoc).
  - intros k Hk. by rewrite !get_by_id_find, Hother.
Qed.


(** X21. What [upsert] does when it cannot write: nothing for empty
    [data]; [KeyError] as soon as one record has no ["content"],
    whatever the batch size; [ValueError] when every record has a
    content and the batch size is not positive. *)
Theorem upsert_failures current_time (data : list (string * record)) c :
  upsert embedding_func float32 self current_time [] c = Returns (c, None) ∧
  (data ≠ [] → (∃ k v, (k, v) ∈ data ∧ v !! "content" = None) →
   upsert embedding_func float32 self current_time data c = Raises KeyError) ∧
  (data ≠ [] → (∀ k v, (k, v) ∈ data → is_Some (v !! "content")) →
   (_max_batch_size self ≤ 0)%Z →
   upsert embedding_func float32 self current_time data c
   = Raises ValueError).
Proof.
  split; [done|]. split.
  - intros Hne (k & v & Hkv & Hnone). rewrite upsert_nonempty by done.
    rewrite (mapM_Raises _ KeyError); [done| |].
    + intros [k' v'] e' _. unfold content_of.
      destruct (v' !! "content"); [done|]. by intros [= <-].
    + exists (k, v). split; [done|]. unfold content_of. by rewrite Hnone.
  - intros Hne Hcontent Hsize. rewrite upsert_nonempty by done.
    destruct (contents_returned data Hcontent) as (contents & -> & _).
    simpl. by rewrite decide_True.
Qed.

End Store.

(** Three stored vectors with scores 1/3, 2/3 and 1 against the
    threshold 4/5 and [top_k = 5]: one result. *)
Lemma query_threshold_and_fields_witness :
  let embedding_func := λ batch : list value, (λ _, [1%Q]) <$> batch in
  let vectorSearch := λ (c : collection) (_ : list Q) (limit : Z),
    take (Z.to_nat limit)
      ((λ d : record,
          (d, match d !! "vector" with
              | Some (VVec [x]) => (x / 3)%Q
              | _ => 0%Q
              end)) <$> c) in
  let self := Settings (4 # 5) 2 {[ "entity_name" ]} in
  let c : collection :=
    [ {[ "_id" := VStr "a"; "created_at" := VInt 7; "vector" := VVec [1%Q] ]};
      {[ "_id" := VStr "b"; "created_at" := VInt 8; "vector" := VVec [2%Q] ]};
      {[ "_id" := VStr "c"; "created_at" := VInt 9; "vector" := VVec [3%Q];
         "entity_name" := VStr "C" ]} ] in
  ∃ results,
    query embedding_func vectorSearch self c (VStr "q") 5 = Returns results ∧
    length results = 1.
Proof.
  intros embedding_func vectorSearch self c.
  destruct (query_threshold_and_fields embedding_func vectorSearch self
              c (VStr "q") 5 [1%Q] [])
    as (results & Hq & Hlen & _).
  - reflexivity.
  - intros d s Hd. apply (subseteq_take _ _ _) in Hd.
    apply list_elem_of_fmap in Hd as (d' & [= <- _] & Hd').
    repeat (apply elem_of_cons in Hd' as [->|Hd']; [by eexists|]).
    by apply elem_of_nil in Hd'.
  - exists results. split; [exact Hq|]. rewrite Hlen. reflexivity.
Defined.

(** Three records in batches of two. *)
Lemma upsert_embeds_in_input_order_witness :
  let embedding_func := λ batch : list value,
    (λ x, match x with VStr s => [inject_Z (Z.of_nat (String.length s))]
                     | _ => [0%Q] end) <$> batch in
  let self := Settings (4 # 5) 2 {[ "entity_name" ]} in
  let data : list (string * record) :=
    [ ("a", {[ "content" := VStr "x"; "entity_name" := VStr "A" ]});
      ("b", {[ "content" := VStr "xy" ]});
      ("c", {[ "content" := VStr "xyz"; "note" := VStr "n" ]}) ] in
  ∃ c' list_data,
    upsert embedding_func (λ q, q) self 1000 data []
    = Returns (c', Some list_data) ∧
    length list_data = 3.
Proof.
  intros embedding_func self data.
  destruct (upsert_embeds_in_input_order embedding_func (λ q, q) self
              1000 data [])
    as (c' & list_data & contents & Hup & _ & _ & Hlen & _).
  - reflexivity.
  - intros batch. unfold embedding_func. apply length_fmap.
  - intros k v Hkv.
    repeat (apply elem_of_cons in Hkv as [[= -> ->]|Hkv]; [by eexists|]).
    by apply elem_of_nil in Hkv.
  - discriminate.
  - exists c', list_data. split; [exact Hup|exact Hlen].
Defined.

(** C7 as stated fails when ["content"] is a declared metadata field:
    the text is in the record that is written. *)
Lemma upsert_content_persisted_counterexample :
  upsert (λ batch : list value, (λ _, [1%Q]) <$> batch) (λ q, q)
         (Settings (4 # 5) 2 {[ "content" ]}) 1000
         [ ("a", {[ "content" := VStr "hello" ]} : record) ] []
  = Returns
      ([ {[ "_id" := VStr "a"; "created_at" := VInt 1000;
            "content" := VStr "hello"; "vector" := VVec [1%Q] ]} ],
       Some [ {[ "_id" := VStr "a"; "created_at" := VInt 1000;
                 "content" := VStr "hello"; "vector" := VVec [1%Q] ]} ]) ∧
  ({[ "_id" := VStr "a"; "created_at" := VInt 1000;
      "content" := VStr "hello"; "vector" := VVec [1%Q] ]} : record)
    !! "content" ≠ None.
Proof. split; [reflexivity|discriminate]. Qed.

(** A stored record with a field of its own is rewritten: the new
    fields and the old [note]. *)
Lemma upsert_then_get_by_id_witness :
  let embedding_func := λ batch : list value, (λ _, [1%Q]) <$> batch in
  let self := Settings (4 # 5) 2 {[ "entity_name" ]} in
  let c : collection := [ {[ "_id" := VStr "a"; "note" := VStr "n" ]} ] in
  let data : list (string * record) :=
    [ ("a", {[ "content" := VStr "x"; "entity_name" := VStr "A" ]});
      ("b", {[ "content" := VStr "y" ]}) ] in
  ∃ c' list_data,
    upsert embedding_func (λ q, q) self 1000 data c
    = Returns (c', Some list_data) ∧
    ∃ doc, list_data !! 0 = Some doc ∧
      get_by_id c' "a"
      = Some (with_id
                (doc ∪ default ∅ (Mongo.find_one has_id_value (VStr "a") c))).
Proof.
  intros embedding_func self c data. eexists _, _. split; [reflexivity|].
  eapply (proj1 (upsert_then_get_by_id embedding_func (λ q, q) self 1000
                   data c _ _ _ _ _) 0 "a").
  reflexivity.
  Unshelve.
  - intros Hin. simpl in Hin. apply elem_of_singleton in Hin. discriminate.
  - unfold data. simpl. apply NoDup_cons. split; [|apply NoDup_singleton].
    apply not_elem_of_cons. split; [discriminate|apply not_elem_of_nil].
  - reflexivity.
Defined.

(** ** Deletions and reads *)

Lemma with_id_id d : with_id d !! "_id" = d !! "_id".
Proof.
  unfold with_id. destruct (d !! "_id") eqn:Hd; [|done].
  destruct (d !! "id"); [done|]. by rewrite lookup_insert_ne.
Qed.

Lemma with_id_has_id d : is_Some (d !! "_id") → is_Some (with_id d !! "id").
Proof.
  intros [i Hi]. unfold with_id. rewrite Hi.
  destruct (d !! "id") eqn:Hd; [by rewrite Hd|].
  rewrite lookup_insert_eq. by eexists.
Qed.

Lemma same_id_same_doc (c : collection) d d' :
  NoDup ((.!! "_id") <$> c) → d ∈ c → d' ∈ c → d !! "_id" = d' !! "_id" →
  d = d'.
Proof.
  induction c as [|x c IH]; [by intros _ ?%elem_of_nil|].
  rewrite fmap_cons. intros [Hx Hnd]%NoDup_cons Hd Hd' Heq.
  apply elem_of_cons in Hd as [->|Hd]; apply elem_of_cons in Hd' as [->|Hd'].
  - done.
  - destruct Hx. rewrite Heq. by apply list_elem_of_fmap_2.
  - destruct Hx. rewrite <-Heq. by apply list_elem_of_fmap_2.
  - by apply IH.
Qed.

Lemma filter_ext_elem {A} (P Q : A → Prop)
    `{!∀ x, Decision (P x), !∀ x, Decision (Q x)} (l : list A) :
  (∀ x, x ∈ l → P x ↔ Q x) → filter P l = filter Q l.
Proof.
  induction l as [|x l IH]; [done|]. intros HPQ.
  assert (filter P l = filter Q l) as Hl
    by (apply IH; intros y Hy; apply HPQ; by right).
  destruct (decide (P x)) as [Hx|Hx].
  - rewrite !filter_cons_True; [by rewrite Hl|by apply HPQ; [left|]|done].
  - rewrite !filter_cons_False; [done| |done].
    intros HQ. apply Hx. by apply HPQ; [left|].
Qed.

(** X17. In a collection whose documents all have an [_id],
    [delete_entity_relation] returns; what is left are documents of the
    collection that do not name the entity as [src_id] or [tgt_id], and
    with distinct [_id]s it is exactly those, in their order. *)
Theorem delete_entity_relation_removes c entity_name :
  (∀ d, d ∈ c → is_Some (d !! "_id")) →
  ∃ c', delete_entity_relation c entity_name = Returns c' ∧
    (∀ d, d ∈ c' → d ∈ c ∧ ¬ relates_to entity_name d) ∧
    (NoDup ((.!! "_id") <$> c) →
     c' = filter (λ d, ¬ relates_to entity_name d) c).
Proof.
  intros Hids. unfold delete_entity_relation.
  destruct (filter (relates_to entity_name) c) as [|r rs] eqn:Hrel.
  { assert (∀ d, d ∈ c → ¬ relates_to entity_name d) as Hnone.
    { intros d Hd Hr.
      assert (d ∈ filter (relates_to entity_name) c) as Hin
        by (by apply list_elem_of_filter).
      rewrite Hrel in Hin. by apply elem_of_nil in Hin. }
    exists c. split; [done|]. split.
    - intros d Hd. split; [done|by apply Hnone].
    - intros _. symmetry. apply ListFacts.filter_all.
      apply Forall_forall. exact Hnone. }
  rewrite <-Hrel.
  destruct (mapM_total (λ relation : record,
                          match relation !! "_id" with
                          | Some id => Returns id
                          | None => Raises KeyError
                          end) (filter (relates_to entity_name) c))
    as [relation_ids Hmap].
  { intros x [_ Hx]%list_elem_of_filter. destruct (Hids x Hx) as [i ->].
    by eexists. }
  rewrite Hmap. simpl. eexists. split; [done|].
  apply mapM_Returns in Hmap.
  assert (∀ d, d ∈ c →
            Exists (λ id, has_id_value id d) relation_ids ↔
            ∃ x, x ∈ c ∧ relates_to entity_name x ∧ x !! "_id" = d !! "_id")
    as Hex.
  { intros d Hd. rewrite Exists_exists. split.
    - intros (i & Hi & Hdi).
      apply list_elem_of_lookup in Hi as [n Hn].
      destruct (Forall2_lookup_r _ _ _ _ _ Hmap Hn) as (x & Hx & Hxi).
      apply list_elem_of_lookup_2, list_elem_of_filter in Hx as [Hxr Hxc].
      exists x. split; [done|]. split; [done|].
      unfold has_id_value in Hdi. rewrite Hdi.
      destruct (x !! "_id"); by simplify_eq.
    - intros (x & Hxc & Hxr & Hxd).
      assert (x ∈ filter (relates_to entity_name) c) as Hx
        by (by apply list_elem_of_filter).
      apply list_elem_of_lookup in Hx as [n Hn].
      destruct (Forall2_lookup_l _ _ _ _ _ Hmap Hn) as (i & Hi & Hxi).
      exists i. split; [by eapply list_elem_of_lookup_2|].
      unfold has_id_value. rewrite <-Hxd.
      destruct (x !! "_id"); by simplify_eq. }
  split.
  - intros d [Hnot Hd]%list_elem_of_filter. split; [done|].
    intros Hr. apply Hnot, (Hex d Hd). by exists d.
  - intros Hnd. apply filter_ext_elem. intros d Hd. rewrite (Hex d Hd). split.
    + intros Hnot Hr. apply Hnot. by exists d.
    + intros Hnot (x & Hxc & Hxr & Hxd).
      by rewrite <-(same_id_same_doc c x d Hnd Hxc Hd Hxd) in Hnot.
Qed.

(** Two relations of [E] and one between other entities. *)
Lemma delete_entity_relation_removes_witness :
  let c : collection :=
    [ {[ "_id" := VStr "r1"; "src_id" := VStr "E"; "tgt_id" := VStr "F" ]};
      {[ "_id" := VStr "r2"; "src_id" := VStr "F"; "tgt_id" := VStr "G" ]};
      {[ "_id" := VStr "r3"; "src_id" := VStr "G"; "tgt_id" := VStr "E" ]} ] in
  ∃ c', delete_entity_relation c "E" = Returns c' ∧
    (∀ d, d ∈ c' → d ∈ c ∧ ¬ relates_to "E" d) ∧
    (NoDup ((.!! "_id") <$> c) → c' = filter (λ d, ¬ relates_to "E" d) c).
Proof.
  intros c. apply (delete_entity_relation_removes c "E").
  intros d Hd.
  repeat (apply elem_of_cons in Hd as [->|Hd]; [by eexists|]).
  by apply elem_of_nil in Hd.
Defined.

(** X18. [delete], then [get_by_id]: the listed ids have no record and
    the others read as before. *)
Theorem delete_then_get_by_id c ids k :
  get_by_id (delete_ids c ids) k
  = if decide (k ∈ ids) then None else get_by_id c k.
Proof.
  rewrite !get_by_id_find. unfold delete_ids. destruct ids as [|i ids].
  { rewrite decide_False; [done|]. apply not_elem_of_nil. }
  unfold Mongo.delete_many. destruct (decide (k ∈ i :: ids)) as [Hk|Hk].
  - rewrite MongoFacts.find_one_filter_drop; [done|].
    intros d Hd Hnot. apply Hnot, Exists_exists. exists (VStr k).
    split; [by apply list_elem_of_fmap_2|done].
  - rewrite MongoFacts.find_one_filter_keep; [done|].
    intros d Hd Hex. apply Exists_exists in Hex as (v & Hv & Hdv).
    apply list_elem_of_fmap in Hv as (k' & -> & Hk').
    pose proof (has_id_value_inj _ _ _ Hd Hdv) as [= ->]. done.
Qed.

(** X19. The two reads agree: a record that [get_by_id] finds for a
    listed id is among the results of [get_by_ids]; each result of
    [get_by_ids] has an [id] and the [_id] of a listed id; and with
    distinct [_id]s each result is what [get_by_id] returns for a listed
    id. *)
Theorem get_by_ids_get_by_id c ids :
  (∀ k r, k ∈ ids → get_by_id c k = Some r → r ∈ get_by_ids c ids) ∧
  (∀ r, r ∈ get_by_ids c ids →
     is_Some (r !! "id") ∧ ∃ k, k ∈ ids ∧ r !! "_id" = Some (VStr k)) ∧
  (NoDup ((.!! "_id") <$> c) →
   ∀ r, r ∈ get_by_ids c ids → ∃ k, k ∈ ids ∧ get_by_id c k = Some r).
Proof.
  assert (∀ r, r ∈ get_by_ids c ids →
            ∃ d k, d ∈ c ∧ k ∈ ids ∧ d !! "_id" = Some (VStr k) ∧
                   r = with_id d) as Hshape.
  { intros r. unfold get_by_ids. destruct ids as [|i ids].
    { by intros ?%elem_of_nil. }
    intros (d & -> & [Hex Hd]%list_elem_of_filter)%list_elem_of_fmap.
    apply Exists_exists in Hex as (k & Hk & Hdk). by exists d, k. }
  split; [|split].
  - intros k r Hk. rewrite get_by_id_find.
    destruct (Mongo.find_one has_id_value (VStr k) c) as [d|] eqn:Hd; [|done].
    intros [= <-]. apply MongoFacts.find_one_Some in Hd as [Hd Hdk].
    unfold get_by_ids. destruct ids as [|i ids]; [by apply elem_of_nil in Hk|].
    apply list_elem_of_fmap_2, list_elem_of_filter. split; [|done].
    apply Exists_exists. by exists k.
  - intros r (d & k & Hd & Hk & Hdk & ->)%Hshape. split.
    + apply with_id_has_id. by eexists.
    + exists k. by rewrite with_id_id.
  - intros Hnd r (d & k & Hd & Hk & Hdk & ->)%Hshape.
    exists k. split; [done|]. rewrite get_by_id_find.
    destruct (Mongo.find_one has_id_value (VStr k) c) as [d'|] eqn:Hd'.
    + apply MongoFacts.find_one_Some in Hd' as [Hd' Hdk']. simpl.
      do 2 f_equal. apply (same_id_same_doc c); try done.
      unfold has_id_value in Hdk'. by rewrite Hdk'.
    + apply MongoFacts.find_one_None in Hd'. rewrite Forall_forall in Hd'.
      by destruct (Hd' d Hd).
Qed.

(** A record without content after one with content, and a batch size
    of zero. *)
Lemma upsert_failures_witness :
  let embedding_func := λ batch : list value, (λ _, [1%Q]) <$> batch in
  let data : list (string * record) :=
    [ ("a", {[ "content" := VStr "x" ]}); ("b", {[ "note" := VStr "n" ]}) ] in
  let data' : list (string * record) := [ ("a", {[ "content" := VStr "x" ]}) ] in
  upsert embedding_func (λ q, q) (Settings (4 # 5) 2 ∅) 1000 data []
  = Raises KeyError ∧
  upsert embedding_func (λ q, q) (Settings (4 # 5) 0 ∅) 1000 data' []
  = Raises ValueError.
Proof.
  intros embedding_func data data'. split.
  - apply (upsert_failures embedding_func (λ q, q) (Settings (4 # 5) 2 ∅)
             1000 data []); [discriminate|].
    exists "b", {[ "note" := VStr "n" ]}. split; [|reflexivity].
    right; left.
  - apply (upsert_failures embedding_func (λ q, q) (Settings (4 # 5) 0 ∅)
             1000 data' []); [discriminate| |reflexivity].
    intros k v Hkv. apply list_elem_of_singleton in Hkv as [= -> ->].
    by eexists.
Defined.

(** Two stored vectors, asked for in the other order. *)
Lemma get_by_ids_get_by_id_witness :
  let c : collection :=
    [ {[ "_id" := VStr "a"; "vector" := VVec [1%Q] ]};
      {[ "_id" := VStr "b"; "id" := VStr "own" ]} ] in
  ∃ r, get_by_id c "a" = Some r ∧ r ∈ get_by_ids c ["b"; "a"].
Proof.
  intros c. eexists. split; [reflexivity|].
  apply (proj1 (get_by_ids_get_by_id c ["b"; "a"]) "a");
    [right; left|reflexivity].
Defined.

End MongoVectorDBStorageFacts.

(* ================================================================== *)
(** * Properties of MongoDocStatusStorage                              *)
(* ================================================================== *)

Module MongoDocStatusStorageFacts.
Import MongoDocStatusStorage OutcomeFacts ListFacts.

Lemma dict_get_fresh k n counts :
  dict_get k counts = None → dict_set k n counts = counts ++ [(k, n)].
Proof.
  induction counts as [|[k' n'] counts IH]; simpl; [done|].
  destruct (decide (k' = k)); [done|]. intros Hnone. by rewrite IH.
Qed.

Lemma dict_get_app k counts counts' :
  dict_get k (counts ++ counts')
  = match dict_get k counts with
    | Some n => Some n
    | None => dict_get k counts'
    end.
Proof.
  induction counts as [|[k' n'] counts IH]; simpl; [done|].
  by destruct (decide (k' = k)).
Qed.

Lemma dict_get_None k counts : k ∉ counts.*1 → dict_get k counts = None.
Proof.
  induction counts as [|[k' n'] counts IH]; simpl; [done|].
  intros [Hne Hk]%not_elem_of_cons. rewrite decide_False by done. by apply IH.
Qed.

(** Filling a dictionary from groups with distinct keys keeps the
    groups as they come. *)
Lemma fill_counts groups counts :
  NoDup (counts.*1 ++ groups.*1) →
  foldl (λ counts '(s, n), dict_set s n counts) counts groups
  = counts ++ groups.
Proof.
  revert counts. induction groups as [|[s n] groups IH]; intros counts Hnd.
  - by rewrite app_nil_r.
  - simpl. rewrite dict_get_fresh.
    + rewrite IH, <-app_assoc; [done|].
      rewrite fmap_app. simpl. by rewrite <-app_assoc.
    + apply dict_get_None. simpl in Hnd.
      apply NoDup_app in Hnd as (_ & Hdisj & _). intros Hin.
      apply (Hdisj s Hin). left.
Qed.

Lemma dict_get_keyed (f : value → nat) ks k :
  dict_get k ((λ s, (s, f s)) <$> ks)
  = if decide (k ∈ ks) then Some (f k) else None.
Proof.
  induction ks as [|k' ks IH].
  - by rewrite decide_False by apply not_elem_of_nil.
  - rewrite fmap_cons. cbn [dict_get]. rewrite IH.
    destruct (decide (k' = k)) as [->|Hne].
    + by rewrite (decide_True (P := k ∈ k :: ks)) by left.
    + destruct (decide (k ∈ ks)).
      * by rewrite (decide_True (P := k ∈ k' :: ks)) by (by right).
      * rewrite (decide_False (P := k ∈ k' :: ks)); [done|].
        by intros [->|?]%elem_of_cons.
Qed.

Lemma keyed_keys (f : value → nat) ks : ((λ s, (s, f s)) <$> ks).*1 = ks.
Proof. induction ks as [|k ks IH]; [done|]. rewrite !fmap_cons. by rewrite IH. Qed.

Lemma keyed_values (f g : value → nat) ks :
  (∀ k, f k = g k) → ((λ s, (s, f s)) <$> ks).*2 = g <$> ks.
Proof.
  intros Hfg. induction ks as [|k ks IH]; [done|].
  rewrite !fmap_cons. simpl. by rewrite IH, Hfg.
Qed.

Lemma get_status_counts_groups c : get_status_counts c = group_by_status c.
Proof.
  unfold get_status_counts. rewrite fill_counts; [done|]. simpl.
  unfold group_by_status. rewrite keyed_keys. apply NoDup_remove_dups.
Qed.

(** Each element counts for one key of a duplicate-free list that
    contains it. *)
Lemma sum_indicator (x : value) ks :
  NoDup ks →
  sum_list ((λ k, if decide (x = k) then 1 else 0) <$> ks)
  = if decide (x ∈ ks) then 1 else 0.
Proof.
  induction 1 as [|k ks Hk _ IH].
  - by rewrite decide_False by apply not_elem_of_nil.
  - rewrite fmap_cons. cbn [sum_list sum_list_with]. fold (sum_list
      ((λ k0, if decide (x = k0) then 1 else 0) <$> ks)). rewrite IH.
    destruct (decide (x = k)) as [->|Hne].
    + rewrite (decide_False (P := k ∈ ks)) by done.
      by rewrite (decide_True (P := k ∈ k :: ks)) by left.
    + destruct (decide (x ∈ ks)).
      * by rewrite (decide_True (P := x ∈ k :: ks)) by (by right).
      * rewrite (decide_False (P := x ∈ k :: ks)); [done|].
        by intros [->|?]%elem_of_cons.
Qed.

Lemma sum_list_fmap_add {A} (f g : A → nat) l :
  sum_list ((λ x, f x + g x) <$> l) = sum_list (f <$> l) + sum_list (g <$> l).
Proof.
  induction l as [|x l IH]; [done|]. rewrite !fmap_cons. csimpl.
  rewrite IH. lia.
Qed.

Lemma sum_list_fmap_ext {A} (f g : A → nat) l :
  (∀ x, f x = g x) → sum_list (f <$> l) = sum_list (g <$> l).
Proof.
  intros Hfg. induction l as [|x l IH]; [done|]. rewrite !fmap_cons. csimpl.
  by rewrite IH, Hfg.
Qed.

Lemma sum_list_fmap_zero {A} (l : list A) : sum_list ((λ _, 0) <$> l) = 0.
Proof. induction l as [|x l IH]; [done|]. rewrite fmap_cons. csimpl. by rewrite IH. Qed.

Lemma sum_counts (keys ks : list value) :
  NoDup ks → (∀ x, x ∈ keys → x ∈ ks) →
  sum_list ((λ k, length (filter (λ x, x = k) keys)) <$> ks) = length keys.
Proof.
  intros Hnd. induction keys as [|x keys IH]; intros Hin.
  - rewrite (sum_list_fmap_ext _ (λ _, 0)) by done. apply sum_list_fmap_zero.
  - rewrite (sum_list_fmap_ext _
               (λ k, (if decide (x = k) then 1 else 0)
                     + length (filter (λ x0, x0 = k) keys))).
    + rewrite sum_list_fmap_add, sum_indicator by done.
      rewrite decide_True by (apply Hin; left).
      rewrite IH; [done|]. intros y Hy. apply Hin. by right.
    + intros k. destruct (decide (x = k)) as [->|Hne].
      * by rewrite filter_cons_True.
      * by rewrite filter_cons_False.
Qed.

Lemma filter_status_length c s :
  length (filter (λ d, status_field d = s) c)
  = length (filter (λ x, x = s) (status_field <$> c)).
Proof.
  symmetry. by apply filter_fmap_length.
Qed.

(** X6. [get_status_counts] maps each status that occurs to the number
    of documents with it (a document without the field counts under
    null), has no entry for a status that does not occur, and its counts
    add up to the number of documents. *)
Theorem status_counts_count c :
  (∀ s, dict_get s (get_status_counts c)
        = let n := length (filter (λ d, status_field d = s) c) in
          if decide (n = 0) then None else Some n) ∧
  sum_list ((get_status_counts c).*2) = length c.
Proof.
  rewrite get_status_counts_groups. unfold group_by_status. split.
  - intros s. simpl. rewrite dict_get_keyed.
    destruct (decide (s ∈ remove_dups (status_field <$> c))) as [Hin|Hout].
    + apply elem_of_remove_dups, list_elem_of_fmap in Hin as (d & -> & Hd).
      rewrite decide_False; [done|].
      assert (d ∈ filter (λ d0, status_field d0 = status_field d) c) as Hf
        by (by apply list_elem_of_filter).
      destruct (filter _ c); [by apply elem_of_nil in Hf|done].
    + rewrite decide_True; [done|].
      rewrite filter_nil_not_Exists; [done|]. intros Hex.
      apply Exists_exists in Hex as (d & Hd & <-). apply Hout.
      apply elem_of_remove_dups. by apply list_elem_of_fmap_2.
  - rewrite (keyed_values _
               (λ k, length (filter (λ x, x = k) (status_field <$> c))))
      by apply filter_status_length.
    rewrite sum_counts; [by rewrite length_fmap|apply NoDup_remove_dups|].
    intros x Hx. by apply elem_of_remove_dups.
Qed.

Lemma processing_status_entry_Returns doc id e :
  processing_status_entry doc = Returns (id, e) →
  doc !! "_id" = Some id ∧
  doc !! "content" = Some (content e) ∧
  doc !! "content_length" = Some (content_length e) ∧
  doc !! "status" = Some (status e) ∧
  chunks_count e = default (VInt (-1)) (doc !! "chunks_count") ∧
  file_path e = default id (doc !! "file_path") ∧
  content_summary e = default VNone (doc !! "content_summary") ∧
  created_at e = default VNone (doc !! "created_at") ∧
  updated_at e = default VNone (doc !! "updated_at").
Proof.
  unfold processing_status_entry, item, get.
  destruct (doc !! "_id"); [|done]. destruct (doc !! "content"); [|done].
  destruct (doc !! "content_length"); [|done].
  destruct (doc !! "status"); [|done]. simpl. by intros [= <- <-].
Qed.

Lemma processing_status_entry_total doc :
  is_Some (doc !! "_id") → is_Some (doc !! "content") →
  is_Some (doc !! "content_length") → is_Some (doc !! "status") →
  ∃ entry, processing_status_entry doc = Returns entry.
Proof.
  intros [? H1] [? H2] [? H3] [? H4]. unfold processing_status_entry, item.
  rewrite H1, H2, H3, H4. by eexists.
Qed.

Lemma processing_status_entry_Raises doc e :
  processing_status_entry doc = Raises e → e = KeyError.
Proof.
  unfold processing_status_entry, item.
  destruct (doc !! "_id"); [|by intros [= <-]].
  destruct (doc !! "content"); [|by intros [= <-]].
  destruct (doc !! "content_length"); [|by intros [= <-]].
  destruct (doc !! "status"); [|by intros [= <-]]. done.
Qed.

(** X7. [get_docs_by_status] gives one entry per document with the
    status, in order, under the document's [_id], when each of them has
    an [_id], a [content] and a [content_length]: the entry has the
    document's [content], [content_length] and [status]; a missing
    [content_summary], [created_at] or [updated_at] reads as [None], a
    missing [chunks_count] as -1 and a missing [file_path] as the
    [_id].  When one of these documents lacks [_id], [content] or
    [content_length], the call raises [KeyError] (the [status] cannot
    be missing: the documents were found by it). *)
Theorem docs_by_status_entries c st :
  ((∀ d, d ∈ c → d !! "status" = Some (VStr st) →
         is_Some (d !! "_id") ∧ is_Some (d !! "content") ∧
         is_Some (d !! "content_length")) →
   ∃ entries,
     get_docs_by_status c st = Returns entries ∧
     Forall2 (λ d (entry : value * DocProcessingStatus),
                d !! "_id" = Some entry.1 ∧
                d !! "content" = Some (content entry.2) ∧
                d !! "content_length" = Some (content_length entry.2) ∧
                status entry.2 = VStr st ∧
                content_summary entry.2
                = default VNone (d !! "content_summary") ∧
                created_at entry.2 = default VNone (d !! "created_at") ∧
                updated_at entry.2 = default VNone (d !! "updated_at") ∧
                chunks_count entry.2
                = default (VInt (-1)) (d !! "chunks_count") ∧
                file_path entry.2 = default entry.1 (d !! "file_path"))
             (filter (λ d, d !! "status" = Some (VStr st)) c) entries) ∧
  ((∃ d, d ∈ c ∧ d !! "status" = Some (VStr st) ∧
         (d !! "_id" = None ∨ d !! "content" = None ∨
          d !! "content_length" = None)) →
   get_docs_by_status c st = Raises KeyError).
Proof.
  unfold get_docs_by_status. split.
  - intros Hok.
    destruct (mapM_total processing_status_entry
                (filter (λ d, d !! "status" = Some (VStr st)) c))
      as [entries Hentries].
    { intros d [Hst Hd]%list_elem_of_filter.
      destruct (Hok d Hd Hst) as (? & ? & ?).
      apply processing_status_entry_total; try done; by rewrite Hst. }
    exists entries. split; [done|]. apply mapM_Returns in Hentries.
    apply Forall2_same_length_lookup.
    split; [by eapply Forall2_length|]. intros i d [id e] Hd He.
    pose proof (Forall2_lookup_lr _ _ _ _ _ _ Hentries Hd He) as Hde.
    apply processing_status_entry_Returns in Hde
      as (H1 & H2 & H3 & H4 & H5 & H6 & H7 & H8 & H9).
    apply list_elem_of_lookup_2, list_elem_of_filter in Hd as [Hst _].
    simpl. split; [done|]. split; [done|]. split; [done|].
    split; [congruence|]. by repeat split.
  - intros (d & Hd & Hst & Hmissing).
    apply mapM_Raises.
    + intros x e' _. apply processing_status_entry_Raises.
    + exists d. split; [by apply list_elem_of_filter|].
      unfold processing_status_entry, item.
      destruct (d !! "_id") as [id|]; [|done].
      destruct (d !! "content") as [x|]; [|done].
      destruct (d !! "content_length") as [n|]; [|done].
      by destruct Hmissing as [?|[?|?]].
Qed.

(** One processed document without the optional fields; a failed one
    without content; a pending one without content length. *)
Lemma docs_by_status_entries_witness :
  let c : collection :=
    [ {[ "_id" := VStr "doc-1"; "status" := VStr "processed";
         "content" := VStr "text"; "content_length" := VInt 4 ]};
      {[ "_id" := VStr "doc-2"; "status" := VStr "failed" ]};
      {[ "_id" := VStr "doc-3"; "status" := VStr "pending";
         "content" := VStr "later" ]} ] in
  get_docs_by_status c "processed"
  = Returns [ (VStr "doc-1",
               DocProcessingStatus_ (VStr "text") VNone (VInt 4)
                 (VStr "processed") VNone VNone (VInt (-1)) (VStr "doc-1")) ] ∧
  get_docs_by_status c "failed" = Raises KeyError ∧
  get_docs_by_status c "pending" = Raises KeyError.
Proof.
  intros c.
  destruct (proj1 (docs_by_status_entries c "processed"))
    as (entries & Hret & Hall).
  { intros d Hd Hst.
    repeat (apply elem_of_cons in Hd as [->|Hd]; [by repeat split|]).
    by apply elem_of_nil in Hd. }
  split; [|split].
  - reflexivity.
  - apply (proj2 (docs_by_status_entries c "failed")).
    exists {[ "_id" := VStr "doc-2"; "status" := VStr "failed" ]}.
    split; [right; left|]. split; [reflexivity|]. right. left. reflexivity.
  - apply (proj2 (docs_by_status_entries c "pending")).
    exists {[ "_id" := VStr "doc-3"; "status" := VStr "pending";
              "content" := VStr "later" ]}.
    split; [do 2 right; left|]. split; [reflexivity|].
    right. right. reflexivity.
Defined.

(** ** [upsert], then [get_status_counts] *)

Lemma status_count_lookup c s :
  default 0 (dict_get s (get_status_counts c))
  = length (filter (λ d, status_field d = s) c).
Proof.
  rewrite get_status_counts_groups. unfold group_by_status.
  rewrite dict_get_keyed.
  destruct (decide (s ∈ remove_dups (status_field <$> c))) as [Hin|Hout];
    [done|].
  simpl. rewrite filter_nil_not_Exists; [done|]. intros Hex.
  apply Exists_exists in Hex as (d & Hd & <-). apply Hout.
  apply elem_of_remove_dups. by apply list_elem_of_fmap_2.
Qed.

(** X23. Writing one document moves one unit between the status
    counts: for each status, the count after [upsert], plus one if the
    document was stored with that status, is the count before plus one
    if the document is now stored with that status.  So a new document
    adds one to the count of its status, and a change of status takes
    one from the old status and gives it to the new one. *)
Theorem upsert_moves_one_count c k v s :
  let c' := upsert [(k, v)] c in
  let count c := default 0 (dict_get s (get_status_counts c)) in
  let has (r : option record) :=
    match r with
    | Some d => if decide (status_field d = s) then 1 else 0
    | None => 0
    end in
  count c' + has (MongoKVStorage.get_by_id c k)
  = count c + has (MongoKVStorage.get_by_id c' k).
Proof.
  intros c' count has. unfold count. rewrite !status_count_lookup.
  assert (c' = MongoKVStorage.plain_task k v c) as Hc' by done.
  unfold has. rewrite Hc', MongoKVStorageFacts.plain_task_same.
  unfold MongoKVStorage.plain_task, Mongo.update_one_upsert,
    MongoKVStorage.get_by_id, MongoKVStorage.find_one.
  destruct (Mongo.find_one record_has_id k c) as [d|] eqn:Hd; simpl.
  - pose proof (MongoFacts.filter_update_one_length record_has_id k
                  (op_set (<["_id" := VStr k]> v))
                  (λ d, status_field d = s) c d Hd) as Hlen.
    unfold op_set in Hlen. exact Hlen.
  - rewrite (right_id_L ∅ (∪)), filter_app, length_app.
    destruct (decide (status_field (<["_id" := VStr k]> v) = s)).
    + rewrite (filter_cons_True (λ d, status_field d = s)) by done. done.
    + rewrite (filter_cons_False (λ d, status_field d = s)) by done. done.
Qed.

End MongoDocStatusStorageFacts.
